(** * shrinkpdf: the Ghostscript worker (gs.worker.ts)

    A shallow embedding of the background worker that queues PDF-shrink
    jobs, scrapes Ghostscript's log lines for page progress, builds the
    engine's argument list and applies the size fallback, followed by the
    properties of the specification that concern it.

    Layout: JavaScript values (strings, numbers, regular expressions),
    the worker's module state and helpers, [shrinkPdfLikeScript],
    [handleJob], the promise chain behind [self.onmessage], then the
    theorems.  The caller's side ([compressWithGS] of gs-client.ts) and
    the helpers and callbacks of the page (App.tsx) follow the worker;
    further properties of the three come after those of the
    specification. *)

From Stdlib Require Import ZArith List Bool Lia.
From Stdlib Require Import Strings.String Strings.Ascii Strings.Byte.
From Stdlib Require Import Floats.SpecFloat.
From Stdlib Require QArith.QArith_base QArith.Qround.
Import ListNotations.
Open Scope Z_scope.

Set Implicit Arguments.

(* ================================================================== *)
(** ** JavaScript strings *)

(** A JavaScript string is a sequence of UTF-16 code units. *)
Definition jsstring := list Z.

(** ASCII literals of the source, written as Rocq strings. *)
Fixpoint str (s : string) : jsstring :=
  match s with
  | EmptyString => []
  | String a s' => Z.of_N (N_of_ascii a) :: str s'
  end.

Fixpoint jsstring_eqb (a b : jsstring) : bool :=
  match a, b with
  | [], [] => true
  | x :: a', y :: b' => (x =? y) && jsstring_eqb a' b'
  | _, _ => false
  end.

(* ================================================================== *)
(** ** JavaScript numbers

    Every number this worker stores in a variable or posts in a message is
    an integer-valued double, an infinity or NaN: page counters come from
    [Number] applied to digit strings and from [end - start + 1], percents
    from [Math.floor].  They are carried as [number]; the one fractional
    intermediate value, [currentPage / totalPages * 100], is computed on
    binary64 floats ([spec_float] with precision 53 and [emax] 1024). *)

Module JsNum.

Inductive number :=
| NaN
| Infinity (neg : bool)
| Int (z : Z).

Definition prec : Z := 53.
Definition emax : Z := 1024.

(** Round an exact integer result to the nearest double, ties to even;
    magnitudes from [2^1024 - 2^970] on overflow to an infinity.  Integers
    of at most 53 bits are doubles already.  [round64_binary64] below shows
    that this is the rounding of [binary_normalize]. *)
Definition round64 (z : Z) : number :=
  let a := Z.abs z in
  let sh := Z.log2 a + 1 - prec in
  if sh <=? 0 then Int z
  else
    let q := Z.shiftr a sh in
    let r := a - Z.shiftl q sh in
    let half := Z.shiftl 1 (sh - 1) in
    let q' := if (half <? r) || ((r =? half) && Z.odd q) then q + 1 else q in
    let v := Z.shiftl q' sh in
    if Z.shiftl 1 emax <=? v then Infinity (z <? 0) else Int (Z.sgn z * v).

(** [Number.isFinite] *)
Definition isFinite (x : number) : bool :=
  match x with Int _ => true | _ => false end.

(** [a + b] and [a - b]: the exact result, rounded. *)
Definition add (a b : number) : number :=
  match a, b with
  | NaN, _ | _, NaN => NaN
  | Infinity s, Infinity s' => if Bool.eqb s s' then Infinity s else NaN
  | Infinity s, Int _ | Int _, Infinity s => Infinity s
  | Int x, Int y => round64 (x + y)
  end.

Definition opp (a : number) : number :=
  match a with
  | NaN => NaN
  | Infinity s => Infinity (negb s)
  | Int z => Int (- z)
  end.

Definition sub (a b : number) : number := add a (opp b).

(** [x] or [-x]. *)
Definition signed (s : bool) (x : number) : number := if s then opp x else x.

(** Everything but NaN. *)
Definition is_number (x : number) : bool :=
  match x with NaN => false | _ => true end.

(** The relational operators; every comparison with NaN is false. *)
Definition ltb (a b : number) : bool :=
  match a, b with
  | NaN, _ | _, NaN => false
  | Infinity s, Infinity s' => s && negb s'
  | Infinity s, Int _ => s
  | Int _, Infinity s => negb s
  | Int x, Int y => x <? y
  end.

Definition gtb (a b : number) : bool := ltb b a.

Definition eqb (a b : number) : bool :=
  match a, b with
  | Infinity s, Infinity s' => Bool.eqb s s'
  | Int x, Int y => x =? y
  | _, _ => false
  end.

Definition geb (a b : number) : bool := gtb a b || eqb a b.

(** Truthiness of a number: everything but [0] and [NaN]. *)
Definition truthy (x : number) : bool :=
  match x with
  | NaN => false
  | Infinity _ => true
  | Int z => negb (z =? 0)
  end.

(** [Math.max] and [Math.min] *)
Definition max (a b : number) : number :=
  match a, b with
  | NaN, _ | _, NaN => NaN
  | Infinity false, _ | _, Infinity false => Infinity false
  | Infinity true, y => y
  | x, Infinity true => x
  | Int x, Int y => Int (Z.max x y)
  end.

Definition min (a b : number) : number :=
  match a, b with
  | NaN, _ | _, NaN => NaN
  | Infinity true, _ | _, Infinity true => Infinity true
  | Infinity false, y => y
  | x, Infinity false => x
  | Int x, Int y => Int (Z.min x y)
  end.

(** The double denoted by a [number]. *)
Definition to_float (x : number) : spec_float :=
  match x with
  | NaN => S754_nan
  | Infinity s => S754_infinity s
  | Int z => binary_normalize prec emax z 0 false
  end.

(** [Math.floor] of a double; a finite double [(-1)^s * m * 2^e] is floored
    by an arithmetic shift. *)
Definition floor (f : spec_float) : number :=
  match f with
  | S754_nan => NaN
  | S754_infinity s => Infinity s
  | S754_zero _ => Int 0
  | S754_finite s m e => Int (Z.shiftl (cond_Zopp s (Zpos m)) e)
  end.

(** [Math.floor((a / b) * c)], evaluated left to right in binary64. *)
Definition floor_div_mul (a b c : number) : number :=
  floor (SFmul prec emax (SFdiv prec emax (to_float a) (to_float b)) (to_float c)).

(** The value of a string of decimal digits. *)
Definition digit_val (c : Z) : Z := c - 48.

Definition decimal (ds : jsstring) : Z :=
  fold_left (fun acc c => 10 * acc + digit_val c) ds 0.

(** [Number(s)] for a non-empty string of decimal digits, the only
    argument the worker passes: the nearest double. *)
Definition Number (ds : jsstring) : number := round64 (decimal ds).

End JsNum.

Import JsNum.

(* ================================================================== *)
(** ** Regular expressions

    The three patterns of the worker use literal characters, the classes
    [\s] and [\d], greedy repetition of a class, capture groups and the
    anchors [^] and [$] (no [m] flag: start and end of the whole string).
    [exec] is the backtracking matcher of ECMA-262 restricted to these
    forms: a repetition first takes as many characters as it can and gives
    them back one at a time when the rest of the pattern fails. *)

Module Regex.

(** Which capture group a consumed character belongs to ([G0]: none). *)
Inductive group := G0 | G1 | G2.

Inductive atom :=
| Chr (c : Z) (g : group)                      (* a literal character *)
| Cls (cls : Z -> bool) (g : group)            (* one character of a class *)
| Rep (cls : Z -> bool) (lo : nat) (g : group) (* a class, [lo] times or more *)
| Eos.                                         (* [$] *)

Record regex := {
  anchored : bool;      (* the pattern starts with [^] *)
  ignoreCase : bool;    (* the [i] flag *)
  atoms : list atom
}.

(** [\d] *)
Definition digit (c : Z) : bool := (48 <=? c) && (c <=? 57).

(** [\s]: WhiteSpace and LineTerminator of ECMA-262. *)
Definition space (c : Z) : bool :=
  ((9 <=? c) && (c <=? 13)) || (c =? 32) || (c =? 160) || (c =? 5760)
  || ((8192 <=? c) && (c <=? 8202)) || (c =? 8232) || (c =? 8233)
  || (c =? 8239) || (c =? 8287) || (c =? 12288) || (c =? 65279).

(** Canonicalize of ECMA-262 without the [u] flag, on ASCII: lower-case
    letters fold to upper case.  A code unit from 128 on never folds to an
    ASCII one, so against the ASCII patterns of this worker leaving it as it
    is gives the same matches. *)
Definition canon (c : Z) : Z :=
  if (97 <=? c) && (c <=? 122) then c - 32 else c.

Definition same (ci : bool) (c x : Z) : bool :=
  if ci then canon c =? canon x else c =? x.

Definition captures := (jsstring * jsstring)%type.

Definition push (g : group) (x : Z) (k : captures) : captures :=
  match g with
  | G0 => k
  | G1 => (fst k ++ [x], snd k)
  | G2 => (fst k, snd k ++ [x])
  end.

(** Match the atoms at the head of [s]. *)
Fixpoint exec (ci : bool) (p : list atom) : jsstring -> captures -> option captures :=
  match p with
  | [] => fun _ k => Some k
  | a :: p' =>
    let next := exec ci p' in
    match a with
    | Chr c g => fun s k =>
        match s with
        | x :: s' => if same ci c x then next s' (push g x k) else None
        | [] => None
        end
    | Cls cls g => fun s k =>
        match s with
        | x :: s' => if cls x then next s' (push g x k) else None
        | [] => None
        end
    | Rep cls lo g =>
        (fix rep (n : nat) (s : jsstring) (k : captures) {struct s} : option captures :=
           let stop := if (lo <=? n)%nat then next s k else None in
           match s with
           | x :: s' =>
               if cls x then
                 match rep (S n) s' (push g x k) with
                 | Some r => Some r
                 | None => stop
                 end
               else stop
           | [] => stop
           end) 0%nat
    | Eos => fun s k => match s with [] => next s k | _ :: _ => None end
    end
  end.

(** The leftmost match: try every start index in turn. *)
Fixpoint search (ci : bool) (p : list atom) (s : jsstring) : option captures :=
  match exec ci p s ([], []) with
  | Some k => Some k
  | None => match s with [] => None | _ :: s' => search ci p s' end
  end.

(** [s.match(r)] for a pattern without the [g] flag: the capture groups of
    the leftmost match, or [None] for [null]. *)
Definition regex_match (r : regex) (s : jsstring) : option captures :=
  if anchored r then exec (ignoreCase r) (atoms r) s ([], [])
  else search (ignoreCase r) (atoms r) s.

Definition lit (s : string) : list atom := map (fun c => Chr c G0) (str s).

(** [/%PDF-(\d\.\d)/] *)
Definition re_version : regex :=
  {| anchored := false; ignoreCase := false;
     atoms := lit "%PDF-" ++ [Cls digit G1; Chr 46 G1; Cls digit G1] |}.

(** [/Processing pages\s+(\d+)\s+through\s+(\d+)\./i] *)
Definition re_total : regex :=
  {| anchored := false; ignoreCase := true;
     atoms := lit "Processing pages"
              ++ [Rep space 1 G0; Rep digit 1 G1; Rep space 1 G0]
              ++ lit "through"
              ++ [Rep space 1 G0; Rep digit 1 G2; Chr 46 G0] |}.

(** [/^\s*Page\s+(\d+)\s*$/i] *)
Definition re_page : regex :=
  {| anchored := true; ignoreCase := true;
     atoms := [Rep space 0 G0] ++ lit "Page"
              ++ [Rep space 1 G0; Rep digit 1 G1; Rep space 0 G0; Eos] |}.

End Regex.

Import Regex.

(* ================================================================== *)
(** ** Byte buffers and [TextDecoder] *)

(** The contents of a [Uint8Array] or [ArrayBuffer]. *)
Definition bytes := list byte.

Definition byte_val (b : byte) : Z := Z.of_N (Byte.to_N b).

(** The upper half of windows-1252 below [0xA0], index [b - 0x80]. *)
Definition windows1252_high : list Z :=
  [ 8364; 129; 8218; 402; 8222; 8230; 8224; 8225;
    710; 8240; 352; 8249; 338; 141; 381; 143;
    144; 8216; 8217; 8220; 8221; 8226; 8211; 8212;
    732; 8482; 353; 8250; 339; 157; 382; 376 ].

(** [new TextDecoder("ascii", { fatal: false })]: the label [ascii] selects
    windows-1252, a single-byte encoding that cannot fail. *)
Definition decode_byte (b : byte) : Z :=
  let n := byte_val b in
  if n <? 128 then n
  else if 160 <=? n then n
  else nth (Z.to_nat (n - 128)) windows1252_high n.

Definition TextDecoder_ascii_decode (bs : bytes) : jsstring := map decode_byte bs.

(** [bytes.subarray(0, Math.min(1024, bytes.length))] *)
Definition subarray_head (bs : bytes) : bytes := firstn 1024 bs.

(** [detectPdfVersion] *)
Definition detectPdfVersion (bs : bytes) : option jsstring :=
  let head := subarray_head bs in
  let text := TextDecoder_ascii_decode head in
  match regex_match re_version text with
  | Some m => Some (fst m)
  | None => None
  end.

(* ================================================================== *)
(** ** Messages posted to the caller (types.ts and the wire contract) *)

Inductive Message :=
| MsgStatus (jobId stage message : jsstring)
| MsgProgress (jobId : jsstring) (percent current : number) (total : option number)
| MsgResult (jobId : jsstring) (outBuffer : bytes) (usedOriginal : bool)
            (pdfVersionUsed : jsstring)
| MsgError (jobId error : jsstring).

(* ================================================================== *)
(** ** Module state and the worker monad *)

(** The three module-scoped variables: progress state of the job that is
    currently running. *)
Record Globals := mkGlobals {
  activeJobId : option jsstring;   (* [None] is [null] *)
  totalPages : option number;      (* [None] is [null] *)
  currentPage : number
}.

(** Their initial values, lines 30 to 32. *)
Definition initial_globals : Globals :=
  {| activeJobId := None; totalPages := None; currentPage := Int 0 |}.

(** Code of the worker reads and writes the globals and posts messages. *)
Definition Worker (A : Type) : Type := Globals -> A * Globals * list Message.

Definition ret {A} (a : A) : Worker A := fun g => (a, g, []).

Definition bind {A B} (c : Worker A) (k : A -> Worker B) : Worker B :=
  fun g =>
    let '(a, g1, out1) := c g in
    let '(b, g2, out2) := k a g1 in
    (b, g2, out1 ++ out2).

Declare Scope worker_scope.
Delimit Scope worker_scope with worker.
Notation "x <- c ;; k" := (bind c (fun x => k))
  (at level 61, c at next level, right associativity) : worker_scope.
Notation "c ;; k" := (bind c (fun _ => k))
  (at level 61, right associativity) : worker_scope.
Open Scope worker_scope.

Definition getGlobals : Worker Globals := fun g => (g, g, []).
Definition postMessage (m : Message) : Worker unit := fun g => (tt, g, [m]).

Definition set_activeJobId (v : option jsstring) : Worker unit :=
  fun g => (tt, {| activeJobId := v; totalPages := totalPages g;
                   currentPage := currentPage g |}, []).
Definition set_totalPages (v : option number) : Worker unit :=
  fun g => (tt, {| activeJobId := activeJobId g; totalPages := v;
                   currentPage := currentPage g |}, []).
Definition set_currentPage (v : number) : Worker unit :=
  fun g => (tt, {| activeJobId := activeJobId g; totalPages := totalPages g;
                   currentPage := v |}, []).

(** Run a computation on each element in turn. *)
Fixpoint forEach {A} (f : A -> Worker unit) (l : list A) : Worker unit :=
  match l with
  | [] => ret tt
  | x :: l' => f x ;; forEach f l'
  end.

Definition run_globals {A} (c : Worker A) (g : Globals) : Globals := snd (fst (c g)).
Definition run_posted {A} (c : Worker A) (g : Globals) : list Message := snd (c g).
Definition run_value {A} (c : Worker A) (g : Globals) : A := fst (fst (c g)).

(* ================================================================== *)
(** ** Helpers of the worker *)

Definition postStatus (jobId stage message : jsstring) : Worker unit :=
  postMessage (MsgStatus jobId stage message).

Definition postProgress (jobId : jsstring) (percent current : number)
    (total : option number) : Worker unit :=
  postMessage (MsgProgress jobId percent current total).

(** The [percent] computed by [emitProgress]: [0] unless
    [totalPages && totalPages > 0]. *)
Definition progress_percent (current : number) (total : option number) : number :=
  match total with
  | None => Int 0
  | Some n =>
      if truthy n && gtb n (Int 0) then
        let raw := floor_div_mul current n (Int 100) in
        JsNum.min (Int 99) (JsNum.max (Int 0) raw)
      else Int 0
  end.

(** [emitProgress] *)
Definition emitProgress (jobId : jsstring) : Worker unit :=
  g <- getGlobals ;;
  let percent := progress_percent (currentPage g) (totalPages g) in
  postProgress jobId percent (currentPage g) (totalPages g).

(** [totalPages == null] *)
Definition is_null {A} (v : option A) : bool :=
  match v with None => true | Some _ => false end.

(** [parseGsLine]; [!activeJobId] holds for [null] and for the empty
    string. *)
Definition parseGsLine (line : jsstring) : Worker unit :=
  g <- getGlobals ;;
  match activeJobId g with
  | None => ret tt
  | Some [] => ret tt
  | Some jobId =>
      match regex_match re_total line with
      | Some mTotal =>
          let start := Number (fst mTotal) in
          let end_ := Number (snd mTotal) in
          if isFinite start && isFinite end_ && geb end_ start then
            set_totalPages (Some (add (sub end_ start) (Int 1))) ;;
            emitProgress jobId
          else ret tt
      | None =>
          match regex_match re_page line with
          | Some mPage =>
              let p := Number (fst mPage) in
              if isFinite p && gtb p (currentPage g) then
                set_currentPage p ;;
                (if is_null (totalPages g) && JsNum.eqb p (Int 1)
                 then set_totalPages (Some (Int 1)) else ret tt) ;;
                emitProgress jobId
              else ret tt
          | None => ret tt
          end
      end
  end.

(* ================================================================== *)
(** ** The engine and its virtual filesystem

    The compiled Ghostscript module is opaque: of an instance the worker
    sees the files it holds, what [callMain] prints and whether it throws. *)

(** A thrown value, as the message the [catch] handler of the queue takes
    from it. *)
Definition JsError := jsstring.

Inductive Outcome (A : Type) :=
| Ok (a : A)
| Throw (e : JsError).
Arguments Ok {A} a.
Arguments Throw {A} e.

Definition FS := jsstring -> option bytes.

Definition ENOENT : JsError := str "ENOENT".

Definition FS_writeFile (path : jsstring) (data : bytes) (fs : FS) : FS :=
  fun p => if jsstring_eqb p path then Some data else fs p.

Definition FS_readFile (path : jsstring) (fs : FS) : Outcome bytes :=
  match fs path with
  | Some data => Ok data
  | None => Throw ENOENT
  end.

Definition FS_unlink (path : jsstring) (fs : FS) : Outcome FS :=
  match fs path with
  | Some _ => Ok (fun p => if jsstring_eqb p path then None else fs p)
  | None => Throw ENOENT
  end.

(** [try { gs.FS.unlink(path); } catch {}] *)
Definition try_unlink (path : jsstring) (fs : FS) : FS :=
  match FS_unlink path fs with
  | Ok fs' => fs'
  | Throw _ => fs
  end.

(** A fresh instance: the files it starts with, and [callMain], which from
    the arguments and the files gives the lines printed (to [print] and
    [printErr] alike, in order) and then the files left behind, or
    throws. *)
Record GSModule := {
  FS_initial : FS;
  callMain : list jsstring -> FS -> list jsstring * Outcome FS
}.

(* ================================================================== *)
(** ** Options (types.ts) *)

Inductive PdfSettings := screen | ebook | printer | prepress.

Definition PdfSettings_name (p : PdfSettings) : jsstring :=
  match p with
  | screen => str "screen"
  | ebook => str "ebook"
  | printer => str "printer"
  | prepress => str "prepress"
  end.

(** Every field is optional; the two numeric fields are arbitrary
    doubles. *)
Record ShrinkOptions := {
  grayscale : option bool;
  resolutionDpi : option spec_float;
  threshold : option spec_float;
  pdfSettings : option PdfSettings
}.

(** [v ?? d] *)
Definition nullish {A} (v : option A) (d : A) : A :=
  match v with Some a => a | None => d end.

Definition float_isFinite (f : spec_float) : bool :=
  match f with
  | S754_zero _ | S754_finite _ _ _ => true
  | _ => false
  end.

Definition not_nan (f : spec_float) : bool :=
  match f with S754_nan => false | _ => true end.

Definition nonzero_float (f : spec_float) : bool :=
  match f with S754_finite _ _ _ | S754_infinity _ => true | _ => false end.

(** [Math.max(lo, x)] for a positive constant [lo] and [x] finite. *)
Definition float_max (lo x : spec_float) : spec_float :=
  if SFltb lo x then x else lo.

(** [Number.isFinite(v) ? Math.max(lo, v!) : dflt] *)
Definition finite_or (v : option spec_float) (lo dflt : spec_float) : spec_float :=
  match v with
  | Some x => if float_isFinite x then float_max lo x else dflt
  | None => dflt
  end.

Definition float_1 : spec_float := to_float (Int 1).
Definition float_72 : spec_float := to_float (Int 72).
(** The literals [0.1] and [1.5]: the doubles nearest to 1/10 and 3/2. *)
Definition float_0_1 : spec_float := SFdiv prec emax (to_float (Int 1)) (to_float (Int 10)).
Definition float_1_5 : spec_float := SFdiv prec emax (to_float (Int 3)) (to_float (Int 2)).

(* ================================================================== *)
(** ** The job runner and the queue *)

Section Worker.

(** Number::toString of ECMA-262, which the template literals of the
    argument list apply to [res] and [threshold]. *)
Variable number_toString : spec_float -> jsstring.

Definition inPath : jsstring := str "/in.pdf".
Definition outPath : jsstring := str "/out.pdf".

(** The three arguments pushed when [grayscale] is set. *)
Definition grayscale_args : list jsstring :=
  [ str "-sProcessColorModel=DeviceGray";
    str "-sColorConversionStrategy=Gray";
    str "-dOverrideICC" ].

(** The array [args] of [shrinkPdfLikeScript] as [callMain] receives it:
    the literal of lines 118 to 144, the push of lines 146 to 152 and the
    push of line 154. *)
Definition shrink_args (options : ShrinkOptions) (pdfVersion : jsstring)
  : list jsstring :=
  let grayscale := nullish (grayscale options) false in
  let res := finite_or (resolutionDpi options) float_1 float_72 in
  let threshold := finite_or (threshold options) float_0_1 float_1_5 in
  let pdfSettings := nullish (pdfSettings options) ebook in
  let args :=
    [ str "-dNOPAUSE";
      str "-dBATCH";
      str "-dSAFER";
      str "-sDEVICE=pdfwrite";
      str "-dCompatibilityLevel=" ++ pdfVersion;
      str "-dPDFSETTINGS=/" ++ PdfSettings_name pdfSettings;
      str "-dEmbedAllFonts=true";
      str "-dSubsetFonts=true";
      str "-dAutoRotatePages=/None";
      str "-dColorImageDownsampleType=/Bicubic";
      str "-dColorImageResolution=" ++ number_toString res;
      str "-dColorImageDownsampleThreshold=" ++ number_toString threshold;
      str "-dGrayImageDownsampleType=/Bicubic";
      str "-dGrayImageResolution=" ++ number_toString res;
      str "-dGrayImageDownsampleThreshold=" ++ number_toString threshold;
      str "-dMonoImageDownsampleType=/Subsample";
      str "-dMonoImageResolution=" ++ number_toString res;
      str "-dMonoImageDownsampleThreshold=" ++ number_toString threshold;
      str "-dPreserveAnnots=false";
      str "-sOutputFile=" ++ outPath ] in
  let args := if grayscale then args ++ grayscale_args else args in
  args ++ [inPath].

(** [detectPdfVersion(inputPdf) ?? "1.5"] *)
Definition resolved_version (inputPdf : bytes) : jsstring :=
  nullish (detectPdfVersion inputPdf) (str "1.5").

Record ShrinkResult := {
  out : bytes;
  usedOriginal : bool;
  pdfVersionUsed : jsstring
}.

(** [shrinkPdfLikeScript].  It has no [await]: it runs to its end when
    called, and what it throws rejects the promise it returns.  The lines
    [callMain] prints reach [parseGsLine] while it runs. *)
Definition shrinkPdfLikeScript (gs : GSModule) (inputPdf : bytes)
    (options : ShrinkOptions) : Worker (Outcome ShrinkResult) :=
  let fs := try_unlink inPath (FS_initial gs) in
  let fs := try_unlink outPath fs in
  let fs := FS_writeFile inPath inputPdf fs in
  let pdfVersion := resolved_version inputPdf in
  let args := shrink_args options pdfVersion in
  let '(printed, ran) := callMain gs args fs in
  forEach parseGsLine printed ;;
  match ran with
  | Throw e => ret (Throw e)
  | Ok fs' =>
      match FS_readFile outPath fs' with
      | Throw e => ret (Throw e)
      | Ok out =>
          if (List.length inputPdf <? List.length out)%nat then
            ret (Ok {| out := inputPdf; usedOriginal := true;
                       pdfVersionUsed := pdfVersion |})
          else
            ret (Ok {| out := out; usedOriginal := false;
                       pdfVersionUsed := pdfVersion |})
      end
  end.

(** The files [callMain] finds: stale ones removed, the input written. *)
Definition prepared_files (gs : GSModule) (inputPdf : bytes) : FS :=
  FS_writeFile inPath inputPdf (try_unlink outPath (try_unlink inPath (FS_initial gs))).

(** What the engine prints for a job and what is then read back from
    [outPath], or what [callMain] or [readFile] threw. *)
Definition engine_output (gs : GSModule) (inputPdf : bytes)
    (options : ShrinkOptions) : list jsstring * Outcome bytes :=
  let '(printed, ran) :=
    callMain gs (shrink_args options (resolved_version inputPdf))
      (prepared_files gs inputPdf) in
  (printed,
   match ran with
   | Throw e => Throw e
   | Ok fs' => FS_readFile outPath fs'
   end).

(** The [compress] request. *)
Record CompressMsg := {
  jobId : jsstring;
  pdfBuffer : bytes;
  options : ShrinkOptions
}.

(** [try { body } finally { fin }]: [fin] runs whether [body] returned or
    threw, and the outcome of [body] stands. *)
Definition try_finally {A} (body : Worker (Outcome A)) (fin : Worker unit)
  : Worker (Outcome A) :=
  r <- body ;; fin ;; ret r.

(** U+2026, the ellipsis that ends two of the status messages. *)
Definition ellipsis : jsstring := [8230].

(** [handleJob] up to [await createFreshGS()]. *)
Definition handleJob_begin (msg : CompressMsg) : Worker unit :=
  postStatus (jobId msg) (str "loading") (str "Loading Ghostscript WASM" ++ ellipsis).

(** [handleJob] from the point where [createFreshGS()] has settled, with
    the module or with what it threw.  Between [await shrinkPdfLikeScript]
    and the code after it only promise reactions run, and the only ones
    pending are of this job. *)
Definition handleJob_resume (msg : CompressMsg) (created : Outcome GSModule)
  : Worker (Outcome unit) :=
  match created with
  | Throw e => ret (Throw e)
  | Ok gs =>
      postStatus (jobId msg) (str "ready") (str "Ghostscript ready.") ;;
      set_activeJobId (Some (jobId msg)) ;;
      set_totalPages None ;;
      set_currentPage (Int 0) ;;
      emitProgress (jobId msg) ;;
      postStatus (jobId msg) (str "running") (str "Compressing" ++ ellipsis) ;;
      try_finally
        (r <- shrinkPdfLikeScript gs (pdfBuffer msg) (options msg) ;;
         match r with
         | Throw e => ret (Throw e)
         | Ok res =>
             g <- getGlobals ;;
             postProgress (jobId msg) (Int 100)
               (nullish (totalPages g) (currentPage g)) (totalPages g) ;;
             postStatus (jobId msg) (str "done")
               (if usedOriginal res then str "Output larger; returned original."
                else str "Done.") ;;
             postMessage (MsgResult (jobId msg) (out res) (usedOriginal res)
                            (pdfVersionUsed res)) ;;
             ret (Ok tt)
         end)
        (set_activeJobId None ;;
         set_totalPages None ;;
         set_currentPage (Int 0))
  end.

(** [handleJob] as a whole, the engine settling as [created]. *)
Definition handleJob (msg : CompressMsg) (created : Outcome GSModule)
  : Worker (Outcome unit) :=
  handleJob_begin msg ;; handleJob_resume msg created.

(** The handler passed to [.catch] at line 208. *)
Definition catch_handler (msg : CompressMsg) (r : Outcome unit) : Worker unit :=
  match r with
  | Ok _ => ret tt
  | Throw message => postMessage (MsgError (jobId msg) message)
  end.

(** One link of the chain from the moment its engine has settled:
    the rest of [handleJob], then [.catch]. *)
Definition settle_link (msg : CompressMsg) (created : Outcome GSModule)
  : Worker unit :=
  r <- handleJob_resume msg created ;; catch_handler msg r.

(** A whole job on its own: [handleJob(msg)] followed by [.catch]. *)
Definition run_job (msg : CompressMsg) (created : Outcome GSModule)
  : Worker unit :=
  handleJob_begin msg ;; settle_link msg created.

(** *** The promise chain of [self.onmessage]

    [queue] is a chain of promises, one link per [compress] request:
    [queue = queue.then(() => handleJob(msg)).catch(...)].  The callback
    of a link runs once the link before it is fulfilled; a link is
    fulfilled when [handleJob] has fulfilled, or when it has rejected and
    the [.catch] handler has run.  Between two steps below other tasks of
    the event loop may run; a step is one task with its promise
    reactions. *)

Inductive Request :=
| Compress (msg : CompressMsg)
| OtherRequest.                    (* [msg.type !== "compress"] *)

Inductive LinkState :=
| Queued      (* [.then] callback not called yet *)
| Loading     (* [handleJob] waits for [createFreshGS()] *)
| Settled.    (* the promise of the link is fulfilled *)

Record Link := {
  link_msg : CompressMsg;
  link_state : LinkState
}.

Record Runtime := {
  globals : Globals;
  queue : list Link;          (* in order of submission *)
  posted : list Message       (* everything posted so far, oldest first *)
}.

(** [let queue = Promise.resolve()] and the initial globals. *)
Definition initial_runtime : Runtime :=
  {| globals := initial_globals; queue := []; posted := [] |}.

(** Run worker code in a runtime, leaving the chain as [q]. *)
Definition exec_worker (c : Worker unit) (q : list Link) (rt : Runtime) : Runtime :=
  {| globals := run_globals c (globals rt);
     queue := q;
     posted := posted rt ++ run_posted c (globals rt) |}.

(** [self.onmessage]: a [compress] request adds a link at the tail. *)
Definition onmessage (req : Request) (rt : Runtime) : Runtime :=
  match req with
  | OtherRequest => rt
  | Compress msg =>
      {| globals := globals rt;
         queue := queue rt ++ [{| link_msg := msg; link_state := Queued |}];
         posted := posted rt |}
  end.

(** The state of the promise a new callback is chained to: that of the
    last link, and fulfilled for the initial [Promise.resolve()]. *)
Fixpoint last_state (pre : list Link) : LinkState :=
  match pre with
  | [] => Settled
  | [l] => link_state l
  | _ :: pre' => last_state pre'
  end.

Definition mkLink (msg : CompressMsg) (s : LinkState) : Link :=
  {| link_msg := msg; link_state := s |}.

Inductive step : Runtime -> Runtime -> Prop :=
| step_message : forall req rt,
    step rt (onmessage req rt)
| step_start : forall pre msg post rt,
    queue rt = pre ++ mkLink msg Queued :: post ->
    last_state pre = Settled ->
    step rt (exec_worker (handleJob_begin msg)
               (pre ++ mkLink msg Loading :: post) rt)
| step_print : forall line pre msg post rt,
    (* the engine being instantiated prints a line *)
    queue rt = pre ++ mkLink msg Loading :: post ->
    step rt (exec_worker (parseGsLine line) (queue rt) rt)
| step_settle : forall created pre msg post rt,
    queue rt = pre ++ mkLink msg Loading :: post ->
    step rt (exec_worker (settle_link msg created)
               (pre ++ mkLink msg Settled :: post) rt).

Inductive steps : Runtime -> Runtime -> Prop :=
| steps_refl : forall rt, steps rt rt
| steps_step : forall rt1 rt2 rt3, steps rt1 rt2 -> step rt2 rt3 -> steps rt1 rt3.

Definition reachable (rt : Runtime) : Prop := steps initial_runtime rt.

(** Let every job that has not settled run, in order, the engine of the
    [i]-th link settling as [created i]. *)
Definition finish_link (created : Outcome GSModule) (l : Link) : Worker unit :=
  match link_state l with
  | Settled => ret tt
  | Loading => settle_link (link_msg l) created
  | Queued => run_job (link_msg l) created
  end.

Fixpoint drain_links (created : nat -> Outcome GSModule) (i : nat)
    (todo : list Link) : Worker unit :=
  match todo with
  | [] => ret tt
  | l :: todo' =>
      finish_link (created i) l ;; drain_links created (S i) todo'
  end.

Definition settled_link (l : Link) : Link := mkLink (link_msg l) Settled.

Definition drain (created : nat -> Outcome GSModule) (rt : Runtime) : Runtime :=
  exec_worker (drain_links created 0 (queue rt)) (map settled_link (queue rt)) rt.

(** *** Observations on the posted messages *)

(** The job a terminal message ([result] or [error]) belongs to. *)
Definition terminal_of (m : Message) : option jsstring :=
  match m with
  | MsgResult j _ _ _ => Some j
  | MsgError j _ => Some j
  | _ => None
  end.

Fixpoint terminals (ms : list Message) : list jsstring :=
  match ms with
  | [] => []
  | m :: ms' =>
      match terminal_of m with
      | Some j => j :: terminals ms'
      | None => terminals ms'
      end
  end.





Definition is_settled (l : Link) : bool :=
  match link_state l with Settled => true | _ => false end.

Definition is_loading (l : Link) : bool :=
  match link_state l with Loading => true | _ => false end.

Definition is_queued (l : Link) : bool :=
  match link_state l with Queued => true | _ => false end.

(** The jobs that have settled, in order of submission. *)
Definition settled_jobs (q : list Link) : list jsstring :=
  map (fun l => jobId (link_msg l)) (filter is_settled q).


Definition job_ids (q : list Link) : list jsstring :=
  map (fun l => jobId (link_msg l)) q.


Definition is_terminal (m : Message) : bool :=
  match terminal_of m with Some _ => true | None => false end.

Definition is_progress (m : Message) : bool :=
  match m with MsgProgress _ _ _ _ => true | _ => false end.

(** The terminal messages themselves, oldest first. *)
Definition terminal_messages (ms : list Message) : list Message :=
  filter is_terminal ms.



(** *** Shape of the chain *)

Definition all_queued (q : list Link) : bool := forallb is_queued q.

(** Settled links, then at most one link that is not settled and is
    followed by queued links only. *)
Fixpoint well_formed (q : list Link) : bool :=
  match q with
  | [] => true
  | l :: q' => if is_settled l then well_formed q' else all_queued q'
  end.

(** What holds between any two tasks of the worker. *)
Record invariant (rt : Runtime) : Prop := {
  inv_shape : well_formed (queue rt) = true;
  inv_globals : globals rt = initial_globals;
  inv_terminals : terminals (posted rt) = settled_jobs (queue rt)
}.

End Worker.

(* ================================================================== *)
(** ** The caller's side: [compressWithGS] (gs-client.ts)

    One call of [compressWithGS] registers a [message] and an [error]
    listener with the shared worker object, posts the request and returns
    a promise.  The worker object hands every event to the listeners that
    are registered at that moment, those of other calls included. *)

(** The [jobId] field, which every message of the worker has. *)
Definition message_jobId (m : Message) : jsstring :=
  match m with
  | MsgStatus j _ _ => j
  | MsgProgress j _ _ _ => j
  | MsgResult j _ _ _ => j
  | MsgError j _ => j
  end.

Module Client.

(** [GSProgress] of types.ts *)
Record GSProgress := {
  percent : number;
  current : number;
  total : option number
}.

(** The state of the promise [compressWithGS] returns. *)
Inductive Settlement :=
| Pending
| Resolved (outBuffer : bytes) (usedOriginal : bool) (pdfVersionUsed : jsstring)
| Rejected (reason : JsError).

(** A call of one of the two optional callbacks. *)
Inductive Callback :=
| OnStatus (stage message : jsstring)
| OnProgress (p : GSProgress).

(** Which of [onStatus] and [onProgress] the caller passed. *)
Record Handlers := {
  onStatus : bool;
  onProgress : bool
}.

(** One call of [compressWithGS]: whether its two listeners are still
    registered, its promise, and the callbacks it has called, oldest
    first.  The callbacks are taken to return. *)
Record Call := {
  listening : bool;
  promise : Settlement;
  calls : list Callback
}.

(** What the worker object dispatches: a message of the worker, or an
    error event, of which [onError] keeps [err.error ?? new
    Error(err.message)]. *)
Inductive WorkerEvent :=
| MessageEvent (data : Message)
| ErrorEvent (reason : JsError).

(** [cleanup] *)
Definition cleanup (c : Call) : Call :=
  {| listening := false; promise := promise c; calls := calls c |}.

(** [resolve] and [reject]: a promise is settled once. *)
Definition settle (s : Settlement) (c : Call) : Call :=
  {| listening := listening c;
     promise := match promise c with Pending => s | p => p end;
     calls := calls c |}.

(** [cb?.(...)] *)
Definition notify (given : bool) (cb : Callback) (c : Call) : Call :=
  if given then
    {| listening := listening c; promise := promise c; calls := calls c ++ [cb] |}
  else c.

(** [onMessage].  On the messages this worker posts the conversions
    [Number(x ?? 0)], [!!x] and [String(x ?? "")] change nothing, and
    [data.error ?? "Worker error"] is [data.error]. *)
Definition onMessage (jobId : jsstring) (h : Handlers) (data : Message) (c : Call)
  : Call :=
  if negb (jsstring_eqb (message_jobId data) jobId) then c
  else
    match data with
    | MsgStatus _ stage message => notify (onStatus h) (OnStatus stage message) c
    | MsgProgress _ percent current total =>
        notify (onProgress h)
          (OnProgress {| percent := percent; current := current; total := total |}) c
    | MsgResult _ outBuffer usedOriginal pdfVersionUsed =>
        settle (Resolved outBuffer usedOriginal pdfVersionUsed) (cleanup c)
    | MsgError _ error => settle (Rejected error) (cleanup c)
    end.

(** [onError] *)
Definition onError (reason : JsError) (c : Call) : Call :=
  settle (Rejected reason) (cleanup c).

(** An event reaches the listeners of a call while they are registered. *)
Definition dispatch (jobId : jsstring) (h : Handlers) (ev : WorkerEvent) (c : Call)
  : Call :=
  if listening c then
    match ev with
    | MessageEvent data => onMessage jobId h data c
    | ErrorEvent reason => onError reason c
    end
  else c.

(** [compressWithGS], with [jobId] the identifier [crypto.randomUUID()]
    gave: the call with both listeners registered and its promise pending,
    and the request posted to the worker. *)
Definition compressWithGS (jobId : jsstring) (pdf : bytes) (options : ShrinkOptions)
  : Call * Request :=
  ({| listening := true; promise := Pending; calls := [] |},
   Compress (Build_CompressMsg jobId pdf options)).

(** The events of the worker, one after the other. *)
Definition deliver (jobId : jsstring) (h : Handlers) (evs : list WorkerEvent)
    (c : Call) : Call :=
  fold_left (fun c ev => dispatch jobId h ev c) evs c.

End Client.

(* ================================================================== *)
(** ** The page: helpers and callbacks of App.tsx *)

Module App.

Inductive CompressionLevel := low | medium | high.

(** A decimal literal [n/d] of the source: the double nearest to it. *)
Definition literal (n d : Z) : spec_float :=
  SFdiv prec emax (to_float (Int n)) (to_float (Int d)).

(** [optionsFromLevel]; its [default] case repeats [medium]. *)
Definition optionsFromLevel (level : CompressionLevel) : ShrinkOptions :=
  match level with
  | low =>
      {| grayscale := Some false; resolutionDpi := Some (to_float (Int 250));
         threshold := Some (literal 15 10); pdfSettings := Some printer |}
  | medium =>
      {| grayscale := Some false; resolutionDpi := Some (to_float (Int 150));
         threshold := Some (literal 13 10); pdfSettings := Some ebook |}
  | high =>
      {| grayscale := Some false; resolutionDpi := Some (to_float (Int 96));
         threshold := Some (literal 12 10); pdfSettings := Some screen |}
  end.

(** [clamp]: [Math.max(min, Math.min(max, n))] *)
Definition clamp (n lo hi : number) : number := JsNum.max lo (JsNum.min hi n).

(** [Math.round] on a [number], which is integer-valued, infinite or NaN:
    it leaves these as they are. *)
Definition Math_round (x : number) : number := x.

Section Page.

(** Number::toString, which the template literals apply to the page
    numbers. *)
Variable toString : number -> jsstring.

(** [formatProgressLine] *)
Definition formatProgressLine (p : option Client.GSProgress) : option jsstring :=
  match p with
  | None => None
  | Some p =>
      let current := JsNum.max (Int 0) (Client.current p) in
      match Client.total p with
      | None =>
          if gtb current (Int 0) then Some (str "Page " ++ toString current) else None
      | Some t =>
          let total := JsNum.max (Int 1) t in
          let shownCurrent := clamp current (Int 0) total in
          Some (str "Page " ++ toString shownCurrent ++ str " / " ++ toString total)
      end
  end.

End Page.

Inductive Status := pending | compressing | complete | error.

(** [FileState], without the fields that the two callbacks below copy and
    never read (the file, the sizes, the blob and its URL, the flags of
    the result). *)
Record FileState := {
  status : Status;
  progress : number;
  statusText : jsstring;
  gsProgress : option Client.GSProgress
}.

(** The updater that the status callback of [handleCompress] passes to
    [setFileState]; the text is [`${stage}${msg ? ": " + msg : ""}`]. *)
Definition status_updater (stage msg : jsstring) (prev : option FileState)
  : option FileState :=
  match prev with
  | None => None
  | Some prev =>
      Some {| status := status prev; progress := progress prev;
              statusText := stage ++ match msg with
                                     | [] => []
                                     | _ :: _ => str ": " ++ msg
                                     end;
              gsProgress := gsProgress prev |}
  end.

(** The updater of the progress callback; [prev.progress ?? 0] is
    [prev.progress], which is never null. *)
Definition progress_updater (p : Client.GSProgress) (prev : option FileState)
  : option FileState :=
  match prev with
  | None => None
  | Some prev =>
      match status prev with
      | compressing =>
          let nextPercent := clamp (Math_round (Client.percent p)) (Int 0) (Int 100) in
          let monotonic := JsNum.max (progress prev) nextPercent in
          Some {| status := status prev; progress := monotonic;
                  statusText := statusText prev; gsProgress := Some p |}
      | _ => Some prev
      end
  end.

(** The two callbacks that [handleCompress] passes to [compressWithGS]. *)
Definition on_callback (st : option FileState) (cb : Client.Callback)
  : option FileState :=
  match cb with
  | Client.OnStatus stage msg => status_updater stage msg st
  | Client.OnProgress p => progress_updater p st
  end.

(** React applies the updaters in the order of the calls. *)
Definition after_callbacks (cbs : list Client.Callback) (st : option FileState)
  : option FileState :=
  fold_left on_callback cbs st.

End App.

(* ================================================================== *)
(** ** Definitions that follow the specification *)

(** [clamp(x, lo, hi)] *)
Definition clamp (x lo hi : number) : number :=
  if ltb x lo then lo else if gtb x hi then hi else x.

Section ExactPercent.
Import QArith_base Qround.

(** The progress percentage as the specification gives it: [0] while
    [totalPages] is unknown, else
    [clamp(floor(currentPage / totalPages * 100), 0, 99)], the quotient and
    the product being those of the rational numbers. *)
Definition exact_percent (current : Z) (total : option Z) : number :=
  match total with
  | None => Int 0
  | Some t =>
      clamp (Int (Qfloor (inject_Z current / inject_Z t * inject_Z 100)%Q))
        (Int 0) (Int 99)
  end.

End ExactPercent.


(** The text [%PDF-d.d] stands at the head of [s], with [v] its [d.d]. *)
Definition version_here (s v : jsstring) : Prop :=
  exists d1 d2 rest,
    digit d1 = true /\ digit d2 = true /\
    v = [d1; 46; d2] /\ s = str "%PDF-" ++ v ++ rest.

(** [%PDF-d.d] occurs in [s]; [v] is the [d.d] of its leftmost
    occurrence. *)
Inductive version_in : jsstring -> jsstring -> Prop :=
| version_found : forall s v, version_here s v -> version_in s v
| version_later : forall c s v,
    (forall v', ~ version_here (c :: s) v') -> version_in s v ->
    version_in (c :: s) v.

(** [%PDF-d.d] occurs somewhere in [s]. *)
Definition version_occurs (s : jsstring) : Prop :=
  exists pre tail v, s = pre ++ tail /\ version_here tail v.

(** The last [n] elements of a list. *)
Definition lastn {A} (n : nat) (l : list A) : list A := skipn (List.length l - n) l.

(* ================================================================== *)
(** ** Definitions for the proofs *)

(** Feeding log lines to the progress parser, one call per line. *)
Definition feed (lines : list jsstring) : Worker unit := forEach parseGsLine lines.

(** The progress state [handleJob] sets up before the engine runs. *)
Definition job_start (jobId : jsstring) : Globals :=
  {| activeJobId := Some jobId; totalPages := None; currentPage := Int 0 |}.

(** A page count that passes the test [totalPages && totalPages > 0]. *)
Definition is_positive (t : number) : bool :=
  match t with
  | Int z => 1 <=? z
  | Infinity neg => negb neg
  | NaN => false
  end.

(** Progress states as the parser produces them: a page number that is a
    double from [0] on and, once known, a positive total. *)
Definition progress_ok (g : Globals) : Prop :=
  (exists c, currentPage g = Int c /\ 0 <= c /\ round64 c = Int c) /\
  match totalPages g with
  | None => True
  | Some t => is_positive t = true
  end.

(** The percent of [emitProgress] on the states of the parser, where the
    guard holds for every known total: the two nested [Math.min] and
    [Math.max] read as one clamp.  Quotient, product and floor are the
    worker's own. *)
Definition clamped_percent (current : number) (total : option number) : number :=
  match total with
  | None => Int 0
  | Some t => clamp (floor_div_mul current t (Int 100)) (Int 0) (Int 99)
  end.

(** A progress event of job [jobId] with that percent, an integer from 0
    to 99. *)
Definition clamped_progress (jobId : jsstring) (m : Message) : Prop :=
  exists c t p,
    m = MsgProgress jobId (clamped_percent (Int c) t) (Int c) t
    /\ clamped_percent (Int c) t = Int p /\ 0 <= p <= 99.

(** What one call of [parseGsLine] does: nothing, or the update of a
    [Processing pages] line, or the update of a [Page] line. *)
Inductive line_effect (line : jsstring) (g g' : Globals) : list Message -> Prop :=
| effect_none :
    g' = g -> line_effect line g g' []
| effect_total : forall jid m,
    activeJobId g = Some jid ->
    regex_match re_total line = Some m ->
    isFinite (Number (fst m)) && isFinite (Number (snd m))
      && geb (Number (snd m)) (Number (fst m)) = true ->
    activeJobId g' = Some jid ->
    currentPage g' = currentPage g ->
    totalPages g' = Some (add (sub (Number (snd m)) (Number (fst m))) (Int 1)) ->
    line_effect line g g'
      [MsgProgress jid (progress_percent (currentPage g') (totalPages g'))
         (currentPage g') (totalPages g')]
| effect_page : forall jid m,
    activeJobId g = Some jid ->
    regex_match re_total line = None ->
    regex_match re_page line = Some m ->
    isFinite (Number (fst m)) && gtb (Number (fst m)) (currentPage g) = true ->
    activeJobId g' = Some jid ->
    currentPage g' = Number (fst m) ->
    totalPages g' =
      (if is_null (totalPages g) && JsNum.eqb (Number (fst m)) (Int 1)
       then Some (Int 1) else totalPages g) ->
    line_effect line g g'
      [MsgProgress jid (progress_percent (currentPage g') (totalPages g'))
         (currentPage g') (totalPages g')].

(** *** The loop of a repetition

    [rep cls lo g next n] is the loop that [exec] runs for [Rep cls lo g]
    with [next] the matcher of the rest of the pattern and [n] characters
    taken so far. *)
Definition rep (cls : Z -> bool) (lo : nat) (g : group)
    (next : jsstring -> captures -> option captures)
  : nat -> jsstring -> captures -> option captures :=
  fix rep (n : nat) (s : jsstring) (k : captures) {struct s} : option captures :=
    let stop := if (lo <=? n)%nat then next s k else None in
    match s with
    | x :: s' =>
        if cls x then
          match rep (S n) s' (push g x k) with
          | Some r => Some r
          | None => stop
          end
        else stop
    | [] => stop
    end.

Definition push_all (g : group) (xs : jsstring) (k : captures) : captures :=
  fold_left (fun k x => push g x k) xs k.

(** [rest] does not start with a character of the class. *)
Definition stops (cls : Z -> bool) (rest : jsstring) : Prop :=
  match rest with [] => True | x :: _ => cls x = false end.

(** *** The log lines the two patterns describe *)

(** A [Page] line with the digits [ds]: white space, the word [Page] in
    any letter case, white space, the digits, white space, and nothing
    else. *)
Definition page_line (line ds : jsstring) : Prop :=
  exists ws1 word ws2 ws3,
    line = ws1 ++ word ++ ws2 ++ ds ++ ws3
    /\ forallb space ws1 = true
    /\ map canon word = str "PAGE"
    /\ forallb space ws2 = true /\ ws2 <> []
    /\ forallb digit ds = true /\ ds <> []
    /\ forallb space ws3 = true.

(** [Processing pages a through b.] stands at the head of [s], in any
    letter case and with any white space between the words and the
    numbers. *)
Definition total_here (s a b : jsstring) : Prop :=
  exists w1 ws1 ws2 w2 ws3 rest,
    s = w1 ++ ws1 ++ a ++ ws2 ++ w2 ++ ws3 ++ b ++ 46 :: rest
    /\ map canon w1 = str "PROCESSING PAGES"
    /\ forallb space ws1 = true /\ ws1 <> []
    /\ forallb digit a = true /\ a <> []
    /\ forallb space ws2 = true /\ ws2 <> []
    /\ map canon w2 = str "THROUGH"
    /\ forallb space ws3 = true /\ ws3 <> []
    /\ forallb digit b = true /\ b <> [].

(** It occurs in [s]; [a] and [b] are those of its leftmost occurrence. *)
Inductive total_in : jsstring -> jsstring -> jsstring -> Prop :=
| total_found : forall s a b, total_here s a b -> total_in s a b
| total_later : forall c s a b,
    (forall a' b', ~ total_here (c :: s) a' b') -> total_in s a b ->
    total_in (c :: s) a b.

(** *** The version marker in the bytes of the file *)

(** The eight bytes [%PDF-d.d]. *)
Definition marker (d1 d2 : byte) : bytes :=
  list_byte_of_string "%PDF-" ++ [d1; "."%byte; d2].

(** The marker occurs in [bs] with ASCII digits; [v] is the [d.d] of its
    leftmost occurrence. *)
Inductive marker_in : bytes -> jsstring -> Prop :=
| marker_found : forall d1 d2 rest,
    digit (byte_val d1) = true -> digit (byte_val d2) = true ->
    marker_in (marker d1 d2 ++ rest) [byte_val d1; 46; byte_val d2]
| marker_later : forall b bs v,
    (forall d1 d2 rest,
       b :: bs = marker d1 d2 ++ rest ->
       digit (byte_val d1) = true -> digit (byte_val d2) = true -> False) ->
    marker_in bs v ->
    marker_in (b :: bs) v.

(** *** Observations on the log of a job *)

(** The stages of the status messages, oldest first. *)
Definition stages (ms : list Message) : list jsstring :=
  flat_map (fun m => match m with MsgStatus _ s _ => [s] | _ => [] end) ms.

Definition progress_events (ms : list Message) : list Message := filter is_progress ms.

(** A progress event with a percent from 0 to 99. *)
Definition below_100 (m : Message) : Prop :=
  match m with
  | MsgProgress _ (Int p) _ _ => 0 <= p <= 99
  | _ => False
  end.

(** A result, if [m] is one, is no longer than [input], and is [input]
    when it is flagged as the original. *)
Definition result_within_input (input : bytes) (m : Message) : Prop :=
  match m with
  | MsgResult _ o u _ =>
      (List.length o <= List.length input)%nat /\ (u = true -> o = input)
  | _ => True
  end.

(** The messages of job [j] in a log. *)
Definition messages_of (j : jsstring) (ms : list Message) : list Message :=
  filter (fun m => jsstring_eqb (message_jobId m) j) ms.

Section Logs.

Variable number_toString : spec_float -> jsstring.

(** The terminal message of a job, by what its engine does. *)
Definition job_terminal (msg : CompressMsg) (created : Outcome GSModule) : Message :=
  match created with
  | Throw e => MsgError (jobId msg) e
  | Ok gs =>
      match snd (engine_output number_toString gs (pdfBuffer msg) (options msg)) with
      | Throw e => MsgError (jobId msg) e
      | Ok o =>
          let larger := (List.length (pdfBuffer msg) <? List.length o)%nat in
          MsgResult (jobId msg) (if larger then pdfBuffer msg else o) larger
            (resolved_version (pdfBuffer msg))
      end
  end.

(** What a link has posted so far when it is in the state it is in and
    its engine settled as [created]: nothing while it is queued, the
    [loading] status while it waits for its engine, and then everything
    that the job posts when it runs alone in a fresh worker. *)
Definition link_log (created : Outcome GSModule) (l : Link) : list Message :=
  match link_state l with
  | Queued => []
  | Loading => run_posted (handleJob_begin (link_msg l)) initial_globals
  | Settled => run_posted (run_job number_toString (link_msg l) created) initial_globals
  end.

(** The logs of the links of a chain, one after the other. *)
Fixpoint chain_log (cs : list (Outcome GSModule)) (q : list Link) : list Message :=
  match cs, q with
  | c :: cs', l :: q' => link_log c l ++ chain_log cs' q'
  | _, _ => []
  end.

Definition logged (rt : Runtime) : Prop :=
  exists cs, List.length cs = List.length (queue rt)
             /\ posted rt = chain_log cs (queue rt).

End Logs.

(** *** Observations on the events that reach a call *)

(** The events that the listeners of the call of [jobId] do not skip. *)
Definition concerns (jobId : jsstring) (ev : Client.WorkerEvent) : bool :=
  match ev with
  | Client.MessageEvent data => jsstring_eqb (message_jobId data) jobId
  | Client.ErrorEvent _ => true
  end.

(** The callback a message leads to, if any. *)
Definition callback_of (h : Client.Handlers) (m : Message) : list Client.Callback :=
  match m with
  | MsgStatus _ stage message =>
      if Client.onStatus h then [Client.OnStatus stage message] else []
  | MsgProgress _ percent current total =>
      if Client.onProgress h
      then [Client.OnProgress
              {| Client.percent := percent; Client.current := current;
                 Client.total := total |}]
      else []
  | _ => []
  end.

(** How a terminal message settles the promise. *)
Definition settlement_of (m : Message) : Client.Settlement :=
  match m with
  | MsgResult _ outBuffer usedOriginal pdfVersionUsed =>
      Client.Resolved outBuffer usedOriginal pdfVersionUsed
  | MsgError _ error => Client.Rejected error
  | _ => Client.Pending
  end.

(** An event that ends a call: an error of the worker, or a terminal
    message of its job. *)
Definition settles (jobId : jsstring) (ev : Client.WorkerEvent) : bool :=
  match ev with
  | Client.MessageEvent data =>
      jsstring_eqb (message_jobId data) jobId && is_terminal data
  | Client.ErrorEvent _ => true
  end.

Definition settlement_by (ev : Client.WorkerEvent) : Client.Settlement :=
  match ev with
  | Client.MessageEvent data => settlement_of data
  | Client.ErrorEvent reason => Client.Rejected reason
  end.

Definition callbacks_by (jobId : jsstring) (h : Client.Handlers)
    (ev : Client.WorkerEvent) : list Client.Callback :=
  match ev with
  | Client.MessageEvent data =>
      if jsstring_eqb (message_jobId data) jobId then callback_of h data else []
  | Client.ErrorEvent _ => []
  end.

(** A callback whose percent, if it has one, is not NaN. *)
Definition numeric (cb : Client.Callback) : Prop :=
  match cb with
  | Client.OnProgress p => is_number (Client.percent p) = true
  | Client.OnStatus _ _ => True
  end.

(* ================================================================== *)
(** ** Sample data for the concrete instances *)

(** Number::toString on the two numbers the default options give. *)
Definition sample_toString (f : spec_float) : jsstring :=
  if SFeqb f float_72 then str "72" else str "1.5".

Definition sample_options : ShrinkOptions :=
  {| grayscale := None; resolutionDpi := None; threshold := None;
     pdfSettings := None |}.

Definition sample_pdf : bytes := list_byte_of_string "%PDF-1.4 sample".

(** An engine that reports two pages and leaves [output] at [/out.pdf]. *)
Definition sample_engine (output : bytes) : GSModule :=
  {| FS_initial := fun _ => None;
     callMain := fun _ fs =>
       ([str "Processing pages 1 through 2."; str "Page 1"; str "Page 2"],
        Ok (FS_writeFile outPath output fs)) |}.

Definition sample_job (id : string) : CompressMsg :=
  {| jobId := str id; pdfBuffer := sample_pdf; options := sample_options |}.

(** Job [a] then job [b]; the engine of [a] fails to load, that of [b]
    writes three bytes. *)
Definition sample_created (i : nat) : Outcome GSModule :=
  match i with
  | O => Throw (str "wasm failed")
  | _ => Ok (sample_engine (list_byte_of_string "pdf"))
  end.

Definition sample_submitted : Runtime :=
  onmessage (Compress (sample_job "b"))
    (onmessage (Compress (sample_job "a")) initial_runtime).

Definition sample_runtime : Runtime :=
  drain sample_toString sample_created sample_submitted.

(** An engine that prints nothing and writes nothing, started on a
    filesystem that holds an output file already. *)
Definition silent_engine : GSModule :=
  {| FS_initial := fun p =>
       if jsstring_eqb p outPath then Some (list_byte_of_string "stale") else None;
     callMain := fun _ fs => ([], Ok fs) |}.

(** A page number of 310 digits. *)
Definition huge_digits : jsstring := 49 :: repeat 48 309.

(** A caller that passes both callbacks. *)
Definition sample_handlers : Client.Handlers :=
  {| Client.onStatus := true; Client.onProgress := true |}.

(** The state of the page when [handleCompress] has gone busy. *)
Definition sample_state : App.FileState :=
  {| App.status := App.compressing; App.progress := Int 0;
     App.statusText := str "Reading file..."; App.gsProgress := None |}.

(* ================================================================== *)
(** * Properties *)

(** ** Arithmetic of page numbers *)

Lemma round64_positive : forall z, 1 <= z -> is_positive (round64 z) = true.
Proof.
  intros z Hz. unfold round64.
  destruct (Z.log2 (Z.abs z) + 1 - prec <=? 0) eqn:Hsh.
  - simpl. lia.
  - apply Z.leb_gt in Hsh.
    rewrite Z.abs_eq in * by lia.
    set (sh := Z.log2 z + 1 - prec) in *.
    set (q := Z.shiftr z sh).
    assert (Hq : 1 <= q).
    { unfold q. rewrite Z.shiftr_div_pow2 by lia.
      assert (Hp : 0 < 2 ^ sh) by (apply Z.pow_pos_nonneg; lia).
      assert (Hle : 2 ^ sh <= z).
      { transitivity (2 ^ Z.log2 z).
        - apply Z.pow_le_mono_r; unfold sh, prec; lia.
        - apply Z.log2_spec; lia. }
      apply Z.div_le_lower_bound; lia. }
    match goal with
    | |- is_positive (if ?c then _ else _) = true => destruct c
    end.
    + simpl. destruct (z <? 0) eqn:E; [apply Z.ltb_lt in E; lia | reflexivity].
    + simpl. apply Z.leb_le.
      rewrite Z.sgn_pos by lia.
      rewrite Z.shiftl_mul_pow2 by lia.
      assert (Hp : 1 <= 2 ^ sh) by (apply (Z.pow_le_mono_r 2 0 sh); lia).
      match goal with
      | |- 1 <= 1 * (?a * _) => assert (1 <= a) by (destruct (_ || _); lia)
      end.
      nia.
Qed.

Lemma round64_0 : round64 0 = Int 0.
Proof. reflexivity. Qed.

(** *** [round64] is the rounding of binary64

    The float library rounds a mantissa by shifting it right while it
    keeps a round bit and a sticky bit; the lemmas below read these off
    the integer. *)

Lemma digits2_size : forall p, digits2_pos p = Pos.size p.
Proof. induction p; cbn; congruence. Qed.

Lemma log2_size : forall p, Z.log2 (Zpos p) + 1 = Zpos (Pos.size p).
Proof. destruct p; cbn; lia. Qed.

Lemma iter_pos_nat : forall {A} (f : A -> A) n x,
  iter_pos f n x = Nat.iter (Pos.to_nat n) f x.
Proof.
  intros A f. induction n as [n IH|n IH|]; intros x; cbn [iter_pos].
  - rewrite !IH, Pos2Nat.inj_xI, Nat.iter_succ_r.
    replace (2 * Pos.to_nat n)%nat with (Pos.to_nat n + Pos.to_nat n)%nat by lia.
    now rewrite Nat.iter_add.
  - rewrite !IH, Pos2Nat.inj_xO.
    replace (2 * Pos.to_nat n)%nat with (Pos.to_nat n + Pos.to_nat n)%nat by lia.
    now rewrite Nat.iter_add.
  - reflexivity.
Qed.

Lemma shr_1_spec : forall m r s,
  0 <= m ->
  shr_1 {| shr_m := m; shr_r := r; shr_s := s |}
  = {| shr_m := Z.div2 m; shr_r := Z.odd m; shr_s := r || s |}.
Proof. intros [|[p|p|]|p] r s H; try reflexivity; lia. Qed.

Lemma mod_pow2_succ : forall m k,
  0 <= k ->
  (m mod 2 ^ (k + 1) =? 0) = negb (Z.testbit m k) && (m mod 2 ^ k =? 0).
Proof.
  intros m k Hk.
  assert (Hp : 0 < 2 ^ k) by (apply Z.pow_pos_nonneg; lia).
  rewrite Z.pow_add_r, Z.pow_1_r by lia.
  rewrite Z.rem_mul_r by lia.
  pose proof (Z.testbit_spec' m k Hk) as Hb.
  pose proof (Z.mod_pos_bound m (2 ^ k) Hp) as Hm.
  destruct (Z.testbit m k); cbn [Z.b2z negb andb] in *; rewrite <- Hb.
  - apply Z.eqb_neq. nia.
  - rewrite Z.mul_0_r, Z.add_0_r. reflexivity.
Qed.

(** [k + 1] right shifts of an exact record: quotient, round bit, sticky
    bit. *)
Lemma shr_iter : forall m k,
  0 <= m ->
  Nat.iter (S k) shr_1 {| shr_m := m; shr_r := false; shr_s := false |}
  = {| shr_m := Z.shiftr m (Z.of_nat (S k));
       shr_r := Z.testbit m (Z.of_nat k);
       shr_s := negb (m mod 2 ^ Z.of_nat k =? 0) |}.
Proof.
  intros m k Hm. induction k as [|k IH].
  - cbn [Nat.iter]. rewrite shr_1_spec by exact Hm.
    rewrite Z.div2_spec, Z.bit0_odd. cbn [Z.of_nat Z.pow]. now rewrite Z.mod_1_r.
  - change (Nat.iter (S (S k)) shr_1 ?x) with (shr_1 (Nat.iter (S k) shr_1 x)).
    rewrite IH. rewrite shr_1_spec by (apply Z.shiftr_nonneg; exact Hm).
    assert (H1 : Z.div2 (Z.shiftr m (Z.of_nat (S k))) = Z.shiftr m (Z.of_nat (S (S k)))).
    { rewrite Z.div2_spec, Z.shiftr_shiftr by lia. f_equal. lia. }
    assert (H2 : Z.odd (Z.shiftr m (Z.of_nat (S k))) = Z.testbit m (Z.of_nat (S k))).
    { rewrite <- Z.bit0_odd, Z.shiftr_spec by lia. f_equal. }
    assert (H3 : Z.testbit m (Z.of_nat k) || negb (m mod 2 ^ Z.of_nat k =? 0)
                 = negb (m mod 2 ^ Z.of_nat (S k) =? 0)).
    { replace (Z.of_nat (S k)) with (Z.of_nat k + 1) by lia.
      rewrite mod_pow2_succ by lia.
      destruct (Z.testbit m (Z.of_nat k)), (m mod 2 ^ Z.of_nat k =? 0); reflexivity. }
    now rewrite H1, H2, H3.
Qed.

Lemma shr_pos : forall m n e,
  0 <= m ->
  shr {| shr_m := m; shr_r := false; shr_s := false |} e (Zpos n)
  = ({| shr_m := Z.shiftr m (Zpos n);
        shr_r := Z.testbit m (Zpos n - 1);
        shr_s := negb (m mod 2 ^ (Zpos n - 1) =? 0) |}, e + Zpos n).
Proof.
  intros m n e Hm. unfold shr. rewrite iter_pos_nat.
  destruct (Pos2Nat.is_succ n) as [k Hk]. rewrite Hk, shr_iter by exact Hm.
  assert (Hz : Zpos n = Z.of_nat (S k)) by lia.
  rewrite <- Hz. replace (Z.of_nat k) with (Zpos n - 1) by lia. reflexivity.
Qed.

Lemma iter_xO : forall p k, Zpos (Pos.iter xO p k) = Zpos p * 2 ^ Zpos k.
Proof.
  intros p k.
  rewrite (Pos.iter_swap_gen _ _ Zpos xO (Z.mul 2)) by reflexivity.
  change (Pos.iter (Z.mul 2) (Zpos p) k) with (Z.shiftl (Zpos p) (Zpos k)).
  apply Z.shiftl_mul_pow2. lia.
Qed.

Lemma size_bounds : forall p,
  2 ^ (Zpos (Pos.size p) - 1) <= Zpos p < 2 ^ Zpos (Pos.size p).
Proof.
  intros p. rewrite <- log2_size.
  replace (Z.log2 (Zpos p) + 1 - 1) with (Z.log2 (Zpos p)) by lia.
  rewrite Z.add_1_r. apply Z.log2_spec. lia.
Qed.

Lemma size_unique : forall p d,
  2 ^ (d - 1) <= Zpos p < 2 ^ d -> 0 < d -> Zpos (Pos.size p) = d.
Proof.
  intros p d H Hd. rewrite <- log2_size.
  assert (Hl : Z.log2 (Zpos p) = d - 1).
  { apply Z.log2_unique; [lia|].
    replace (Z.succ (d - 1)) with d by lia. exact H. }
  lia.
Qed.

(** An integer of at most 53 bits converts exactly. *)
Lemma binary_round_small : forall s p,
  Zpos (Pos.size p) <= 53 ->
  floor (binary_round prec emax s p 0) = signed s (Int (Zpos p)).
Proof.
  intros s p Hd. unfold binary_round.
  rewrite digits2_size, Z.add_0_r.
  assert (Hf : fexp prec emax (Zpos (Pos.size p)) = Zpos (Pos.size p) - 53).
  { unfold fexp, emin, prec, emax. pose proof (Pos2Z.is_pos (Pos.size p)). lia. }
  rewrite Hf. unfold shl_align. rewrite Z.sub_0_r.
  destruct (Zpos (Pos.size p) - 53) as [|k|k] eqn:Hk; try lia.
  - (* exactly 53 bits *)
    unfold binary_round_aux, shr_fexp. cbn [Zdigits2 shr_record_of_loc].
    rewrite digits2_size, Z.add_0_r, Hf. cbn [shr Z.sub Z.opp Z.add shr_m].
    cbn [loc_of_shr_record round_nearest_even Zdigits2].
    rewrite digits2_size, Z.add_0_r, Hf. cbn [shr Z.sub Z.opp Z.add shr_m].
    cbn. destruct s; cbn; reflexivity.
  - (* fewer: the mantissa is shifted left *)
    assert (Hsz : Zpos (Pos.size (Pos.iter xO p k)) = 53).
    { apply size_unique; [|lia]. rewrite iter_xO.
      pose proof (size_bounds p) as [Hlo Hhi].
      assert (Hkk : Zpos k = 53 - Zpos (Pos.size p)) by lia.
      rewrite Hkk. split.
      - replace (53 - 1) with ((Zpos (Pos.size p) - 1) + (53 - Zpos (Pos.size p))) by lia.
        rewrite Z.pow_add_r by lia.
        apply Z.mul_le_mono_nonneg_r; [apply Z.pow_nonneg|]; lia.
      - replace 53 with (Zpos (Pos.size p) + (53 - Zpos (Pos.size p))) at 2 by lia.
        rewrite Z.pow_add_r by lia.
        apply Z.mul_lt_mono_pos_r; [apply Z.pow_pos_nonneg|]; lia. }
    assert (Hf' : fexp prec emax (53 + Zneg k) = Zneg k).
    { unfold fexp, emin, prec, emax. lia. }
    unfold binary_round_aux, shr_fexp. cbn [Zdigits2 shr_record_of_loc].
    rewrite digits2_size, Hsz, Hf', Z.sub_diag. cbn [shr shr_m].
    cbn [loc_of_shr_record round_nearest_even Zdigits2].
    rewrite digits2_size, Hsz, Hf', Z.sub_diag. cbn [shr shr_m].
    assert (Hle : (Zneg k <=? emax - prec) = true) by (apply Z.leb_le; unfold emax, prec; lia).
    rewrite Hle. cbn [floor].
    assert (Hv : Z.shiftl (cond_Zopp s (Zpos (Pos.iter xO p k))) (Zneg k)
                 = cond_Zopp s (Zpos p)).
    { change (Zneg k) with (- Zpos k). rewrite Z.shiftl_opp_r.
      rewrite Z.shiftr_div_pow2 by lia. rewrite iter_xO.
      destruct s; cbn [cond_Zopp].
      - rewrite <- Z.mul_opp_l. apply Z.div_mul. apply Z.pow_nonzero; lia.
      - apply Z.div_mul. apply Z.pow_nonzero; lia. }
    rewrite Hv. destruct s; reflexivity.
Qed.

Lemma mod_pow2_split : forall a n,
  1 <= n ->
  a mod 2 ^ n = a mod 2 ^ (n - 1) + 2 ^ (n - 1) * Z.b2z (Z.testbit a (n - 1)).
Proof.
  intros a n Hn.
  assert (Hp : 0 < 2 ^ (n - 1)) by (apply Z.pow_pos_nonneg; lia).
  replace n with ((n - 1) + 1) at 1 by lia.
  rewrite Z.pow_add_r, Z.pow_1_r by lia.
  rewrite Z.rem_mul_r by lia.
  now rewrite (Z.testbit_spec' a (n - 1)) by lia.
Qed.

(** The rounding decision of the float library is the one of [round64]. *)
Lemma round_decision : forall a n,
  0 <= a -> 1 <= n ->
  let q := Z.shiftr a n in
  let r := a - Z.shiftl q n in
  let half := Z.shiftl 1 (n - 1) in
  round_nearest_even q
    (loc_of_shr_record
       {| shr_m := q; shr_r := Z.testbit a (n - 1);
          shr_s := negb (a mod 2 ^ (n - 1) =? 0) |})
  = if (half <? r) || ((r =? half) && Z.odd q) then q + 1 else q.
Proof.
  intros a n Ha Hn q r half.
  assert (Hp : 0 < 2 ^ (n - 1)) by (apply Z.pow_pos_nonneg; lia).
  assert (Hp' : 0 < 2 ^ n) by (apply Z.pow_pos_nonneg; lia).
  assert (Hr : r = a mod 2 ^ n).
  { unfold r, q. rewrite Z.shiftr_div_pow2, Z.shiftl_mul_pow2 by lia.
    rewrite Z.mod_eq by lia. lia. }
  assert (Hh : half = 2 ^ (n - 1)).
  { unfold half. rewrite Z.shiftl_mul_pow2 by lia. lia. }
  rewrite Hr, Hh, (mod_pow2_split a Hn).
  pose proof (Z.mod_pos_bound a (2 ^ (n - 1)) Hp) as Hlo.
  destruct (Z.testbit a (n - 1)); cbn [Z.b2z loc_of_shr_record];
    destruct (a mod 2 ^ (n - 1) =? 0) eqn:E0;
    cbn [negb loc_of_shr_record round_nearest_even];
    [apply Z.eqb_eq in E0 | apply Z.eqb_neq in E0
    |apply Z.eqb_eq in E0 | apply Z.eqb_neq in E0].
  - rewrite E0, Z.add_0_l, Z.mul_1_r, Z.ltb_irrefl, Z.eqb_refl. cbn.
    rewrite <- Z.negb_odd. now destruct (Z.odd q).
  - replace (2 ^ (n - 1) <? a mod 2 ^ (n - 1) + 2 ^ (n - 1) * 1) with true
      by (symmetry; apply Z.ltb_lt; lia).
    reflexivity.
  - replace (2 ^ (n - 1) <? a mod 2 ^ (n - 1) + 2 ^ (n - 1) * 0) with false
      by (symmetry; apply Z.ltb_ge; lia).
    replace (a mod 2 ^ (n - 1) + 2 ^ (n - 1) * 0 =? 2 ^ (n - 1)) with false
      by (symmetry; apply Z.eqb_neq; lia).
    reflexivity.
  - replace (2 ^ (n - 1) <? a mod 2 ^ (n - 1) + 2 ^ (n - 1) * 0) with false
      by (symmetry; apply Z.ltb_ge; lia).
    replace (a mod 2 ^ (n - 1) + 2 ^ (n - 1) * 0 =? 2 ^ (n - 1)) with false
      by (symmetry; apply Z.eqb_neq; lia).
    reflexivity.
Qed.

(** The second normalisation of [binary_round_aux], on a rounded mantissa
    of 53 bits or exactly [2^53]. *)
Lemma renormalize : forall s m k,
  2 ^ 52 <= m <= 2 ^ 53 ->
  floor
    (let '(mrs, e) := shr_fexp prec emax m (Zpos k) loc_Exact in
     match shr_m mrs with
     | Z0 => S754_zero s
     | Zpos x => if e <=? emax - prec then S754_finite s x e else S754_infinity s
     | Zneg _ => S754_nan
     end)
  = signed s (if Z.shiftl 1 emax <=? Z.shiftl m (Zpos k)
              then Infinity false else Int (Z.shiftl m (Zpos k))).
Proof.
  intros s m k Hm.
  destruct m as [|x|x]; try lia.
  assert (Hk : 0 < 2 ^ Zpos k) by (apply Z.pow_pos_nonneg; lia).
  unfold shr_fexp. cbn [Zdigits2 shr_record_of_loc]. rewrite digits2_size.
  rewrite !Z.shiftl_mul_pow2 by (unfold emax; lia).
  rewrite Z.mul_1_l.
  assert (Hc : Zpos x < 2 ^ 53 \/ Zpos x = 2 ^ 53) by lia.
  destruct Hc as [Hc|Hc].
  - assert (Hs : Zpos (Pos.size x) = 53) by (apply size_unique; lia).
    rewrite Hs.
    assert (Hf : fexp prec emax (53 + Zpos k) - Zpos k = 0)
      by (unfold fexp, emin, prec, emax; lia).
    rewrite Hf. cbn [shr shr_m].
    destruct (Zpos k <=? emax - prec) eqn:Hle;
      [apply Z.leb_le in Hle | apply Z.leb_gt in Hle]; unfold emax, prec in *.
    + assert (Hv : Zpos x * 2 ^ Zpos k < 2 ^ 1024).
      { apply Z.lt_le_trans with (2 ^ 53 * 2 ^ Zpos k).
        - apply Z.mul_lt_mono_pos_r; lia.
        - rewrite <- Z.pow_add_r by lia. apply Z.pow_le_mono_r; lia. }
      replace (2 ^ 1024 <=? Zpos x * 2 ^ Zpos k) with false
        by (symmetry; apply Z.leb_gt; exact Hv).
      cbn [floor signed]. rewrite Z.shiftl_mul_pow2 by lia.
      destruct s; cbn [cond_Zopp signed opp]; f_equal. lia.
    + assert (Hv : 2 ^ 1024 <= Zpos x * 2 ^ Zpos k).
      { apply Z.le_trans with (2 ^ 52 * 2 ^ Zpos k).
        - rewrite <- Z.pow_add_r by lia. apply Z.pow_le_mono_r; lia.
        - apply Z.mul_le_mono_nonneg_r; lia. }
      replace (2 ^ 1024 <=? Zpos x * 2 ^ Zpos k) with true
        by (symmetry; apply Z.leb_le; exact Hv).
      destruct s; reflexivity.
  - assert (Hs : Zpos (Pos.size x) = 54) by (apply size_unique; lia).
    rewrite Hs.
    assert (Hf : fexp prec emax (54 + Zpos k) - Zpos k = 1)
      by (unfold fexp, emin, prec, emax; lia).
    rewrite Hf. rewrite shr_pos by lia. cbn [shr_m].
    rewrite Hc. change (Z.shiftr (2 ^ 53) 1) with (2 ^ 52).
    change (2 ^ 52) with (Zpos (Pos.shiftl 1 52)) at 1. cbv iota.
    destruct (Zpos k + 1 <=? emax - prec) eqn:Hle;
      [apply Z.leb_le in Hle | apply Z.leb_gt in Hle]; unfold emax, prec in *.
    + assert (Hv : 2 ^ 53 * 2 ^ Zpos k < 2 ^ 1024).
      { rewrite <- Z.pow_add_r by lia. apply Z.pow_lt_mono_r; lia. }
      replace (2 ^ 1024 <=? 2 ^ 53 * 2 ^ Zpos k) with false
        by (symmetry; apply Z.leb_gt; exact Hv).
      cbn [floor signed]. rewrite Z.shiftl_mul_pow2 by lia.
      assert (He : Zpos (Pos.shiftl 1 52) * 2 ^ (Zpos k + 1) = 2 ^ 53 * 2 ^ Zpos k).
      { change (Zpos (Pos.shiftl 1 52)) with (2 ^ 52).
        rewrite Z.pow_add_r by lia. change (2 ^ 53) with (2 ^ 52 * 2). lia. }
      destruct s; cbn [cond_Zopp signed opp]; f_equal; lia.
    + assert (Hv : 2 ^ 1024 <= 2 ^ 53 * 2 ^ Zpos k).
      { rewrite <- Z.pow_add_r by lia. apply Z.pow_le_mono_r; lia. }
      replace (2 ^ 1024 <=? 2 ^ 53 * 2 ^ Zpos k) with true
        by (symmetry; apply Z.leb_le; exact Hv).
      destruct s; reflexivity.
Qed.

Lemma binary_round_large : forall s p,
  53 < Zpos (Pos.size p) ->
  floor (binary_round prec emax s p 0) = signed s (round64 (Zpos p)).
Proof.
  intros s p Hd.
  assert (Hf : fexp prec emax (Zpos (Pos.size p)) = Zpos (Pos.size p) - 53)
    by (unfold fexp, emin, prec, emax; lia).
  destruct (Zpos (Pos.size p) - 53) as [|k|k] eqn:Hk; try lia.
  pose proof (size_bounds p) as [Hlo Hhi].
  assert (Hsz : Zpos (Pos.size p) = 53 + Zpos k) by lia.
  rewrite Hsz in Hlo, Hhi.
  assert (Hpk : 0 < 2 ^ Zpos k) by (apply Z.pow_pos_nonneg; lia).
  set (q := Z.shiftr (Zpos p) (Zpos k)).
  assert (Hq : 2 ^ 52 <= q < 2 ^ 53).
  { unfold q. rewrite Z.shiftr_div_pow2 by lia. split.
    - apply Z.div_le_lower_bound; [lia|].
      rewrite Z.mul_comm, <- Z.pow_add_r by lia.
      replace (52 + Zpos k) with (53 + Zpos k - 1) by lia. exact Hlo.
    - apply Z.div_lt_upper_bound; [lia|].
      rewrite Z.mul_comm, <- Z.pow_add_r by lia. exact Hhi. }
  (* the float library *)
  unfold binary_round. rewrite digits2_size, Z.add_0_r, Hf.
  unfold shl_align. rewrite Z.sub_0_r. cbv iota.
  unfold binary_round_aux, shr_fexp at 1. cbn [Zdigits2 shr_record_of_loc].
  rewrite digits2_size, Z.add_0_r, Hsz.
  replace (fexp prec emax (53 + Zpos k) - 0) with (Zpos k)
    by (unfold fexp, emin, prec, emax; lia).
  rewrite shr_pos by lia. cbv iota. cbn [shr_m]. rewrite Z.add_0_l.
  pose proof (@round_decision (Zpos p) (Zpos k)) as Hrd. cbv zeta in Hrd.
  rewrite Hrd by lia. clear Hrd. fold q.
  match goal with
  | |- context [shr_fexp _ _ ?m _ _] => set (m1 := m)
  end.
  assert (Hm1 : 2 ^ 52 <= m1 <= 2 ^ 53) by (unfold m1; destruct (_ || _); lia).
  rewrite (renormalize s k Hm1).
  (* [round64] *)
  unfold round64. rewrite Z.abs_eq by lia.
  replace (Z.log2 (Zpos p) + 1 - prec) with (Zpos k)
    by (rewrite log2_size; unfold prec; lia).
  cbn [Z.leb Z.compare]. fold q. fold m1.
  rewrite Z.sgn_pos by lia. rewrite Z.mul_1_l.
  replace (Zpos p <? 0) with false by reflexivity.
  destruct (Z.shiftl 1 emax <=? Z.shiftl m1 (Zpos k)); reflexivity.
Qed.

Lemma round64_neg : forall p, round64 (Zneg p) = opp (round64 (Zpos p)).
Proof.
  intros p. unfold round64. change (Z.abs (Zneg p)) with (Zpos p).
  change (Z.abs (Zpos p)) with (Zpos p).
  destruct (Z.log2 (Zpos p) + 1 - prec <=? 0); [reflexivity|].
  cbv zeta.
  destruct (Z.shiftl 1 emax <=? _); [reflexivity|].
  cbn [opp]. f_equal. rewrite Z.sgn_neg, Z.sgn_pos by lia. lia.
Qed.

Lemma round64_small : forall p,
  Zpos (Pos.size p) <= 53 -> round64 (Zpos p) = Int (Zpos p).
Proof.
  intros p H. unfold round64. rewrite Z.abs_eq by lia.
  replace (Z.log2 (Zpos p) + 1 - prec <=? 0) with true; [reflexivity|].
  symmetry. apply Z.leb_le. rewrite log2_size. unfold prec. lia.
Qed.

(** [round64] is the rounding of the float library: the integer value of
    the binary64 float nearest to [z]. *)
Theorem round64_binary64 : forall z, floor (to_float (Int z)) = round64 z.
Proof.
  intros [|p|p]; [reflexivity| |]; cbn [to_float binary_normalize].
  - destruct (Z_le_gt_dec (Zpos (Pos.size p)) 53) as [H|H].
    + rewrite binary_round_small, round64_small by exact H. reflexivity.
    + rewrite binary_round_large by lia. reflexivity.
  - rewrite round64_neg.
    destruct (Z_le_gt_dec (Zpos (Pos.size p)) 53) as [H|H].
    + rewrite binary_round_small, round64_small by exact H. reflexivity.
    + rewrite binary_round_large by lia. reflexivity.
Qed.

Example round64_odd_54_bits :
  round64 9007199254740993 = Int 9007199254740992
  /\ round64 9007199254740995 = Int 9007199254740996.
Proof. split; reflexivity. Qed.

Example round64_overflow :
  round64 (2 ^ 1024 - 2 ^ 970) = Infinity false
  /\ round64 (2 ^ 1024 - 2 ^ 970 - 1) = Int (2 ^ 1024 - 2 ^ 971).
Proof. vm_compute. split; reflexivity. Qed.

(** *** No NaN in the percent *)

Lemma shr_1_nonneg : forall r, 0 <= shr_m r -> 0 <= shr_m (shr_1 r).
Proof.
  intros [m r s] H. cbn [shr_m] in H. rewrite shr_1_spec by exact H. cbn [shr_m].
  rewrite Z.div2_div. apply Z.div_pos; lia.
Qed.

Lemma shr_nonneg : forall r e n, 0 <= shr_m r -> 0 <= shr_m (fst (shr r e n)).
Proof.
  intros r e [|k|k] H; try exact H. cbn [shr fst]. rewrite iter_pos_nat.
  induction (Pos.to_nat k) as [|j IH]; [exact H|].
  cbn [Nat.iter]. now apply shr_1_nonneg.
Qed.

Lemma shr_fexp_nonneg : forall m e l,
  0 <= m -> 0 <= shr_m (fst (shr_fexp prec emax m e l)).
Proof.
  intros m e l H. unfold shr_fexp. apply shr_nonneg.
  destruct l as [|[| |]]; exact H.
Qed.

(** Rounding a mantissa that is not negative never gives NaN. *)
Lemma binary_round_aux_not_nan : forall s m e l,
  0 <= m -> not_nan (binary_round_aux prec emax s m e l) = true.
Proof.
  intros s m e l H. unfold binary_round_aux.
  pose proof (shr_fexp_nonneg e l H) as H1.
  destruct (shr_fexp prec emax m e l) as [mrs' e']. cbn [fst] in H1.
  set (m1 := round_nearest_even (shr_m mrs') (loc_of_shr_record mrs')).
  assert (Hm1 : 0 <= m1).
  { unfold m1, round_nearest_even.
    destruct (loc_of_shr_record mrs') as [|[| |]]; try lia.
    destruct (Z.even (shr_m mrs')); lia. }
  pose proof (shr_fexp_nonneg e' loc_Exact Hm1) as H2.
  destruct (shr_fexp prec emax m1 e' loc_Exact) as [mrs'' e'']. cbn [fst] in H2.
  destruct (shr_m mrs'') as [|x|x]; try reflexivity; [|lia].
  destruct (e'' <=? emax - prec); reflexivity.
Qed.

Lemma SFdiv_not_nan : forall a b,
  float_isFinite a = true -> nonzero_float b = true ->
  not_nan (SFdiv prec emax a b) = true.
Proof.
  intros [sa|sa| |sa ma ea] [sb|sb| |sb mb eb] Ha Hb; try discriminate; try reflexivity.
  unfold SFdiv.
  destruct (SFdiv_core_binary prec emax (Zpos ma) ea (Zpos mb) eb) as [[mz ez] lz] eqn:E.
  apply binary_round_aux_not_nan.
  unfold SFdiv_core_binary in E.
  set (m' := match _ with Zpos _ => _ | Z0 => _ | Zneg _ => _ end) in E.
  assert (Hm' : 0 <= m').
  { unfold m'. destruct (_ - _ - _) as [|x|x]; try lia.
    apply Z.shiftl_nonneg. lia. }
  pose proof (Z.div_eucl_eq m' (Zpos mb) ltac:(lia)) as Heq.
  pose proof (Z.mod_pos_bound m' (Zpos mb) ltac:(lia)) as Hmod.
  unfold Z.modulo in Hmod.
  destruct (Z.div_eucl m' (Zpos mb)) as [q r]. injection E as <- _ _.
  nia.
Qed.

Lemma SFmul_not_nan : forall a s m e,
  not_nan a = true -> not_nan (SFmul prec emax a (S754_finite s m e)) = true.
Proof.
  intros [sa|sa| |sa ma ea] s m e Ha; try discriminate; try reflexivity.
  unfold SFmul. apply binary_round_aux_not_nan. lia.
Qed.

(** Doubles round to themselves. *)
Lemma round64_exact : forall q sh,
  0 < q -> 0 < sh -> Z.log2 (q * 2 ^ sh) + 1 - prec = sh ->
  q * 2 ^ sh < 2 ^ emax ->
  round64 (q * 2 ^ sh) = Int (q * 2 ^ sh).
Proof.
  intros q sh Hq Hsh Hl Hv.
  assert (Hp : 0 < 2 ^ sh) by (apply Z.pow_pos_nonneg; lia).
  assert (Hp' : 0 < 2 ^ (sh - 1)) by (apply Z.pow_pos_nonneg; lia).
  unfold round64. rewrite Z.abs_eq by nia. rewrite Hl.
  replace (sh <=? 0) with false by (symmetry; apply Z.leb_gt; lia).
  cbv zeta.
  rewrite Z.shiftr_div_pow2, Z.div_mul by lia.
  rewrite !Z.shiftl_mul_pow2 by (unfold emax; lia).
  rewrite Z.sub_diag, !Z.mul_1_l.
  replace (2 ^ (sh - 1) <? 0) with false by (symmetry; apply Z.ltb_ge; lia).
  replace (0 =? 2 ^ (sh - 1)) with false by (symmetry; apply Z.eqb_neq; lia).
  cbn [orb andb]. cbv iota.
  replace (2 ^ emax <=? q * 2 ^ sh) with false by (symmetry; apply Z.leb_gt; lia).
  cbv iota. rewrite Z.sgn_pos by nia. f_equal. lia.
Qed.

Lemma round64_scaled : forall m k,
  2 ^ 52 <= m <= 2 ^ 53 -> 0 <= k -> m * 2 ^ k < 2 ^ emax ->
  round64 (m * 2 ^ k) = Int (m * 2 ^ k).
Proof.
  intros m k Hm Hk Hv.
  assert (Hp : 0 < 2 ^ k) by (apply Z.pow_pos_nonneg; lia).
  assert (Hc : m < 2 ^ 53 \/ m = 2 ^ 53) by lia.
  destruct Hc as [Hc|Hc].
  - assert (Hl : Z.log2 (m * 2 ^ k) = 52 + k).
    { apply Z.log2_unique; [lia|]. split.
      - rewrite Z.pow_add_r by lia. apply Z.mul_le_mono_nonneg_r; lia.
      - replace (Z.succ (52 + k)) with (53 + k) by lia.
        rewrite Z.pow_add_r by lia. apply Z.mul_lt_mono_pos_r; lia. }
    destruct (Z.eq_dec k 0) as [->|Hk0].
    + unfold round64. rewrite Z.abs_eq by lia. rewrite Hl. reflexivity.
    + apply round64_exact; try lia. rewrite Hl. unfold prec. lia.
  - subst m.
    replace (2 ^ 53 * 2 ^ k) with (2 ^ 52 * 2 ^ (k + 1)) in *
      by (rewrite (Z.pow_add_r 2 k 1) by lia; change (2 ^ 53) with (2 ^ 52 * 2); lia).
    apply round64_exact; try lia.
    assert (Hl : Z.log2 (2 ^ 52 * 2 ^ (k + 1)) = 53 + k).
    { rewrite <- Z.pow_add_r by lia. rewrite Z.log2_pow2 by lia. lia. }
    rewrite Hl. unfold prec. lia.
Qed.

Lemma round64_idempotent_pos : forall p v,
  round64 (Zpos p) = Int v -> round64 v = Int v.
Proof.
  intros p v H. unfold round64 in H. rewrite Z.abs_eq in H by lia.
  destruct (Z.log2 (Zpos p) + 1 - prec <=? 0) eqn:Hs.
  - injection H as <-. unfold round64. rewrite Z.abs_eq by lia. now rewrite Hs.
  - apply Z.leb_gt in Hs. cbv zeta in H.
    set (sh := Z.log2 (Zpos p) + 1 - prec) in *.
    set (q := Z.shiftr (Zpos p) sh) in *.
    match type of H with
    | context [Z.shiftl (if ?c then _ else _) _] => set (m1 := if c then q + 1 else q) in *
    end.
    destruct (Z.shiftl 1 emax <=? Z.shiftl m1 sh) eqn:Ho; [discriminate|].
    apply Z.leb_gt in Ho.
    replace v with (Z.shiftl m1 sh)
      by (injection H as <-; destruct (Z.shiftl m1 sh); reflexivity).
    rewrite !Z.shiftl_mul_pow2 in Ho by (unfold emax; lia).
    rewrite Z.mul_1_l in Ho.
    rewrite Z.shiftl_mul_pow2 by lia.
    apply round64_scaled; try lia.
    assert (Hq : 2 ^ 52 <= q < 2 ^ 53).
    { pose proof (size_bounds p) as [Hlo Hhi]. rewrite <- log2_size in Hlo, Hhi.
      assert (Hpk : 0 < 2 ^ sh) by (apply Z.pow_pos_nonneg; lia).
      unfold q. rewrite Z.shiftr_div_pow2 by lia.
      replace (Z.log2 (Zpos p) + 1 - 1) with (52 + sh) in Hlo by (unfold sh, prec; lia).
      replace (Z.log2 (Zpos p) + 1) with (53 + sh) in Hhi by (unfold sh, prec; lia).
      rewrite Z.pow_add_r in Hlo, Hhi by lia.
      split.
      - apply Z.div_le_lower_bound; lia.
      - apply Z.div_lt_upper_bound; lia. }
    unfold m1. destruct (_ || _); lia.
Qed.

(** A number [Number(...)] returns as finite is a double. *)
Lemma round64_idempotent : forall z v, round64 z = Int v -> round64 v = Int v.
Proof.
  intros [|p|p] v H.
  - injection H as <-. reflexivity.
  - eapply round64_idempotent_pos; eauto.
  - rewrite round64_neg in H.
    destruct (round64 (Zpos p)) as [| |w] eqn:E; try discriminate.
    injection H as <-.
    pose proof (round64_idempotent_pos _ E) as Hw.
    destruct w as [|w|w]; [reflexivity| |].
    + change (- Zpos w) with (Zneg w). rewrite round64_neg, Hw. reflexivity.
    + change (- Zneg w) with (Zpos w).
      rewrite round64_neg in Hw.
      destruct (round64 (Zpos w)) as [| |u]; try discriminate.
      injection Hw as Hu. f_equal. lia.
Qed.

Lemma floor_Int_finite : forall f z, floor f = Int z -> float_isFinite f = true.
Proof. intros [s|s| |s m e] z H; try discriminate; reflexivity. Qed.

Lemma floor_positive_nonzero : forall f,
  is_positive (floor f) = true -> nonzero_float f = true.
Proof. intros [s|s| |s m e] H; try discriminate; reflexivity. Qed.

(** On the states of the parser the raw percent is a number. *)
Lemma raw_percent_number : forall c n,
  round64 c = Int c -> is_positive n = true ->
  is_number (floor_div_mul (Int c) n (Int 100)) = true.
Proof.
  intros c n Hc Hn. unfold floor_div_mul.
  assert (HA : float_isFinite (to_float (Int c)) = true).
  { apply (@floor_Int_finite _ c). now rewrite round64_binary64. }
  assert (HB : nonzero_float (to_float n) = true).
  { destruct n as [|[|]|z]; try discriminate; [reflexivity|].
    apply floor_positive_nonzero. rewrite round64_binary64.
    apply round64_positive. cbn in Hn. lia. }
  pose proof (@SFdiv_not_nan _ _ HA HB) as Hd.
  assert (HC : exists m e, to_float (Int 100) = S754_finite false m e)
    by (vm_compute; eauto).
  destruct HC as [m [e ->]].
  pose proof (@SFmul_not_nan _ false m e Hd) as Hm.
  destruct (SFmul prec emax _ _); try discriminate; reflexivity.
Qed.

Lemma clamp_range : forall x,
  is_number x = true ->
  exists p, clamp x (Int 0) (Int 99) = Int p /\ 0 <= p <= 99.
Proof.
  intros [|[|]|z] H; try discriminate.
  - exists 0. split; [reflexivity | lia].
  - exists 99. split; [reflexivity | lia].
  - unfold clamp, gtb, ltb.
    destruct (z <? 0) eqn:E1; [exists 0; split; [reflexivity | lia]|].
    destruct (99 <? z) eqn:E2; [exists 99; split; [reflexivity | lia]|].
    apply Z.ltb_ge in E1, E2. exists z. split; [reflexivity | lia].
Qed.

Lemma clamped_percent_range : forall c t,
  round64 c = Int c ->
  match t with None => True | Some n => is_positive n = true end ->
  exists p, clamped_percent (Int c) t = Int p /\ 0 <= p <= 99.
Proof.
  intros c [n|] Hc Ht; cbn [clamped_percent].
  - apply clamp_range. now apply raw_percent_number.
  - exists 0. split; [reflexivity | lia].
Qed.

(** The quotient is rounded before it is multiplied: page 29 of 100 is
    [0.29 * 100 = 28.999999999999996] in binary64. *)
Example percent_29_of_100 :
  progress_percent (Int 29) (Some (Int 100)) = Int 28
  /\ progress_percent (Int 30) (Some (Int 100)) = Int 30.
Proof. vm_compute. split; reflexivity. Qed.

Lemma geb_Int : forall a b, geb (Int a) (Int b) = true <-> b <= a.
Proof.
  intros a b. unfold geb, gtb, ltb, JsNum.eqb. rewrite orb_true_iff.
  rewrite Z.ltb_lt, Z.eqb_eq. lia.
Qed.

Lemma geb_trans_Int : forall a b c,
  geb (Int b) (Int a) = true -> geb c (Int b) = true -> geb c (Int a) = true.
Proof.
  intros a b [|[|]|c] H1 H2; try discriminate; try reflexivity.
  apply geb_Int in H1. apply geb_Int in H2. apply geb_Int. lia.
Qed.

Lemma isFinite_Int : forall x, isFinite x = true -> exists z, x = Int z.
Proof. intros [| |z] H; try discriminate. now exists z. Qed.

(** [end - start + 1] is a positive number whenever the guard of
    [parseGsLine] lets it through. *)
Lemma total_is_positive : forall s e,
  isFinite s && isFinite e && geb e s = true ->
  is_positive (add (sub e s) (Int 1)) = true.
Proof.
  intros s e H. apply andb_true_iff in H as [H Hge].
  apply andb_true_iff in H as [Hs He].
  apply isFinite_Int in Hs as [zs ->]. apply isFinite_Int in He as [ze ->].
  apply geb_Int in Hge. unfold sub, opp. cbn [add].
  assert (Hd : ze + - zs = 0 \/ 1 <= ze + - zs) by lia.
  destruct Hd as [Hd|Hd].
  - rewrite Hd. rewrite round64_0. cbn [add]. now apply round64_positive.
  - pose proof (round64_positive Hd) as Hp.
    destruct (round64 (ze + - zs)) as [|[|]|d]; cbn in Hp; try discriminate.
    + reflexivity.
    + cbn [add]. apply round64_positive. apply Z.leb_le in Hp. lia.
Qed.

(** A known total passes the guard of [emitProgress]. *)
Lemma positive_guard : forall n,
  is_positive n = true -> truthy n && gtb n (Int 0) = true.
Proof.
  intros [|[|]|z]; cbn; intros H; try discriminate; try reflexivity.
  apply Z.leb_le in H.
  destruct (z =? 0) eqn:E; [apply Z.eqb_eq in E; lia|].
  cbn. apply Z.ltb_lt. lia.
Qed.

Lemma min_max_clamp : forall x,
  JsNum.min (Int 99) (JsNum.max (Int 0) x) = clamp x (Int 0) (Int 99).
Proof.
  intros [|[|]|z]; try reflexivity.
  unfold clamp, gtb, ltb. cbn.
  destruct (z <? 0) eqn:E1; [apply Z.ltb_lt in E1 | apply Z.ltb_ge in E1].
  - f_equal. lia.
  - destruct (99 <? z) eqn:E2; [apply Z.ltb_lt in E2 | apply Z.ltb_ge in E2];
      f_equal; lia.
Qed.

(** On the states the parser produces, the percent of [emitProgress] is
    the clamped one. *)
Lemma progress_percent_clamped : forall c t,
  match t with None => True | Some n => is_positive n = true end ->
  progress_percent c t = clamped_percent c t.
Proof.
  intros c [n|] H; [|reflexivity].
  unfold progress_percent, clamped_percent.
  rewrite (positive_guard n H). apply min_max_clamp.
Qed.


(** *** The percent against the exact quotient

    [emitProgress] rounds the quotient [currentPage / totalPages] to a
    double and rounds again after the multiplication by 100.  Each
    rounding keeps the 53 leading bits of the exact result or adds one in
    the last place, whatever the round and sticky bits say.  With the page
    number below [2^43] the two errors together are too small to lift the
    product to an integer that the exact [100 * currentPage / totalPages]
    has not reached, and they lower it by less than one. *)























(** Beyond [2^43] the rounded percent can also exceed the exact one. *)
Example percent_above_exact :
  progress_percent (Int 69885013093763) (Some (Int 411088312316253)) = Int 17
  /\ exact_percent 69885013093763 (Some 411088312316253) = Int 16.
Proof. vm_compute. split; reflexivity. Qed.

(** ** Running worker code *)

Lemma run_bind : forall {A B} (c : Worker A) (k : A -> Worker B) g,
  run_value (bind c k) g = run_value (k (run_value c g)) (run_globals c g)
  /\ run_globals (bind c k) g = run_globals (k (run_value c g)) (run_globals c g)
  /\ run_posted (bind c k) g
     = run_posted c g ++ run_posted (k (run_value c g)) (run_globals c g).
Proof.
  intros A B c k g. unfold run_value, run_globals, run_posted, bind.
  destruct (c g) as [[a g1] o1]. cbn.
  destruct (k a g1) as [[b g2] o2]. cbn. auto.
Qed.

Lemma bind_assoc_run : forall (a b c : Worker unit) g,
  run_globals ((a ;; b) ;; c) g = run_globals (a ;; (b ;; c)) g
  /\ run_posted ((a ;; b) ;; c) g = run_posted (a ;; (b ;; c)) g.
Proof.
  intros a b c g. unfold run_globals, run_posted, bind.
  destruct (a g) as [[u1 g1] o1]. destruct (b g1) as [[u2 g2] o2].
  destruct (c g2) as [[u3 g3] o3]. cbn. now rewrite app_assoc.
Qed.

Lemma bind_ret_run : forall (c : Worker unit) g,
  run_globals (ret tt ;; c) g = run_globals c g
  /\ run_posted (ret tt ;; c) g = run_posted c g.
Proof.
  intros c g. unfold run_globals, run_posted, bind, ret.
  destruct (c g) as [[u g1] o1]. auto.
Qed.

Lemma run_forEach_cons : forall {A} (f : A -> Worker unit) x l g,
  run_globals (forEach f (x :: l)) g = run_globals (forEach f l) (run_globals (f x) g)
  /\ run_posted (forEach f (x :: l)) g
     = run_posted (f x) g ++ run_posted (forEach f l) (run_globals (f x) g).
Proof.
  intros A f x l g. cbn [forEach].
  destruct (run_bind (f x) (fun _ => forEach f l) g) as [_ [-> ->]]. auto.
Qed.

(** ** The progress parser *)

Lemma parseGsLine_effect : forall line g,
  line_effect line g (run_globals (parseGsLine line) g)
    (run_posted (parseGsLine line) g).
Proof.
  intros line [a t c].
  unfold run_globals, run_posted, parseGsLine.
  cbv [bind getGlobals]. cbn [activeJobId totalPages currentPage].
  destruct a as [[|j jid]|]; try (apply effect_none; reflexivity).
  destruct (regex_match re_total line) as [m|] eqn:Ht.
  - destruct (isFinite (Number (fst m)) && isFinite (Number (snd m))
              && geb (Number (snd m)) (Number (fst m))) eqn:Hc.
    + cbn. eapply effect_total; eauto.
    + apply effect_none; reflexivity.
  - destruct (regex_match re_page line) as [m|] eqn:Hp;
      try (apply effect_none; reflexivity).
    destruct (isFinite (Number (fst m)) && gtb (Number (fst m)) c) eqn:Hc;
      try (apply effect_none; reflexivity).
    destruct (is_null t && JsNum.eqb (Number (fst m)) (Int 1)) eqn:Hn;
      cbn; eapply effect_page; eauto; cbn; rewrite Hn; reflexivity.
Qed.

Lemma line_effect_ok : forall line g g' out,
  line_effect line g g' out -> progress_ok g -> progress_ok g'.
Proof.
  intros line g g' out He [[c [Hc [Hc0 Hcr]]] Ht].
  destruct He as [-> | jid m Ha Hr Hgd Ha' Hcp Htp
                     | jid m Ha Hr Hr' Hgd Ha' Hcp Htp].
  - split; [exists c; auto | exact Ht].
  - split; [exists c; repeat split; congruence|].
    rewrite Htp. now apply total_is_positive.
  - apply andb_true_iff in Hgd as [Hf Hgt].
    apply isFinite_Int in Hf as [p Hp].
    split.
    + exists p. split; [congruence|]. split.
      * rewrite Hp, Hc in Hgt. unfold gtb, ltb in Hgt. apply Z.ltb_lt in Hgt. lia.
      * unfold Number in Hp. eapply round64_idempotent; eauto.
    + rewrite Htp. destruct (is_null (totalPages g) && _); [reflexivity | exact Ht].
Qed.

Lemma line_effect_job : forall line g g' out,
  line_effect line g g' out -> activeJobId g' = activeJobId g.
Proof. intros line g g' out [-> | |]; congruence. Qed.

Lemma line_effect_mono : forall line g g' out,
  line_effect line g g' out -> progress_ok g ->
  geb (currentPage g') (currentPage g) = true
  /\ (is_null (totalPages g) = false -> is_null (totalPages g') = false).
Proof.
  intros line g g' out He [[c [Hc [Hc0 Hcr]]] Ht].
  destruct He as [-> | jid m Ha Hr Hgd Ha' Hcp Htp
                     | jid m Ha Hr Hr' Hgd Ha' Hcp Htp].
  - rewrite Hc. split; [apply geb_Int; lia | auto].
  - rewrite Hcp, Hc, Htp. split; [apply geb_Int; lia | reflexivity].
  - apply andb_true_iff in Hgd as [Hf Hgt].
    apply isFinite_Int in Hf as [p Hp].
    rewrite Hcp, Htp, Hp, Hc in *. unfold gtb, ltb in Hgt. apply Z.ltb_lt in Hgt.
    split; [apply geb_Int; lia|].
    intros Hn. rewrite Hn. exact Hn.
Qed.

Lemma line_effect_posted : forall line g g' out jobId,
  line_effect line g g' out -> progress_ok g -> activeJobId g = Some jobId ->
  Forall (clamped_progress jobId) out.
Proof.
  intros line g g' out jobId He Hok Hj.
  pose proof (line_effect_ok He Hok) as [[c [Hc [Hc0 Hcr]]] Ht].
  destruct (@clamped_percent_range c (totalPages g') Hcr Ht) as [p [Hp Hr]].
  destruct He as [-> | jid m Ha | jid m Ha]; [constructor | |];
    (constructor; [|constructor]);
    exists c, (totalPages g'), p;
    rewrite progress_percent_clamped by exact Ht;
    rewrite Hc; repeat split; try assumption; try lia; congruence.
Qed.

Lemma job_start_ok : forall jobId, progress_ok (job_start jobId).
Proof.
  intros. split; [exists 0; repeat split; lia | exact I].
Qed.

Lemma feed_ok : forall lines g,
  progress_ok g -> progress_ok (run_globals (feed lines) g).
Proof.
  induction lines as [|l lines IH]; intros g Hg; [exact Hg|].
  unfold feed in *. destruct (run_forEach_cons parseGsLine l lines g) as [-> _].
  apply IH. eapply line_effect_ok; [apply parseGsLine_effect | exact Hg].
Qed.

Lemma feed_posted : forall lines g jobId,
  progress_ok g -> activeJobId g = Some jobId ->
  Forall (clamped_progress jobId) (run_posted (feed lines) g).
Proof.
  induction lines as [|l lines IH]; intros g jobId Hok Hj; [constructor|].
  unfold feed in *. destruct (run_forEach_cons parseGsLine l lines g) as [_ ->].
  pose proof (parseGsLine_effect l g) as He.
  apply Forall_app. split.
  - eapply line_effect_posted; eauto.
  - apply IH.
    + eapply line_effect_ok; eauto.
    + rewrite (line_effect_job He). exact Hj.
Qed.



Lemma feed_mono : forall more g,
  progress_ok g ->
  geb (currentPage (run_globals (feed more) g)) (currentPage g) = true
  /\ (is_null (totalPages g) = false ->
      is_null (totalPages (run_globals (feed more) g)) = false).
Proof.
  induction more as [|l more IH]; intros g Hok.
  - destruct Hok as [[c [Hc _]] _]. cbn. rewrite Hc.
    split; [apply geb_Int; lia | auto].
  - unfold feed in *. destruct (run_forEach_cons parseGsLine l more g) as [-> _].
    pose proof (parseGsLine_effect l g) as He.
    destruct (line_effect_mono He Hok) as [H1 H2].
    pose proof (line_effect_ok He Hok) as Hok'.
    destruct (IH _ Hok') as [H3 H4].
    split; [|auto].
    destruct Hok as [[c [Hc _]] _]. destruct Hok' as [[c' [Hc' _]] _].
    rewrite Hc, Hc' in *. eapply geb_trans_Int; eauto.
Qed.

Lemma feed_only_progress : forall lines g,
  forallb is_progress (run_posted (feed lines) g) = true.
Proof.
  induction lines as [|l lines IH]; intros g; [reflexivity|].
  unfold feed in *. destruct (run_forEach_cons parseGsLine l lines g) as [_ ->].
  rewrite forallb_app, IH, andb_true_r.
  destruct (parseGsLine_effect l g) as [| |]; reflexivity.
Qed.

(** C10: a log line that reaches the progress parser while no job is
    active ([activeJobId] is null) leaves [totalPages] and [currentPage] as
    they are and posts no progress event, whatever the line is: also when it
    matches one of the two patterns. *)
Theorem parseGsLine_without_active_job : forall (line : jsstring)
    (t : option number) (c : number),
  let g := {| activeJobId := None; totalPages := t; currentPage := c |} in
  parseGsLine line g = (tt, g, [])
  /\ parseGsLine (str "Page 3") g = (tt, g, [])
  /\ parseGsLine (str "Processing pages 1 through 5.") g = (tt, g, []).
Proof. intros line t c g. repeat split. Qed.



(** C7, as stated, fails: after [Processing pages 3 through 12.] and
    [Page 5] the parser does not report 40 percent. *)
Lemma page_5_of_10_is_not_40 :
  ~ (let g := run_globals
                (feed [str "Processing pages 3 through 12."; str "Page 5"])
                (job_start (str "job")) in
     totalPages g = Some (Int 10) /\ currentPage g = Int 5 /\
     run_posted (emitProgress (str "job")) g
     = [MsgProgress (str "job") (Int 40) (Int 5) (Some (Int 10))]).
Proof. vm_compute. intros [_ [_ H]]. discriminate H. Qed.

(** C7, amended: feeding the parser of a running job the line
    [Processing pages 3 through 12.] and then the line [Page 5] gives
    [totalPages = 10], [currentPage = 5] and a percent of [50], which is
    [floor(5 / 10 * 100)]; the two events posted on the way report 0 and
    50. *)
Theorem page_5_of_10_is_50 : forall (j : Z) (rest : jsstring),
  let jobId := j :: rest in
  let lines := [str "Processing pages 3 through 12."; str "Page 5"] in
  let g := run_globals (feed lines) (job_start jobId) in
  totalPages g = Some (Int 10) /\ currentPage g = Int 5 /\
  run_posted (emitProgress jobId) g
  = [MsgProgress jobId (Int 50) (Int 5) (Some (Int 10))] /\
  run_posted (feed lines) (job_start jobId)
  = [MsgProgress jobId (Int 0) (Int 0) (Some (Int 10));
     MsgProgress jobId (Int 50) (Int 5) (Some (Int 10))].
Proof. intros j rest. repeat split. Qed.

(** C6, as stated, fails: a second [Processing pages] line with a shorter
    range lowers [totalPages] from 10 to 2. *)
Lemma totalPages_can_decrease :
  ~ (forall (jobId : jsstring) (lines : list jsstring) (line : jsstring),
       let g := run_globals (feed lines) (job_start jobId) in
       let g' := run_globals (parseGsLine line) g in
       geb (currentPage g') (currentPage g) = true
       /\ (forall t, totalPages g = Some t ->
             exists t', totalPages g' = Some t' /\ geb t' t = true)).
Proof.
  intros H.
  destruct (H (str "job") [str "Processing pages 1 through 10."]
              (str "Processing pages 1 through 2.")) as [_ H'].
  destruct (H' (Int 10) eq_refl) as [t' [Ht' Hge]].
  vm_compute in Ht'. injection Ht' as <-. discriminate Hge.
Qed.

(** C6, amended: within a job, over every sequence of log lines the
    parser consumes, [currentPage] never decreases, and [totalPages], once
    it is a number, never becomes unknown again; one more line either leaves
    a known [totalPages] as it is or is a [Processing pages] line, which
    replaces it by [end - start + 1] of that line, be it smaller or
    larger. *)
Theorem progress_state_monotone : forall (jobId : jsstring)
    (lines more : list jsstring),
  let g := run_globals (feed lines) (job_start jobId) in
  let g' := run_globals (feed more) g in
  geb (currentPage g') (currentPage g) = true
  /\ (is_null (totalPages g) = false -> is_null (totalPages g') = false)
  /\ (forall line,
        let g1 := run_globals (parseGsLine line) g in
        is_null (totalPages g) = false ->
        totalPages g1 = totalPages g
        \/ exists m, regex_match re_total line = Some m
                     /\ totalPages g1
                        = Some (add (sub (Number (snd m)) (Number (fst m))) (Int 1))).
Proof.
  intros jobId lines more g g'.
  pose proof (feed_ok lines (job_start_ok jobId)) as Hok. fold g in Hok.
  destruct (feed_mono more Hok) as [H1 H2].
  repeat split; auto.
  intros line g1 Hn. pose proof (parseGsLine_effect line g) as He. fold g1 in He.
  destruct He as [-> | jid m Ha Hr Hc Ha' Hcp Htp
                     | jid m Ha Hr Hr' Hc Ha' Hcp Htp].
  - now left.
  - right. exists m. split; assumption.
  - left. rewrite Htp. destruct (totalPages g); [reflexivity | discriminate].
Qed.

(** ** The version sniffer *)

Lemma version_here_chars : forall s v,
  version_here s v <->
  exists d1 d2 rest,
    s = 37 :: 80 :: 68 :: 70 :: 45 :: d1 :: 46 :: d2 :: rest
    /\ digit d1 = true /\ digit d2 = true /\ v = [d1; 46; d2].
Proof.
  intros s v. split.
  - intros [d1 [d2 [rest [H1 [H2 [-> ->]]]]]]. exists d1, d2, rest. auto.
  - intros [d1 [d2 [rest [-> [H1 [H2 ->]]]]]]. exists d1, d2, rest. auto.
Qed.

(** The pattern at one start index. *)
Lemma exec_version : forall s,
  match exec false (atoms re_version) s ([], []) with
  | Some k => version_here s (fst k)
  | None => forall v, ~ version_here s v
  end.
Proof.
  intros s.
  assert (Hno : forall t : jsstring,
            (forall d1 d2 rest,
               t = 37 :: 80 :: 68 :: 70 :: 45 :: d1 :: 46 :: d2 :: rest ->
               digit d1 = true -> digit d2 = true -> False) ->
            forall v, ~ version_here t v).
  { intros t H v Hv. apply version_here_chars in Hv.
    destruct Hv as [d1 [d2 [rest [Ht [H1 [H2 _]]]]]]. eauto. }
  cbn [re_version atoms lit str map app exec same].
  repeat
    match goal with
    | |- match (match ?l with [] => None | _ :: _ => _ end) with _ => _ end =>
        destruct l; [apply Hno; intros; discriminate|]
    | |- match (if ?c =? ?x then _ else None) with _ => _ end =>
        let E := fresh "E" in
        destruct (c =? x) eqn:E;
        [apply Z.eqb_eq in E; subst
        | apply Hno; intros ? ? ? Heq ? ?; injection Heq; intros; subst;
          rewrite Z.eqb_refl in E; discriminate]
    | |- match (if digit ?x then _ else None) with _ => _ end =>
        let E := fresh "E" in
        destruct (digit x) eqn:E;
        [| apply Hno; intros ? ? ? Heq ? ?; injection Heq; intros; subst;
           congruence]
    end.
  cbn. apply version_here_chars. eexists _, _, _. repeat split; eauto.
Qed.

(** The search over all start indices finds the leftmost occurrence. *)
Lemma search_version : forall s,
  match search false (atoms re_version) s with
  | Some k => version_in s (fst k)
  | None => ~ version_occurs s
  end.
Proof.
  induction s as [|c s IH].
  - cbn. intros [pre [tail [v [Hs Hv]]]].
    apply version_here_chars in Hv. destruct Hv as [d1 [d2 [rest [-> _]]]].
    destruct pre; discriminate.
  - cbn [search]. pose proof (exec_version (c :: s)) as He.
    destruct (exec false (atoms re_version) (c :: s) ([], [])) as [k|].
    + now apply version_found.
    + destruct (search false (atoms re_version) s) as [k|].
      * apply version_later; [exact He | exact IH].
      * intros [pre [tail [v [Hs Hv]]]]. destruct pre as [|c' pre].
        -- cbn in Hs. subst tail. exact (He v Hv).
        -- apply IH. injection Hs as _ ->. now exists pre, tail, v.
Qed.

Lemma version_in_occurs : forall s v, version_in s v -> version_occurs s.
Proof.
  induction 1 as [s v H | c s v _ _ [pre [tail [v' [-> Hv]]]]].
  - now exists [], s, v.
  - now exists (c :: pre), tail, v'.
Qed.

(** C8: for every byte buffer the version sniffer looks at the first 1024
    bytes only, decoded as windows-1252 (what the label [ascii] selects),
    which cannot fail.  If [%PDF-<digit>.<digit>] occurs in that text it
    returns the [<digit>.<digit>] of the leftmost occurrence, and the job
    runner uses it; otherwise it returns null and the job runner uses
    ["1.5"].  A buffer that begins with [%PDF-1.7] gives ["1.7"].  The
    sniffer is a total function: it returns for every buffer. *)
Theorem detectPdfVersion_spec : forall bs : bytes,
  let text := TextDecoder_ascii_decode (firstn 1024 bs) in
  detectPdfVersion bs = detectPdfVersion (firstn 1024 bs)
  /\ (version_occurs text ->
      exists v, detectPdfVersion bs = Some v /\ version_in text v
                /\ resolved_version bs = v)
  /\ (~ version_occurs text ->
      detectPdfVersion bs = None /\ resolved_version bs = str "1.5")
  /\ (forall rest,
        detectPdfVersion (list_byte_of_string "%PDF-1.7" ++ rest)
        = Some (str "1.7")).
Proof.
  intros bs text.
  assert (Hd : detectPdfVersion bs
               = match search false (atoms re_version) text with
                 | Some m => Some (fst m) | None => None end) by reflexivity.
  pose proof (search_version text) as Hs.
  split; [|split; [|split]].
  - unfold detectPdfVersion, subarray_head. now rewrite firstn_firstn, Nat.min_id.
  - intros Hocc. unfold resolved_version. rewrite Hd.
    destruct (search false (atoms re_version) text) as [k|]; [|contradiction].
    exists (fst k). auto.
  - intros Hno. unfold resolved_version. rewrite Hd.
    destruct (search false (atoms re_version) text) as [k|]; [|auto].
    exfalso. apply Hno. eapply version_in_occurs; eauto.
  - intros rest. reflexivity.
Qed.

(** A marker that starts at byte 1020 lies across the limit and is not
    seen; one that ends at byte 1024 is. *)
Example version_marker_at_the_limit :
  detectPdfVersion (repeat "x"%byte 1020 ++ list_byte_of_string "%PDF-1.7") = None
  /\ detectPdfVersion (repeat "x"%byte 1016 ++ list_byte_of_string "%PDF-1.7")
     = Some (str "1.7").
Proof. vm_compute. split; reflexivity. Qed.

(** ** Lists of jobs and of messages *)

Lemma jsstring_eqb_eq : forall a b, jsstring_eqb a b = true <-> a = b.
Proof.
  induction a as [|x a IH]; destruct b as [|y b]; cbn; split; try easy.
  - intros H. apply andb_true_iff in H as [Hx Ha].
    apply Z.eqb_eq in Hx. apply IH in Ha. congruence.
  - intros H. injection H as -> ->. rewrite Z.eqb_refl. now apply IH.
Qed.

Lemma terminals_app : forall a b, terminals (a ++ b) = terminals a ++ terminals b.
Proof.
  induction a as [|m a IH]; intros b; [reflexivity|].
  cbn. rewrite IH. now destruct (terminal_of m).
Qed.

Lemma terminals_progress : forall ms,
  forallb is_progress ms = true -> terminals ms = [].
Proof.
  induction ms as [|m ms IH]; [reflexivity|]. cbn. intros H.
  apply andb_true_iff in H as [Hm Hms]. destruct m; try discriminate. now apply IH.
Qed.

Lemma terminal_messages_app : forall a b,
  terminal_messages (a ++ b) = terminal_messages a ++ terminal_messages b.
Proof. intros. apply filter_app. Qed.

Lemma terminal_messages_progress : forall ms,
  forallb is_progress ms = true -> terminal_messages ms = [].
Proof.
  induction ms as [|m ms IH]; [reflexivity|]. cbn. intros H.
  apply andb_true_iff in H as [Hm Hms]. destruct m; try discriminate.
  cbn. now apply IH.
Qed.




(** ** Shape of the chain *)

Lemma all_queued_well_formed : forall q,
  all_queued q = true -> well_formed q = true.
Proof.
  induction q as [|l q IH]; [reflexivity|]. cbn. intros H.
  apply andb_true_iff in H as [Hl Hq].
  destruct l as [m []]; try discriminate. exact Hq.
Qed.

Lemma well_formed_build : forall pre l post,
  forallb is_settled pre = true -> all_queued post = true ->
  well_formed (pre ++ l :: post) = true.
Proof.
  induction pre as [|a pre IH]; intros l post Hpre Hpost.
  - cbn. destruct (is_settled l); [now apply all_queued_well_formed | exact Hpost].
  - cbn in *. apply andb_true_iff in Hpre as [Ha Hpre]. rewrite Ha. now apply IH.
Qed.

Lemma all_queued_last : forall q a,
  all_queued (a :: q) = true -> last_state (a :: q) = Queued.
Proof.
  induction q as [|b q IH]; intros a H.
  - cbn in *. destruct a as [m []]; try discriminate. reflexivity.
  - change (last_state (a :: b :: q)) with (last_state (b :: q)).
    apply IH. cbn in *. apply andb_true_iff in H as [_ H]. exact H.
Qed.

(** A link that is loading, or a queued one whose predecessor is
    fulfilled, has settled links before it and queued links after it. *)
Lemma well_formed_split : forall pre l post,
  well_formed (pre ++ l :: post) = true ->
  is_settled l = false ->
  last_state pre = Settled \/ is_loading l = true ->
  forallb is_settled pre = true /\ all_queued post = true.
Proof.
  induction pre as [|a pre IH]; intros l post Hwf Hl Hlast.
  - cbn in Hwf. rewrite Hl in Hwf. auto.
  - cbn [app well_formed] in Hwf. destruct (is_settled a) eqn:Ha.
    + cbn [forallb]. rewrite Ha. apply (IH l post); auto.
      destruct Hlast as [Hlast|]; [left | now right].
      destruct pre; [reflexivity | exact Hlast].
    + exfalso. destruct Hlast as [Hlast|Hload].
      * destruct pre as [|b pre].
        -- cbn in Hlast. destruct a as [m []]; discriminate.
        -- assert (Hq : all_queued (b :: pre) = true).
           { unfold all_queued in *. rewrite forallb_app in Hwf.
             now apply andb_true_iff in Hwf as [Hwf _]. }
           change (last_state (a :: b :: pre)) with (last_state (b :: pre)) in Hlast.
           rewrite (all_queued_last _ _ Hq) in Hlast. discriminate.
      * unfold all_queued in Hwf. rewrite forallb_app in Hwf.
        apply andb_true_iff in Hwf as [_ Hwf]. cbn in Hwf.
        apply andb_true_iff in Hwf as [Hwf _].
        destruct l as [m []]; discriminate.
Qed.

Lemma settled_last : forall pre,
  forallb is_settled pre = true -> last_state pre = Settled.
Proof.
  induction pre as [|a pre IH]; [reflexivity|]. cbn [forallb]. intros H.
  apply andb_true_iff in H as [Ha Hpre]. destruct pre as [|b pre].
  - cbn. destruct a as [m []]; try discriminate. reflexivity.
  - change (last_state (a :: b :: pre)) with (last_state (b :: pre)). now apply IH.
Qed.

Lemma well_formed_snoc : forall q l,
  well_formed q = true -> is_queued l = true -> well_formed (q ++ [l]) = true.
Proof.
  induction q as [|a q IH]; intros l Hwf Hl.
  - cbn. destruct l as [m []]; try discriminate. reflexivity.
  - cbn in *. destruct (is_settled a); [now apply IH|].
    unfold all_queued in *. rewrite forallb_app, Hwf. cbn. now rewrite Hl.
Qed.


Lemma settled_jobs_app : forall q1 q2,
  settled_jobs (q1 ++ q2) = settled_jobs q1 ++ settled_jobs q2.
Proof. intros. unfold settled_jobs. now rewrite filter_app, map_app. Qed.

Lemma settled_jobs_queued : forall q, all_queued q = true -> settled_jobs q = [].
Proof.
  induction q as [|a q IH]; [reflexivity|]. cbn. intros H.
  apply andb_true_iff in H as [Ha Hq]. unfold settled_jobs in *. cbn.
  destruct a as [m []]; try discriminate. cbn. now apply IH.
Qed.





(** ** One job *)

Section JobProperties.

Variable number_toString : spec_float -> jsstring.

(** C5, amended: for every options record and resolved version the input
    path [/in.pdf] is the last argument and the output-file argument
    [-sOutputFile=/out.pdf] comes before it; the two are the final two
    arguments when [grayscale] is false or absent, and when [grayscale] is
    true the three grayscale arguments stand between them, so that the list
    ends with these five. *)
Theorem input_path_is_last_argument : forall (options : ShrinkOptions)
    (pdfVersion : jsstring),
  let gray := nullish (grayscale options) false in
  let args := shrink_args number_toString options pdfVersion in
  lastn (if gray then 5 else 2) args
  = [str "-sOutputFile=/out.pdf"]
    ++ (if gray then grayscale_args else [])
    ++ [str "/in.pdf"]
  /\ lastn 1 args = [str "/in.pdf"]
  /\ List.length args = (if gray then 24 else 21)%nat.
Proof.
  intros options pdfVersion gray args. subst gray args. unfold shrink_args.
  destruct (nullish (grayscale options) false); repeat split.
Qed.

(** [shrinkPdfLikeScript] in terms of what the engine does. *)
Lemma shrink_run : forall gs inputPdf options g,
  let printed := fst (engine_output number_toString gs inputPdf options) in
  let r := snd (engine_output number_toString gs inputPdf options) in
  let larger := fun o : bytes => (List.length inputPdf <? List.length o)%nat in
  run_posted (shrinkPdfLikeScript number_toString gs inputPdf options) g
  = run_posted (feed printed) g
  /\ run_globals (shrinkPdfLikeScript number_toString gs inputPdf options) g
     = run_globals (feed printed) g
  /\ run_value (shrinkPdfLikeScript number_toString gs inputPdf options) g
     = match r with
       | Throw e => Throw e
       | Ok o => Ok {| out := if larger o then inputPdf else o;
                       usedOriginal := larger o;
                       pdfVersionUsed := resolved_version inputPdf |}
       end.
Proof.
  intros gs inputPdf options g.
  unfold engine_output, shrinkPdfLikeScript, prepared_files.
  destruct (callMain gs _ _) as [printed ran]. cbn [fst snd].
  match goal with
  | |- context [bind (forEach parseGsLine printed) ?k] =>
      destruct (run_bind (forEach parseGsLine printed) k g) as [Hv [Hg Hp]]
  end.
  rewrite Hv, Hg, Hp. unfold feed.
  destruct ran as [fs'|e]; [destruct (FS_readFile outPath fs') as [o|e]|];
    try destruct (List.length inputPdf <? List.length o)%nat;
    cbn; rewrite ?app_nil_r; auto.
Qed.

(** The messages of a job whose engine was instantiated, and the globals
    it leaves: neither depends on the globals it finds. *)
Lemma settle_link_Ok : forall msg gs g,
  let jid := jobId msg in
  let printed := fst (engine_output number_toString gs (pdfBuffer msg) (options msg)) in
  let r := snd (engine_output number_toString gs (pdfBuffer msg) (options msg)) in
  let g1 := run_globals (feed printed) (job_start jid) in
  let larger := fun o : bytes => (List.length (pdfBuffer msg) <? List.length o)%nat in
  run_globals (settle_link number_toString msg (Ok gs)) g = initial_globals
  /\ run_posted (settle_link number_toString msg (Ok gs)) g
     = [MsgStatus jid (str "ready") (str "Ghostscript ready.");
        MsgProgress jid (Int 0) (Int 0) None;
        MsgStatus jid (str "running") (str "Compressing" ++ ellipsis)]
       ++ run_posted (feed printed) (job_start jid)
       ++ match r with
          | Ok o =>
              [MsgProgress jid (Int 100)
                 (nullish (totalPages g1) (currentPage g1)) (totalPages g1);
               MsgStatus jid (str "done")
                 (if larger o then str "Output larger; returned original."
                  else str "Done.");
               MsgResult jid (if larger o then pdfBuffer msg else o) (larger o)
                 (resolved_version (pdfBuffer msg))]
          | Throw e => [MsgError jid e]
          end.
Proof.
  intros msg gs g jid printed r g1 larger.
  destruct (shrink_run gs (pdfBuffer msg) (options msg) (job_start jid))
    as [Hp [Hg Hv]].
  fold printed in Hp, Hg. fold r in Hv. fold g1 in Hg.
  unfold run_posted, run_globals, run_value in *.
  cbv beta iota zeta delta
    [settle_link handleJob_resume try_finally catch_handler
     bind postStatus emitProgress postProgress postMessage
     set_activeJobId set_totalPages set_currentPage getGlobals ret
     activeJobId totalPages currentPage progress_percent].
  fold jid. change {| activeJobId := Some jid; totalPages := None;
                      currentPage := Int 0 |} with (job_start jid).
  destruct (shrinkPdfLikeScript number_toString gs (pdfBuffer msg) (options msg)
              (job_start jid)) as [[v g'] o'].
  cbn [fst snd] in Hp, Hg, Hv. subst v g' o'.
  destruct r as [o|e]; cbn; rewrite ?app_nil_r; split; reflexivity.
Qed.

Lemma settle_link_clean : forall msg created,
  run_globals (settle_link number_toString msg created) initial_globals
  = initial_globals.
Proof.
  intros msg [gs|e].
  - apply settle_link_Ok.
  - reflexivity.
Qed.


(** [run_job] is [handleJob(msg)] followed by the [.catch] handler. *)
Lemma run_job_handleJob : forall msg created g,
  run_job number_toString msg created g
  = (r <- handleJob number_toString msg created ;; catch_handler msg r) g.
Proof.
  intros msg created g. unfold run_job, handleJob, settle_link, bind.
  destruct (handleJob_begin msg g) as [[u g1] o1].
  destruct (handleJob_resume number_toString msg created g1) as [[r g2] o2].
  destruct (catch_handler msg r g2) as [[u' g3] o3].
  now rewrite app_assoc.
Qed.

(** A link posts one terminal message, for its own job, when it settles. *)
Lemma settle_link_terminals : forall msg created g,
  terminals (run_posted (settle_link number_toString msg created) g) = [jobId msg].
Proof.
  intros msg [gs|e] g.
  - destruct (settle_link_Ok msg gs g) as [_ ->].
    rewrite !terminals_app, (terminals_progress _ (feed_only_progress _ _)).
    destruct (snd (engine_output _ _ _ _)); reflexivity.
  - reflexivity.
Qed.

(** C1: for every job whose engine ran and whose output file was read
    back, if the output is strictly longer than the input the job's result
    carries exactly the input bytes with [usedOriginal = true], and
    otherwise (output at most as long as the input) it carries exactly the
    engine's output bytes with [usedOriginal = false]; this is what
    [shrinkPdfLikeScript] returns and what the one [result] message of the
    job holds. *)
Theorem fallback_policy : forall (gs : GSModule) (msg : CompressMsg)
    (printed : list jsstring) (engine_out : bytes) (g : Globals),
  engine_output number_toString gs (pdfBuffer msg) (options msg)
  = (printed, Ok engine_out) ->
  let larger := (List.length (pdfBuffer msg) <? List.length engine_out)%nat in
  let returned := if larger then pdfBuffer msg else engine_out in
  run_value (shrinkPdfLikeScript number_toString gs (pdfBuffer msg) (options msg)) g
  = Ok {| out := returned; usedOriginal := larger;
          pdfVersionUsed := resolved_version (pdfBuffer msg) |}
  /\ terminal_messages (run_posted (run_job number_toString msg (Ok gs)) g)
     = [MsgResult (jobId msg) returned larger (resolved_version (pdfBuffer msg))]
  /\ ((List.length (pdfBuffer msg) < List.length engine_out)%nat ->
      returned = pdfBuffer msg /\ larger = true)
  /\ ((List.length engine_out <= List.length (pdfBuffer msg))%nat ->
      returned = engine_out /\ larger = false).
Proof.
  intros gs msg printed engine_out g He larger returned.
  destruct (shrink_run gs (pdfBuffer msg) (options msg) g) as [_ [_ Hv]].
  rewrite He in Hv. cbn [snd] in Hv. split; [exact Hv|]. split.
  - unfold run_job.
    destruct (run_bind (handleJob_begin msg)
                (fun _ => settle_link number_toString msg (Ok gs)) g) as [_ [_ ->]].
    rewrite terminal_messages_app.
    destruct (settle_link_Ok msg gs (run_globals (handleJob_begin msg) g)) as [_ ->].
    rewrite He. cbn [snd fst].
    rewrite !terminal_messages_app.
    rewrite (terminal_messages_progress _ (feed_only_progress _ _)).
    reflexivity.
  - subst returned larger. split; intros H.
    + apply Nat.ltb_lt in H. rewrite H. auto.
    + apply Nat.ltb_ge in H. rewrite H. auto.
Qed.

(** ** The queue *)

Lemma step_invariant : forall rt rt',
  step number_toString rt rt' -> invariant rt -> invariant rt'.
Proof.
  intros rt rt' Hs [Hwf Hg Ht].
  destruct Hs as [[msg|] rt | pre msg post rt Hq Hlast
                 | line pre msg post rt Hq | created pre msg post rt Hq].
  - constructor; cbn [onmessage globals queue posted]; auto.
    + now apply well_formed_snoc.
    + rewrite settled_jobs_app. cbn. now rewrite app_nil_r.
  - now constructor.
  - rewrite Hq in *.
    destruct (well_formed_split pre _ post Hwf eq_refl (or_introl Hlast))
      as [Hpre Hpost].
    constructor; cbn [exec_worker globals queue posted].
    + now apply well_formed_build.
    + exact Hg.
    + rewrite terminals_app, Ht. cbn. rewrite app_nil_r.
      rewrite !settled_jobs_app. reflexivity.
  - constructor; cbn [exec_worker globals queue posted]; rewrite ?Hg; cbn; auto.
    now rewrite app_nil_r.
  - rewrite Hq in *.
    destruct (well_formed_split pre _ post Hwf eq_refl (or_intror eq_refl))
      as [Hpre Hpost].
    constructor; cbn [exec_worker globals queue posted].
    + now apply well_formed_build.
    + rewrite Hg. apply settle_link_clean.
    + rewrite terminals_app, Ht, settle_link_terminals.
      rewrite !settled_jobs_app.
      change (settled_jobs (mkLink msg Settled :: post))
        with (jobId msg :: settled_jobs post).
      change (settled_jobs (mkLink msg Loading :: post)) with (settled_jobs post).
      rewrite (settled_jobs_queued _ Hpost), app_nil_r. reflexivity.
Qed.

Lemma initial_invariant : invariant initial_runtime.
Proof. constructor; reflexivity. Qed.

Lemma steps_invariant : forall rt rt',
  steps number_toString rt rt' -> invariant rt -> invariant rt'.
Proof.
  induction 1 as [rt | rt1 rt2 rt3 _ IH Hs]; intros Hi; [exact Hi|].
  eapply step_invariant; eauto.
Qed.

Lemma reachable_invariant : forall rt,
  reachable number_toString rt -> invariant rt.
Proof. intros rt H. eapply steps_invariant; [exact H | apply initial_invariant]. Qed.

Lemma steps_trans : forall rt1 rt2 rt3,
  steps number_toString rt1 rt2 -> steps number_toString rt2 rt3 ->
  steps number_toString rt1 rt3.
Proof.
  intros rt1 rt2 rt3 H12 H23. induction H23 as [rt | a b c _ IH Hs]; [exact H12|].
  eapply steps_step; [apply IH; exact H12 | exact Hs].
Qed.

Lemma exec_worker_bind : forall c1 c2 q1 q2 rt,
  exec_worker c2 q2 (exec_worker c1 q1 rt) = exec_worker (c1 ;; c2) q2 rt.
Proof.
  intros c1 c2 q1 q2 rt. unfold exec_worker. cbn [globals queue posted].
  destruct (run_bind c1 (fun _ => c2) (globals rt)) as [_ [-> ->]].
  now rewrite app_assoc.
Qed.

Lemma exec_worker_ext : forall c c' q rt,
  run_globals c (globals rt) = run_globals c' (globals rt) ->
  run_posted c (globals rt) = run_posted c' (globals rt) ->
  exec_worker c q rt = exec_worker c' q rt.
Proof. intros c c' q rt Hg Hp. unfold exec_worker. now rewrite Hg, Hp. Qed.

Lemma exec_worker_ret : forall rt, exec_worker (ret tt) (queue rt) rt = rt.
Proof. intros [g q p]. unfold exec_worker. cbn. now rewrite app_nil_r. Qed.

(** Close a goal [steps a c] with [IH : steps a b], leaving [b = c]. *)
Ltac reach_by IH :=
  match type of IH with
  | steps _ _ ?st =>
      match goal with
      | |- steps _ _ ?tgt => replace tgt with st; [exact IH|]
      end
  end.

(** Draining is a run of the worker: each pending link is started when
    the one before it has settled, and settles with its engine. *)
Lemma drain_steps_from : forall created todo done rt,
  queue rt = done ++ todo ->
  forallb is_settled done = true ->
  invariant rt ->
  steps number_toString rt
    (exec_worker (drain_links number_toString created (List.length done) todo)
       (done ++ map settled_link todo) rt).
Proof.
  intros created todo. induction todo as [|l todo IH]; intros done rt Hq Hdone Hinv.
  - cbn. rewrite app_nil_r in *. rewrite <- Hq, exec_worker_ret. apply steps_refl.
  - assert (Hlen : forall x : Link, List.length (done ++ [x]) = S (List.length done))
      by (intros; rewrite length_app; cbn; lia).
    assert (Hpost : all_queued todo = true \/ is_settled l = true).
    { destruct (is_settled l) eqn:Hl; [now right | left].
      pose proof (inv_shape Hinv) as Hwf. rewrite Hq in Hwf.
      clear - Hwf Hl Hdone. induction done as [|a done IHd].
      - cbn in Hwf. now rewrite Hl in Hwf.
      - cbn in *. apply andb_true_iff in Hdone as [Ha Hd]. rewrite Ha in Hwf. auto. }
    assert (Hd' : forall msg, forallb is_settled (done ++ [mkLink msg Settled]) = true)
      by (intros; rewrite forallb_app, Hdone; reflexivity).
    cbn [drain_links map]. destruct l as [msg st]. unfold finish_link.
    cbn [link_state link_msg]. destruct st.
    + (* queued: its callback runs, then its engine settles *)
      destruct Hpost as [Hpost|]; [|discriminate].
      pose proof (step_start number_toString done msg todo rt Hq
                    (settled_last _ Hdone)) as S1.
      set (rt0 := exec_worker (handleJob_begin msg)
                    (done ++ mkLink msg Loading :: todo) rt) in *.
      pose proof (step_settle number_toString (created (List.length done))
                    done msg todo rt0 eq_refl) as S2.
      set (rt1 := exec_worker _ _ rt0) in *.
      assert (Hinv1 : invariant rt1).
      { eapply step_invariant; [exact S2|]. eapply step_invariant; eauto. }
      specialize (IH (done ++ [mkLink msg Settled]) rt1).
      rewrite Hlen, <- !app_assoc in IH. cbn [app] in IH.
      specialize (IH eq_refl (Hd' msg) Hinv1).
      eapply steps_trans;
        [eapply steps_step; [eapply steps_step; [apply steps_refl | exact S1]
                            | exact S2]|].
      reach_by IH.
      unfold rt1, rt0. rewrite !exec_worker_bind.
      apply exec_worker_ext; unfold run_job; symmetry; apply bind_assoc_run.
    + (* loading: its engine settles *)
      destruct Hpost as [Hpost|]; [|discriminate].
      pose proof (step_settle number_toString (created (List.length done))
                    done msg todo rt Hq) as S2.
      set (rt1 := exec_worker _ _ rt) in *.
      assert (Hinv1 : invariant rt1) by (eapply step_invariant; eauto).
      specialize (IH (done ++ [mkLink msg Settled]) rt1).
      rewrite Hlen, <- !app_assoc in IH. cbn [app] in IH.
      specialize (IH eq_refl (Hd' msg) Hinv1).
      eapply steps_trans; [eapply steps_step; [apply steps_refl | exact S2]|].
      reach_by IH.
      unfold rt1. now rewrite exec_worker_bind.
    + (* settled already *)
      specialize (IH (done ++ [mkLink msg Settled]) rt).
      rewrite Hlen, <- !app_assoc in IH. cbn [app] in IH.
      specialize (IH Hq (Hd' msg) Hinv).
      erewrite exec_worker_ext; [exact IH | |]; apply bind_ret_run.
Qed.

Lemma drain_steps : forall created rt,
  reachable number_toString rt ->
  steps number_toString rt (drain number_toString created rt).
Proof.
  intros created rt Hr.
  apply (@drain_steps_from created (queue rt) [] rt eq_refl eq_refl).
  now apply reachable_invariant.
Qed.

Lemma drain_reachable : forall created rt,
  reachable number_toString rt ->
  reachable number_toString (drain number_toString created rt).
Proof.
  intros created rt Hr. unfold reachable in *.
  eapply steps_trans; [exact Hr | now apply drain_steps].
Qed.





(** C9: between any two tasks of the worker, and so whenever the next
    queued job starts, the progress state ([activeJobId], [totalPages],
    [currentPage]) is (null, null, 0).  A job whose engine was instantiated
    resets it at its end whether it ends in [done] or in [failed], whatever
    it found; a job whose engine failed to load never set it. *)
Theorem progress_state_reset_after_job : forall rt : Runtime,
  reachable number_toString rt ->
  globals rt = initial_globals
  /\ (forall msg gs g,
        run_globals (settle_link number_toString msg (Ok gs)) g = initial_globals)
  /\ (forall msg e,
        run_globals (settle_link number_toString msg (Throw e)) (globals rt)
        = initial_globals).
Proof.
  intros rt Hr. pose proof (reachable_invariant Hr) as Hinv.
  split; [apply Hinv|]. split.
  - intros msg gs g. apply settle_link_Ok.
  - intros msg e. cbn. apply Hinv.
Qed.

End JobProperties.

(* ================================================================== *)
(** * Further properties of the worker, the caller and the page *)

(** ** The patterns of the log lines *)

Lemma exec_Rep : forall ci cls lo g p s k,
  exec ci (Rep cls lo g :: p) s k = rep cls lo g (exec ci p) 0 s k.
Proof. reflexivity. Qed.

(** A repetition is greedy, and where the rest of the pattern cannot start
    with a character of the class there is nothing to give back: it takes
    the whole run of the class. *)
Lemma rep_exact : forall cls lo g next,
  (forall x s k, cls x = true -> next (x :: s) k = None) ->
  forall ws rest n k,
  forallb cls ws = true -> stops cls rest ->
  rep cls lo g next n (ws ++ rest) k
  = if (lo <=? n + List.length ws)%nat then next rest (push_all g ws k) else None.
Proof.
  intros cls lo g next Hnext ws. induction ws as [|w ws IH]; intros rest n k Hws Hrest.
  - cbn [app List.length push_all fold_left]. rewrite Nat.add_0_r.
    destruct rest as [|x rest]; cbn [rep]; [reflexivity|].
    cbn in Hrest. rewrite Hrest. reflexivity.
  - cbn in Hws. apply andb_true_iff in Hws as [Hw Hws].
    cbn [app rep]. rewrite Hw, (IH rest (S n) (push g w k) Hws Hrest).
    cbn [List.length push_all fold_left]. rewrite Nat.add_succ_r. cbn [Nat.add].
    destruct (lo <=? S (n + List.length ws))%nat.
    + fold (push_all g ws (push g w k)).
      destruct (next rest (push_all g ws (push g w k))); [reflexivity|].
      rewrite (Hnext w _ k Hw). now destruct (lo <=? n)%nat.
    + rewrite (Hnext w _ k Hw). now destruct (lo <=? n)%nat.
Qed.

Lemma span : forall (cls : Z -> bool) s,
  exists ws rest, s = ws ++ rest /\ forallb cls ws = true /\ stops cls rest.
Proof.
  intros cls s. induction s as [|x s [ws [rest [-> [Hws Hr]]]]].
  - exists [], []. now repeat split.
  - destruct (cls x) eqn:Hx.
    + exists (x :: ws), rest. repeat split; auto. cbn. now rewrite Hx.
    + exists [], (x :: ws ++ rest). repeat split; auto.
Qed.

Lemma push_all_G0 : forall xs k, push_all G0 xs k = k.
Proof. induction xs as [|x xs IH]; intros k; [reflexivity | apply IH]. Qed.

Lemma push_all_G1 : forall xs a b, push_all G1 xs (a, b) = (a ++ xs, b).
Proof.
  induction xs as [|x xs IH]; intros a b; cbn.
  - now rewrite app_nil_r.
  - change (fold_left _ xs ?k) with (push_all G1 xs k). rewrite IH.
    now rewrite <- app_assoc.
Qed.

Lemma push_all_G2 : forall xs a b, push_all G2 xs (a, b) = (a, b ++ xs).
Proof.
  induction xs as [|x xs IH]; intros a b; cbn.
  - now rewrite app_nil_r.
  - change (fold_left _ xs ?k) with (push_all G2 xs k). rewrite IH.
    now rewrite <- app_assoc.
Qed.

Lemma space_canon : forall x, space x = true -> canon x = x /\ (x < 48 \/ 122 < x).
Proof.
  intros x H. unfold space in H. unfold canon.
  repeat rewrite ?orb_true_iff, ?andb_true_iff in H.
  rewrite ?Z.leb_le, ?Z.eqb_eq in H.
  assert (x < 48 \/ 122 < x) by lia. split; [|assumption].
  destruct (Z.leb_spec 97 x), (Z.leb_spec x 122); cbn; lia.
Qed.

Lemma digit_canon : forall x, digit x = true -> canon x = x /\ 48 <= x <= 57.
Proof.
  intros x H. unfold digit in H. apply andb_true_iff in H as [H1 H2].
  apply Z.leb_le in H1, H2. unfold canon.
  destruct (Z.leb_spec 97 x), (Z.leb_spec x 122); cbn; lia.
Qed.

Lemma space_not_digit : forall x, space x = true -> digit x = false.
Proof.
  intros x H. apply space_canon in H as [_ H]. unfold digit.
  destruct (Z.leb_spec 48 x), (Z.leb_spec x 57); cbn; lia.
Qed.

Lemma digit_not_space : forall x, digit x = true -> space x = false.
Proof.
  intros x H. destruct (space x) eqn:Hs; [|reflexivity].
  apply space_not_digit in Hs. congruence.
Qed.

(** A letter of a pattern does not match white space. *)
Lemma letter_not_space : forall c x,
  65 <= canon c <= 90 -> space x = true -> same true c x = false.
Proof.
  intros c x Hc Hx. apply space_canon in Hx as [Hx Hr]. unfold same.
  rewrite Hx. apply Z.eqb_neq. lia.
Qed.

Lemma exec_Chr_mismatch : forall ci c g p x s k,
  same ci c x = false -> exec ci (Chr c g :: p) (x :: s) k = None.
Proof. intros. cbn. now rewrite H. Qed.

Lemma exec_Rep_mismatch : forall ci cls lo g p x s k,
  cls x = false -> (1 <= lo)%nat -> exec ci (Rep cls lo g :: p) (x :: s) k = None.
Proof.
  intros ci cls lo g p x s k Hx Hlo. rewrite exec_Rep. cbn. rewrite Hx.
  destruct lo; [lia | reflexivity].
Qed.

(** A literal word at the head of a pattern, letter case ignored. *)
Lemma exec_lit : forall w p s k r,
  exec true (map (fun c => Chr c G0) w ++ p) s k = Some r
  <-> exists word rest,
        s = word ++ rest /\ map canon word = map canon w
        /\ exec true p rest k = Some r.
Proof.
  induction w as [|c w IH]; intros p s k r.
  - cbn [map app]. split.
    + intros H. exists [], s. auto.
    + intros [word [rest [-> [Hw H]]]]. destruct word; [exact H | discriminate].
  - cbn [map app exec]. split.
    + destruct s as [|x s]; [discriminate|].
      destruct (same true c x) eqn:Hx; [|discriminate].
      intros H. apply IH in H as [word [rest [-> [Hw H]]]].
      exists (x :: word), rest. repeat split; auto.
      cbn. unfold same in Hx. apply Z.eqb_eq in Hx. now rewrite Hw, Hx.
    + intros [word [rest [-> [Hw H]]]].
      destruct word as [|x word]; [discriminate|].
      cbn in Hw. injection Hw as Hx Hw. cbn [app].
      unfold same. rewrite Hx, Z.eqb_refl. cbn [push].
      apply IH. exists word, rest. auto.
Qed.

Lemma dot_same : forall x, same true 46 x = true <-> x = 46.
Proof.
  intros x. unfold same. change (canon 46) with 46. unfold canon.
  destruct (Z.leb_spec 97 x), (Z.leb_spec x 122); cbn [andb];
    rewrite Z.eqb_eq; lia.
Qed.

Lemma dot_not_digit : forall x, digit x = true -> same true 46 x = false.
Proof.
  intros x Hx. destruct (same true 46 x) eqn:H; [|reflexivity].
  apply dot_same in H. subst x. discriminate.
Qed.

Lemma stops_digits : forall ds rest,
  forallb digit ds = true -> ds <> [] -> stops space (ds ++ rest).
Proof.
  intros [|d ds] rest H Hne; [congruence|]. cbn in *.
  apply andb_true_iff in H as [H _]. now apply digit_not_space.
Qed.

Lemma stops_spaces : forall ws rest,
  forallb space ws = true -> ws <> [] -> stops digit (ws ++ rest).
Proof.
  intros [|w ws] rest H Hne; [congruence|]. cbn in *.
  apply andb_true_iff in H as [H _]. now apply space_not_digit.
Qed.

Lemma stops_word : forall word w c rest,
  map canon word = c :: w -> 65 <= c <= 90 ->
  stops space (word ++ rest) /\ stops digit (word ++ rest).
Proof.
  intros [|x word] w c rest H Hc; [discriminate|]. cbn in *.
  injection H as Hx _. split.
  - destruct (space x) eqn:Hs; [|reflexivity].
    apply space_canon in Hs as [Hs Hr]. lia.
  - destruct (digit x) eqn:Hs; [|reflexivity].
    apply digit_canon in Hs as [Hs Hr]. lia.
Qed.

Lemma nonempty_length : forall (xs : jsstring), xs <> [] -> (1 <=? 0 + List.length xs)%nat = true.
Proof. intros [|x xs] H; [congruence | reflexivity]. Qed.

Lemma exec_page : forall line m,
  regex_match re_page line = Some m <-> page_line line (fst m) /\ snd m = [].
Proof.
  intros line m. unfold regex_match, re_page. cbn [anchored ignoreCase atoms].
  cbn [app]. rewrite exec_Rep.
  split.
  - destruct (span space line) as [ws1 [rest1 [-> [Hws1 Hr1]]]].
    rewrite rep_exact; auto.
    2:{ intros x s k Hx. apply exec_Chr_mismatch, letter_not_space; auto.
        cbn; lia. }
    cbn [Nat.leb]. rewrite push_all_G0.
    change (lit "Page" ++ ?p) with (map (fun c => Chr c G0) (str "Page") ++ p).
    intros H. apply exec_lit in H as [word [rest2 [-> [Hword H]]]].
    rewrite exec_Rep in H.
    destruct (span space rest2) as [ws2 [rest3 [-> [Hws2 Hr3]]]].
    rewrite rep_exact in H; auto.
    2:{ intros x s k Hx. apply exec_Rep_mismatch; auto.
        now apply space_not_digit. }
    destruct ws2 as [|w ws2]; [discriminate|].
    cbn [List.length Nat.add Nat.leb] in H. rewrite push_all_G0 in H.
    rewrite exec_Rep in H.
    destruct (span digit rest3) as [ds [rest4 [-> [Hds Hr4]]]].
    rewrite rep_exact in H; auto.
    2:{ intros x s k Hx. rewrite exec_Rep. cbn.
        rewrite (digit_not_space _ Hx). reflexivity. }
    destruct ds as [|d ds]; [discriminate|].
    cbn [List.length Nat.add Nat.leb] in H. rewrite push_all_G1 in H.
    rewrite exec_Rep in H.
    destruct (span space rest4) as [ws3 [rest5 [-> [Hws3 Hr5]]]].
    rewrite rep_exact in H; auto.
    cbn [Nat.leb] in H. rewrite push_all_G0 in H.
    destruct rest5 as [|y rest5]; [|discriminate]. cbn in H.
    injection H as <-. cbn [fst snd]. split; [|reflexivity].
    exists ws1, word, (w :: ws2), ws3. rewrite app_nil_r.
    repeat split; auto; discriminate.
  - intros [[ws1 [word [ws2 [ws3 [-> [Hws1 [Hword [Hws2 [Hne2 [Hds [Hne Hws3]]]]]]]]]]] Hsnd].
    destruct m as [m1 m2]. cbn [fst snd] in *. subst m2.
    assert (Hhead : stops space (word ++ ws2 ++ m1 ++ ws3)).
    { destruct word as [|c word]; [discriminate|]. cbn in Hword |- *.
      injection Hword as Hc _. destruct (space c) eqn:Hs; [|reflexivity].
      apply space_canon in Hs as [Hs Hr]. lia. }
    rewrite rep_exact; auto.
    2:{ intros x s k Hx. apply exec_Chr_mismatch, letter_not_space; auto.
        cbn; lia. }
    cbn [Nat.leb]. rewrite push_all_G0.
    change (lit "Page" ++ ?p) with (map (fun c => Chr c G0) (str "Page") ++ p).
    apply exec_lit. exists word, (ws2 ++ m1 ++ ws3). repeat split; auto.
    rewrite exec_Rep, rep_exact; auto.
    2:{ intros x s k Hx. apply exec_Rep_mismatch; auto.
        now apply space_not_digit. }
    2:{ destruct m1 as [|d m1]; [congruence|]. cbn in Hds |- *.
        apply andb_true_iff in Hds as [Hd _]. now apply digit_not_space. }
    destruct ws2 as [|w ws2]; [congruence|].
    cbn [List.length Nat.add Nat.leb]. rewrite push_all_G0.
    rewrite exec_Rep, rep_exact; auto.
    2:{ intros x s k Hx. rewrite exec_Rep. cbn.
        rewrite (digit_not_space _ Hx). reflexivity. }
    2:{ destruct ws3 as [|y ws3]; [exact I|]. cbn in Hws3 |- *.
        apply andb_true_iff in Hws3 as [Hy _]. now apply space_not_digit. }
    destruct m1 as [|d m1]; [congruence|].
    cbn [List.length Nat.add Nat.leb]. rewrite push_all_G1. cbn [app].
    rewrite <- (app_nil_r ws3) at 1.
    rewrite exec_Rep, rep_exact; auto.
    + cbn [Nat.leb]. rewrite push_all_G0. reflexivity.
    + exact I.
Qed.

Lemma exec_total : forall s m,
  exec true (atoms re_total) s ([], []) = Some m <-> total_here s (fst m) (snd m).
Proof.
  intros s m. unfold re_total. cbn [atoms]. unfold lit. split.
  - intros H. apply exec_lit in H as [w1 [r1 [-> [Hw1 H]]]].
    cbn [app] in H. rewrite exec_Rep in H.
    destruct (span space r1) as [ws1 [r2 [-> [Hws1 Hr2]]]].
    rewrite rep_exact in H; auto.
    2:{ intros x s k Hx. apply exec_Rep_mismatch; auto. now apply space_not_digit. }
    destruct (1 <=? 0 + List.length ws1)%nat eqn:Hn1; [|discriminate].
    rewrite push_all_G0, exec_Rep in H.
    destruct (span digit r2) as [a [r3 [-> [Ha Hr3]]]].
    rewrite rep_exact in H; auto.
    2:{ intros x s k Hx. apply exec_Rep_mismatch; auto. now apply digit_not_space. }
    destruct (1 <=? 0 + List.length a)%nat eqn:Hn2; [|discriminate].
    rewrite push_all_G1, exec_Rep in H.
    destruct (span space r3) as [ws2 [r4 [-> [Hws2 Hr4]]]].
    rewrite rep_exact in H; auto.
    2:{ intros x s k Hx. apply exec_Chr_mismatch, letter_not_space; auto. cbn; lia. }
    destruct (1 <=? 0 + List.length ws2)%nat eqn:Hn3; [|discriminate].
    rewrite push_all_G0 in H.
    apply exec_lit in H as [w2 [r5 [-> [Hw2 H]]]].
    rewrite exec_Rep in H.
    destruct (span space r5) as [ws3 [r6 [-> [Hws3 Hr6]]]].
    rewrite rep_exact in H; auto.
    2:{ intros x s k Hx. apply exec_Rep_mismatch; auto. now apply space_not_digit. }
    destruct (1 <=? 0 + List.length ws3)%nat eqn:Hn4; [|discriminate].
    rewrite push_all_G0, exec_Rep in H.
    destruct (span digit r6) as [b [r7 [-> [Hb Hr7]]]].
    rewrite rep_exact in H; auto.
    2:{ intros x s k Hx. apply exec_Chr_mismatch. now apply dot_not_digit. }
    destruct (1 <=? 0 + List.length b)%nat eqn:Hn5; [|discriminate].
    rewrite push_all_G2 in H. cbn [app exec] in H.
    destruct r7 as [|c rest]; [discriminate|].
    destruct (same true 46 c) eqn:Hc; [|discriminate].
    apply dot_same in Hc. subst c. injection H as <-. cbn [fst snd push].
    exists w1, ws1, ws2, w2, ws3, rest.
    repeat split; auto; intros ->; discriminate.
  - destruct m as [a b]. cbn [fst snd].
    intros [w1 [ws1 [ws2 [w2 [ws3 [rest [-> [Hw1 [Hws1 [Hn1 [Ha [Hn2 [Hws2 [Hn3
             [Hw2 [Hws3 [Hn4 [Hb Hn5]]]]]]]]]]]]]]]]]].
    apply exec_lit. exists w1, (ws1 ++ a ++ ws2 ++ w2 ++ ws3 ++ b ++ 46 :: rest).
    repeat split; auto.
    cbn [app]. rewrite exec_Rep, rep_exact; auto.
    2:{ intros x s k Hx. apply exec_Rep_mismatch; auto. now apply space_not_digit. }
    2:{ now apply stops_digits. }
    rewrite (nonempty_length Hn1), push_all_G0, exec_Rep, rep_exact; auto.
    2:{ intros x s k Hx. apply exec_Rep_mismatch; auto. now apply digit_not_space. }
    2:{ now apply stops_spaces. }
    rewrite (nonempty_length Hn2), push_all_G1, exec_Rep, rep_exact; auto.
    2:{ intros x s k Hx. apply exec_Chr_mismatch, letter_not_space; auto. cbn; lia. }
    2:{ exact (proj1 (@stops_word w2 (str "HROUGH") 84 _ Hw2 ltac:(lia))). }
    rewrite (nonempty_length Hn3), push_all_G0.
    apply exec_lit. exists w2, (ws3 ++ b ++ 46 :: rest). repeat split; auto.
    rewrite exec_Rep, rep_exact; auto.
    2:{ intros x s k Hx. apply exec_Rep_mismatch; auto. now apply space_not_digit. }
    2:{ now apply stops_digits. }
    rewrite (nonempty_length Hn4), push_all_G0, exec_Rep, rep_exact; auto.
    2:{ intros x s k Hx. apply exec_Chr_mismatch. now apply dot_not_digit. }
    2:{ reflexivity. }
    rewrite (nonempty_length Hn5), push_all_G2. reflexivity.
Qed.

Lemma search_unfold : forall ci p s,
  search ci p s
  = match exec ci p s ([], []) with
    | Some k => Some k
    | None => match s with [] => None | _ :: s' => search ci p s' end
    end.
Proof. intros ci p [|x s]; reflexivity. Qed.

Lemma search_total : forall line m,
  regex_match re_total line = Some m <-> total_in line (fst m) (snd m).
Proof.
  intros line m. unfold regex_match. cbn [anchored ignoreCase re_total].
  change (lit "Processing pages" ++ _) with (atoms re_total).
  split.
  - induction line as [|c line IH]; rewrite search_unfold;
      destruct (exec true (atoms re_total) _ ([], [])) as [k|] eqn:He.
    + intros [= <-]. now apply total_found, exec_total.
    + discriminate.
    + intros [= <-]. now apply total_found, exec_total.
    + intros H. apply total_later; [|auto].
      intros a' b' Hh. apply (exec_total (c :: line) (a', b')) in Hh. congruence.
  - intros H. destruct m as [a b]. cbn [fst snd] in H.
    induction H as [s a b H | c s a b Hno H IH]; rewrite search_unfold.
    + apply (exec_total s (a, b)) in H. now rewrite H.
    + destruct (exec true (atoms re_total) (c :: s) ([], [])) as [[a' b']|] eqn:He.
      * apply (exec_total (c :: s) (a', b')) in He. now apply Hno in He.
      * exact IH.
Qed.

(** X1: the pattern [/^\s*Page\s+(\d+)\s*$/i] of [parseGsLine] matches a
    line exactly when the line is, from its first to its last character,
    optional white space, the word [Page] in any letter case, white space,
    one or more decimal digits and optional white space; the first capture
    group is then the whole run of digits.  It matches nothing else. *)
Theorem re_page_spec : forall (line : jsstring) (m : captures),
  (regex_match re_page line = Some m <-> page_line line (fst m) /\ snd m = [])
  /\ (regex_match re_page line = None <-> forall ds, ~ page_line line ds).
Proof.
  intros line m. split; [apply exec_page|]. split.
  - intros Hn ds Hp.
    assert (H : regex_match re_page line = Some (ds, [])) by (apply exec_page; auto).
    congruence.
  - intros Hno. destruct (regex_match re_page line) as [k|] eqn:Hk; [|reflexivity].
    apply exec_page in Hk as [Hk _]. now apply Hno in Hk.
Qed.

(** X2: the pattern [/Processing pages\s+(\d+)\s+through\s+(\d+)\./i]
    matches a line exactly when the line contains, at some index and in
    any letter case, [Processing pages], white space, digits, white space,
    [through], white space, digits and a dot; the two capture groups are
    the two runs of digits of the leftmost such occurrence.  What precedes
    and what follows the occurrence is not looked at. *)
Theorem re_total_spec : forall (line : jsstring) (m : captures),
  (regex_match re_total line = Some m <-> total_in line (fst m) (snd m))
  /\ (regex_match re_total line = None <-> forall a b, ~ total_in line a b).
Proof.
  intros line m. split; [apply search_total|]. split.
  - intros Hn a b Hp. apply (search_total line (a, b)) in Hp. congruence.
  - intros Hno. destruct (regex_match re_total line) as [k|] eqn:Hk; [|reflexivity].
    apply search_total in Hk. now apply Hno in Hk.
Qed.

(** ** Lines of the engine and the progress parser *)

Lemma total_in_letter : forall line a b,
  total_in line a b -> exists x, In x line /\ canon x = 82.
Proof.
  induction 1 as [s a b H | c s a b _ _ [x [Hx Hc]]].
  - destruct H as [w1 [ws1 [ws2 [w2 [ws3 [rest [-> [Hw1 _]]]]]]]].
    destruct w1 as [|c1 [|c2 w1]]; try discriminate.
    injection Hw1 as _ H2 _. exists c2. split; [|exact H2].
    cbn. auto.
  - exists x. split; [now right | exact Hc].
Qed.

Lemma page_line_letters : forall line ds x,
  page_line line ds -> In x line -> canon x <> 82.
Proof.
  intros line ds x [ws1 [word [ws2 [ws3 [-> [Hws1 [Hword [Hws2 [_ [Hds [_ Hws3]]]]]]]]]]] Hin.
  assert (Hsp : forall ws, forallb space ws = true -> In x ws -> canon x <> 82).
  { intros ws Hws Hx. rewrite forallb_forall in Hws.
    destruct (space_canon _ (Hws x Hx)) as [-> ?]. lia. }
  rewrite !in_app_iff in Hin. destruct Hin as [H|[H|[H|[H|H]]]]; eauto.
  - apply (in_map canon) in H. rewrite Hword in H. cbn in H.
    intuition lia.
  - rewrite forallb_forall in Hds.
    destruct (digit_canon _ (Hds x H)) as [-> ?]. lia.
Qed.

Lemma page_line_not_total : forall line ds,
  page_line line ds -> regex_match re_total line = None.
Proof.
  intros line ds Hp. destruct (regex_match re_total line) as [m|] eqn:Hm; [|reflexivity].
  apply search_total, total_in_letter in Hm as [x [Hin Hx]].
  exfalso. exact (@page_line_letters line ds x Hp Hin Hx).
Qed.

(** X3: no line matches both patterns of [parseGsLine]: a line that the
    [Page] pattern matches is not matched by the [Processing pages]
    pattern, so the [return] that ends the first branch never keeps a page
    line from being read. *)
Theorem patterns_exclusive : forall line,
  regex_match re_page line <> None -> regex_match re_total line = None.
Proof.
  intros line H. destruct (regex_match re_page line) as [m|] eqn:Hm; [|congruence].
  apply exec_page in Hm as [Hm _]. eapply page_line_not_total; eauto.
Qed.

Lemma parseGsLine_page : forall line ds g j rest,
  page_line line ds -> activeJobId g = Some (j :: rest) ->
  parseGsLine line g
  = if isFinite (Number ds) && gtb (Number ds) (currentPage g) then
      let t := if is_null (totalPages g) && JsNum.eqb (Number ds) (Int 1)
               then Some (Int 1) else totalPages g in
      (tt,
       {| activeJobId := Some (j :: rest); totalPages := t;
          currentPage := Number ds |},
       [MsgProgress (j :: rest) (progress_percent (Number ds) t) (Number ds) t])
    else (tt, g, []).
Proof.
  intros line ds [a t c] j rest Hp Ha. cbn in Ha. subst a.
  pose proof (page_line_not_total Hp) as Ht.
  assert (Hm : regex_match re_page line = Some (ds, [])).
  { apply exec_page. auto. }
  unfold parseGsLine. cbv [bind getGlobals]. cbn [activeJobId totalPages currentPage].
  rewrite Ht, Hm. cbn [fst].
  destruct (isFinite (Number ds) && gtb (Number ds) c); [|reflexivity].
  destruct (is_null t && JsNum.eqb (Number ds) (Int 1)); reflexivity.
Qed.

Lemma parseGsLine_total : forall line a b g j rest,
  total_in line a b -> activeJobId g = Some (j :: rest) ->
  parseGsLine line g
  = if isFinite (Number a) && isFinite (Number b) && geb (Number b) (Number a) then
      let t := Some (add (sub (Number b) (Number a)) (Int 1)) in
      (tt,
       {| activeJobId := Some (j :: rest); totalPages := t;
          currentPage := currentPage g |},
       [MsgProgress (j :: rest) (progress_percent (currentPage g) t) (currentPage g) t])
    else (tt, g, []).
Proof.
  intros line a b [ac t c] j rest Hp Ha. cbn in Ha. subst ac.
  assert (Hm : regex_match re_total line = Some (a, b)) by now apply search_total.
  unfold parseGsLine. cbv [bind getGlobals]. cbn [activeJobId totalPages currentPage].
  rewrite Hm. cbn [fst snd].
  destruct (isFinite (Number a) && isFinite (Number b) && geb (Number b) (Number a));
    reflexivity.
Qed.

Lemma parseGsLine_inactive : forall line g,
  activeJobId g = None \/ activeJobId g = Some [] -> parseGsLine line g = (tt, g, []).
Proof.
  intros line [a t c] [H|H]; cbn in H; subst a; reflexivity.
Qed.

Lemma active_cases : forall g,
  (activeJobId g = None \/ activeJobId g = Some [])
  \/ exists j rest, activeJobId g = Some (j :: rest).
Proof.
  intros [[[|j rest]|] t c]; cbn; eauto.
Qed.

Lemma round64_int53 : forall z, Z.abs z < 2 ^ 53 -> round64 z = Int z.
Proof.
  intros z Hz. unfold round64.
  replace (Z.log2 (Z.abs z) + 1 - prec <=? 0) with true; [reflexivity|].
  symmetry. apply Z.leb_le. unfold prec.
  destruct (Z.eq_dec (Z.abs z) 0) as [->|Hn]; [cbn; lia|].
  assert (Z.log2 (Z.abs z) < 53) by (apply Z.log2_lt_pow2; lia). lia.
Qed.

Lemma round64_le53 : forall z, 0 <= z <= 2 ^ 53 -> round64 z = Int z.
Proof.
  intros z Hz. destruct (Z.eq_dec z (2 ^ 53)) as [->|Hn].
  - reflexivity.
  - apply round64_int53. lia.
Qed.

Lemma round64_huge : forall z, 2 ^ 1024 <= z -> round64 z = Infinity false.
Proof.
  intros z Hz. assert (H0 : 0 < z) by (pose proof (Z.pow_pos_nonneg 2 1024); lia).
  unfold round64. rewrite Z.abs_eq by lia.
  assert (Hl : 1024 <= Z.log2 z) by (apply Z.log2_le_pow2; lia).
  set (sh := Z.log2 z + 1 - prec).
  assert (Hsh : 0 < sh) by (unfold sh, prec; lia).
  replace (sh <=? 0) with false by (symmetry; apply Z.leb_gt; lia).
  cbv zeta.
  set (q := Z.shiftr z sh).
  assert (Hp : 0 < 2 ^ sh) by (apply Z.pow_pos_nonneg; lia).
  assert (Hq : 2 ^ 52 <= q).
  { unfold q. rewrite Z.shiftr_div_pow2 by lia.
    apply Z.div_le_lower_bound; [lia|].
    rewrite Z.mul_comm, <- Z.pow_add_r by lia.
    replace (52 + sh) with (Z.log2 z) by (unfold sh, prec; lia).
    apply Z.log2_spec; lia. }
  match goal with
  | |- context [Z.shiftl (if ?c then q + 1 else q) sh] =>
      set (q' := if c then q + 1 else q)
  end.
  assert (Hq' : q <= q') by (unfold q'; match goal with |- _ <= (if ?c then _ else _) => destruct c end; lia).
  replace (Z.shiftl 1 emax <=? Z.shiftl q' sh) with true.
  - replace (z <? 0) with false by (symmetry; apply Z.ltb_ge; lia). reflexivity.
  - symmetry. apply Z.leb_le.
    rewrite !Z.shiftl_mul_pow2 by (unfold emax; lia). rewrite Z.mul_1_l.
    transitivity (2 ^ 52 * 2 ^ sh).
    + rewrite <- Z.pow_add_r by lia. apply Z.pow_le_mono_r; unfold emax, sh, prec; lia.
    + apply Z.mul_le_mono_nonneg_r; lia.
Qed.

Lemma decimal_nonneg : forall ds, forallb digit ds = true -> 0 <= decimal ds.
Proof.
  intros ds. unfold decimal.
  assert (H : forall acc, 0 <= acc -> forallb digit ds = true ->
              0 <= fold_left (fun acc c => 10 * acc + digit_val c) ds acc).
  { induction ds as [|d ds IH]; intros acc Hacc Hds; [exact Hacc|].
    cbn in Hds. apply andb_true_iff in Hds as [Hd Hds].
    cbn [fold_left]. apply IH; [|exact Hds].
    apply digit_canon in Hd as [_ Hd]. unfold digit_val. lia. }
  apply H. lia.
Qed.

Lemma total_in_digits : forall line a b,
  total_in line a b -> forallb digit a = true /\ forallb digit b = true.
Proof.
  induction 1 as [s a b H | c s a b _ _ IH]; [|exact IH].
  destruct H as [w1 [ws1 [ws2 [w2 [ws3 [rest H]]]]]]. intuition.
Qed.

(** X4: one call of [parseGsLine] never changes [activeJobId], and either
    changes nothing and posts nothing, or posts exactly one message: a
    progress event that carries the identifier of the active job (which is
    then not the empty string), the page count and total as they are after
    the call, and the percent [emitProgress] computes from these.  The
    second case needs a line that one of the two patterns matches. *)
Theorem parseGsLine_posts_at_most_one_event : forall (line : jsstring) (g : Globals),
  let g' := run_globals (parseGsLine line) g in
  let posted := run_posted (parseGsLine line) g in
  activeJobId g' = activeJobId g
  /\ ((posted = [] /\ g' = g)
      \/ (exists j rest,
            activeJobId g = Some (j :: rest)
            /\ posted = [MsgProgress (j :: rest)
                           (progress_percent (currentPage g') (totalPages g'))
                           (currentPage g') (totalPages g')]
            /\ (regex_match re_total line <> None
                \/ regex_match re_page line <> None))).
Proof.
  intros line [a t c].
  unfold run_globals, run_posted, parseGsLine.
  cbv [bind getGlobals]. cbn [activeJobId totalPages currentPage].
  destruct a as [[|j jid]|]; try (cbn; split; [reflexivity | left; split; reflexivity]).
  destruct (regex_match re_total line) as [m|] eqn:Ht.
  - destruct (isFinite (Number (fst m)) && isFinite (Number (snd m))
              && geb (Number (snd m)) (Number (fst m))) eqn:Hc.
    + cbn. split; [reflexivity|]. right. exists j, jid.
      repeat split. left. discriminate.
    + cbn. split; [reflexivity | left; split; reflexivity].
  - destruct (regex_match re_page line) as [m|] eqn:Hp;
      try (cbn; split; [reflexivity | left; split; reflexivity]).
    destruct (isFinite (Number (fst m)) && gtb (Number (fst m)) c) eqn:Hc;
      try (cbn; split; [reflexivity | left; split; reflexivity]).
    destruct (is_null t && JsNum.eqb (Number (fst m)) (Int 1)) eqn:Hn;
      cbn; (split; [reflexivity|]); right; exists j, jid;
      repeat split; right; discriminate.
Qed.

(** X5: a [Page] line whose number is not above [currentPage], a page
    that was reported before or one out of order, is ignored: no variable
    changes and nothing is posted. *)
Theorem stale_page_line_is_ignored : forall (line ds : jsstring) (g : Globals) (p c : Z),
  page_line line ds -> Number ds = Int p -> currentPage g = Int c -> p <= c ->
  parseGsLine line g = (tt, g, []).
Proof.
  intros line ds g p c Hl Hp Hc Hle.
  destruct (active_cases g) as [H|[j [rest H]]].
  - now apply parseGsLine_inactive.
  - rewrite (parseGsLine_page _ Hl H), Hp, Hc. cbn.
    replace (c <? p) with false by (symmetry; apply Z.ltb_ge; lia). reflexivity.
Qed.

(** X6: a [Page] line with a number above [currentPage] sets
    [currentPage] to that number and posts one progress event.  A known
    total is left as it is; while the total is unknown it stays unknown,
    and the percent 0, unless the page is page 1, which sets the total to
    1 for the time being and reports 99 percent. *)
Theorem page_line_advances : forall (line ds : jsstring) (g : Globals)
    (j : Z) (rest : jsstring) (p c : Z),
  page_line line ds -> activeJobId g = Some (j :: rest) ->
  Number ds = Int p -> currentPage g = Int c -> c < p ->
  let t := match totalPages g with
           | Some t => Some t
           | None => if p =? 1 then Some (Int 1) else None
           end in
  parseGsLine line g
  = (tt,
     {| activeJobId := Some (j :: rest); totalPages := t; currentPage := Int p |},
     [MsgProgress (j :: rest) (progress_percent (Int p) t) (Int p) t])
  /\ (totalPages g = None ->
      progress_percent (Int p) t = if p =? 1 then Int 99 else Int 0).
Proof.
  intros line ds g j rest p c Hl Ha Hp Hc Hlt t.
  rewrite (parseGsLine_page _ Hl Ha), Hp, Hc. cbn [isFinite gtb ltb andb].
  replace (c <? p) with true by (symmetry; apply Z.ltb_lt; lia).
  subst t. split.
  - destruct (totalPages g); cbn [is_null andb JsNum.eqb]; reflexivity.
  - intros ->. destruct (Z.eqb_spec p 1) as [->|]; reflexivity.
Qed.

(** X7: a page number too large for a double (from [2^1024] on) is read
    by [Number] as [Infinity], fails [Number.isFinite] and is ignored. *)
Theorem huge_page_number_is_ignored : forall (line ds : jsstring) (g : Globals),
  page_line line ds -> 2 ^ 1024 <= decimal ds ->
  Number ds = Infinity false /\ parseGsLine line g = (tt, g, []).
Proof.
  intros line ds g Hl Hd.
  assert (Hn : Number ds = Infinity false) by (apply round64_huge; exact Hd).
  split; [exact Hn|].
  destruct (active_cases g) as [H|[j [rest H]]].
  - now apply parseGsLine_inactive.
  - rewrite (parseGsLine_page _ Hl H), Hn. reflexivity.
Qed.

(** X8: a [Processing pages a through b.] line with [a <= b] (both below
    [2^53]) sets [totalPages] to [b - a + 1], leaves [currentPage] as it
    is and posts one progress event for the active job. *)
Theorem total_line_sets_total : forall (line a b : jsstring) (g : Globals)
    (j : Z) (rest : jsstring),
  total_in line a b -> activeJobId g = Some (j :: rest) ->
  decimal a <= decimal b < 2 ^ 53 ->
  let t := Some (Int (decimal b - decimal a + 1)) in
  parseGsLine line g
  = (tt,
     {| activeJobId := Some (j :: rest); totalPages := t;
        currentPage := currentPage g |},
     [MsgProgress (j :: rest) (progress_percent (currentPage g) t) (currentPage g) t]).
Proof.
  intros line a b g j rest Hl Ha Hr t.
  destruct (total_in_digits Hl) as [Hda Hdb].
  pose proof (decimal_nonneg _ Hda) as H0a. pose proof (decimal_nonneg _ Hdb) as H0b.
  rewrite (parseGsLine_total _ Hl Ha). unfold Number.
  rewrite !round64_int53 by lia.
  cbn [isFinite andb]. replace (geb _ _) with true by (symmetry; apply geb_Int; lia).
  cbn [sub opp add]. rewrite round64_int53 by lia.
  cbn [add]. rewrite round64_le53 by lia.
  subst t. replace (decimal b + - decimal a + 1) with (decimal b - decimal a + 1) by lia.
  reflexivity.
Qed.

(** X9: a [Processing pages a through b.] line whose end is below its
    start is ignored: no variable changes and nothing is posted. *)
Theorem reversed_range_is_ignored : forall (line a b : jsstring) (g : Globals) (x y : Z),
  total_in line a b -> Number a = Int x -> Number b = Int y -> y < x ->
  parseGsLine line g = (tt, g, []).
Proof.
  intros line a b g x y Hl Ha Hb Hlt.
  destruct (active_cases g) as [H|[j [rest H]]].
  - now apply parseGsLine_inactive.
  - rewrite (parseGsLine_total _ Hl H), Ha, Hb. cbn [isFinite andb].
    replace (geb (Int y) (Int x)) with false; [reflexivity|].
    symmetry. destruct (geb (Int y) (Int x)) eqn:E; [|reflexivity].
    apply geb_Int in E. lia.
Qed.

(** ** The version marker in the bytes of the file *)

(** A byte of 128 or more is decoded to a code unit of 128 or more. *)
Lemma decode_byte_ascii : forall b, decode_byte b < 128 -> decode_byte b = byte_val b.
Proof. intros b. destruct b; vm_compute; intros H; try reflexivity; discriminate H. Qed.

Lemma byte_val_inj : forall a b, byte_val a = byte_val b -> a = b.
Proof.
  intros a b H. unfold byte_val in H.
  assert (E : Byte.to_N a = Byte.to_N b) by lia.
  pose proof (Byte.of_to_N a) as Ha. pose proof (Byte.of_to_N b) as Hb.
  rewrite E in Ha. congruence.
Qed.

Lemma decoded_ascii : forall b c, decode_byte b = c -> c < 128 -> byte_val b = c.
Proof. intros b c H Hc. rewrite <- H in *. symmetry. now apply decode_byte_ascii. Qed.

Lemma version_here_bytes : forall bs v,
  version_here (TextDecoder_ascii_decode bs) v <->
  exists d1 d2 rest,
    bs = marker d1 d2 ++ rest
    /\ digit (byte_val d1) = true /\ digit (byte_val d2) = true
    /\ v = [byte_val d1; 46; byte_val d2].
Proof.
  intros bs v. rewrite version_here_chars. split.
  - intros [c1 [c2 [rest [Hs [H1 [H2 ->]]]]]].
    destruct bs as [|b1 [|b2 [|b3 [|b4 [|b5 [|b6 [|b7 [|b8 bs]]]]]]]]; try discriminate.
    cbn in Hs. injection Hs as E1 E2 E3 E4 E5 E6 E7 E8 Er.
    apply digit_canon in H1 as [_ H1]. apply digit_canon in H2 as [_ H2].
    apply decoded_ascii in E1, E2, E3, E4, E5, E6, E7, E8; try lia.
    exists b6, b8, bs. rewrite E6, E8.
    replace b1 with "%"%byte by (apply byte_val_inj; now rewrite E1).
    replace b2 with "P"%byte by (apply byte_val_inj; now rewrite E2).
    replace b3 with "D"%byte by (apply byte_val_inj; now rewrite E3).
    replace b4 with "F"%byte by (apply byte_val_inj; now rewrite E4).
    replace b5 with "-"%byte by (apply byte_val_inj; now rewrite E5).
    replace b7 with "."%byte by (apply byte_val_inj; now rewrite E7).
    repeat split; unfold digit; rewrite ?andb_true_iff, ?Z.leb_le; lia.
  - intros [d1 [d2 [rest [-> [H1 [H2 ->]]]]]].
    exists (byte_val d1), (byte_val d2), (TextDecoder_ascii_decode rest).
    assert (Hd : forall d, digit (byte_val d) = true -> decode_byte d = byte_val d).
    { intros d Hd. apply decode_byte_ascii. unfold decode_byte.
      apply digit_canon in Hd as [_ Hd].
      replace (byte_val d <? 128) with true by (symmetry; apply Z.ltb_lt; lia). lia. }
    unfold TextDecoder_ascii_decode. rewrite map_app.
    change (map decode_byte (marker d1 d2))
      with (str "%PDF-" ++ [decode_byte d1; 46; decode_byte d2]).
    rewrite (Hd d1 H1), (Hd d2 H2). repeat split; auto.
Qed.

Lemma version_here_unique : forall s v v',
  version_here s v -> version_here s v' -> v = v'.
Proof.
  intros s v v' H H'. apply version_here_chars in H, H'.
  destruct H as [d1 [d2 [rest [-> [_ [_ ->]]]]]].
  destruct H' as [e1 [e2 [rest' [E [_ [_ ->]]]]]].
  injection E as -> -> _. reflexivity.
Qed.

Lemma version_in_unique : forall s v v',
  version_in s v -> version_in s v' -> v = v'.
Proof.
  intros s v v' H. revert v'.
  induction H as [s v H | c s v Hno H IH]; intros v' H'.
  - inversion H' as [s0 v0 H0 | c0 s0 v0 Hno0 H0]; subst.
    + eapply version_here_unique; eauto.
    + now apply Hno0 in H.
  - inversion H' as [s0 v0 H0 | c0 s0 v0 Hno0 H0]; subst.
    + now apply Hno in H0.
    + now apply IH.
Qed.

Lemma detectPdfVersion_iff : forall bs v,
  detectPdfVersion bs = Some v
  <-> version_in (TextDecoder_ascii_decode (firstn 1024 bs)) v.
Proof.
  intros bs v.
  assert (Hd : detectPdfVersion bs
               = match search false (atoms re_version)
                         (TextDecoder_ascii_decode (firstn 1024 bs)) with
                 | Some m => Some (fst m) | None => None end) by reflexivity.
  pose proof (search_version (TextDecoder_ascii_decode (firstn 1024 bs))) as Hs.
  rewrite Hd. destruct (search false (atoms re_version) _) as [k|]; split.
  - intros [= <-]. exact Hs.
  - intros H. f_equal. eapply version_in_unique; eauto.
  - discriminate.
  - intros H. exfalso. apply Hs. eapply version_in_occurs; eauto.
Qed.

Lemma version_in_bytes : forall bs v,
  version_in (TextDecoder_ascii_decode bs) v <-> marker_in bs v.
Proof.
  intros bs v. split.
  - intros H. remember (TextDecoder_ascii_decode bs) as s eqn:Es. revert bs Es.
    induction H as [s v H | c s v Hno H IH]; intros bs Es; subst.
    + apply version_here_bytes in H as [d1 [d2 [rest [-> [H1 [H2 ->]]]]]].
      now apply marker_found.
    + destruct bs as [|b bs]; [discriminate|]. cbn in Es. injection Es as -> ->.
      apply marker_later; [|now apply IH].
      intros d1 d2 rest E H1 H2.
      apply (Hno [byte_val d1; 46; byte_val d2]).
      change (decode_byte b :: map decode_byte bs)
        with (TextDecoder_ascii_decode (b :: bs)).
      apply version_here_bytes. exists d1, d2, rest. auto.
  - induction 1 as [d1 d2 rest H1 H2 | b bs v Hno H IH].
    + apply version_found, version_here_bytes. exists d1, d2, rest. auto.
    + change (TextDecoder_ascii_decode (b :: bs))
        with (decode_byte b :: TextDecoder_ascii_decode bs).
      apply version_later; [|exact IH].
      intros v' Hv.
      change (decode_byte b :: TextDecoder_ascii_decode bs)
        with (TextDecoder_ascii_decode (b :: bs)) in Hv.
      apply version_here_bytes in Hv as [d1 [d2 [rest [E [H1 [H2 _]]]]]].
      eauto.
Qed.

(** X10: [detectPdfVersion] returns a version exactly when the first
    1024 bytes of the file contain the eight bytes [%PDF-d.d] with [d]
    ASCII digits, and the version is then the [d.d] of the leftmost such
    place: although the text is decoded as windows-1252, no byte of 128 or
    more is ever read as part of a marker. *)
Theorem version_marker_is_read_from_raw_bytes : forall (bs : bytes) (v : jsstring),
  detectPdfVersion bs = Some v <-> marker_in (firstn 1024 bs) v.
Proof.
  intros bs v. rewrite detectPdfVersion_iff. apply version_in_bytes.
Qed.

Lemma version_in_shape : forall s v,
  version_in s v -> exists d1 d2, digit d1 = true /\ digit d2 = true /\ v = [d1; 46; d2].
Proof.
  induction 1 as [s v H | c s v _ _ IH]; [|exact IH].
  destruct H as [d1 [d2 [rest [H1 [H2 [-> _]]]]]]. eauto.
Qed.

Lemma resolved_version_shape : forall inputPdf,
  exists d1 d2, digit d1 = true /\ digit d2 = true
    /\ resolved_version inputPdf = [d1; 46; d2].
Proof.
  intros inputPdf. unfold resolved_version, detectPdfVersion, regex_match.
  cbn [anchored ignoreCase re_version].
  change (lit "%PDF-" ++ _) with (atoms re_version).
  pose proof (search_version (TextDecoder_ascii_decode (subarray_head inputPdf))) as H.
  destruct (search false (atoms re_version) _) as [k|].
  - cbn [nullish]. eapply version_in_shape; eauto.
  - exists 49, 53. repeat split.
Qed.

(** ** Files and options of a job *)

Lemma jsstring_eqb_neq : forall a b, a <> b -> jsstring_eqb a b = false.
Proof.
  intros a b H. destruct (jsstring_eqb a b) eqn:E; [|reflexivity].
  apply jsstring_eqb_eq in E. contradiction.
Qed.

Lemma prepared_files_spec : forall gs inputPdf,
  prepared_files gs inputPdf inPath = Some inputPdf
  /\ prepared_files gs inputPdf outPath = None
  /\ (forall p, p <> inPath -> p <> outPath ->
      prepared_files gs inputPdf p = FS_initial gs p).
Proof.
  intros gs inputPdf. unfold prepared_files, FS_writeFile, try_unlink, FS_unlink.
  split; [reflexivity|]. split.
  - change (jsstring_eqb outPath inPath) with false. cbv iota.
    destruct (FS_initial gs inPath) eqn:Hi.
    + change (jsstring_eqb outPath inPath) with false. cbv iota.
      destruct (FS_initial gs outPath) eqn:Ho; [reflexivity|].
      change (jsstring_eqb outPath inPath) with false. cbv iota. exact Ho.
    + destruct (FS_initial gs outPath) eqn:Ho; [reflexivity | exact Ho].
  - intros p Hi Ho.
    destruct (FS_initial gs inPath) eqn:Ei; destruct (FS_initial gs outPath) eqn:Eo;
      try change (jsstring_eqb outPath inPath) with false; cbv beta iota;
      rewrite ?Eo, ?(jsstring_eqb_neq Hi), ?(jsstring_eqb_neq Ho);
      reflexivity.
Qed.

(** X13: when [callMain] is called the filesystem of the engine holds
    the input at [/in.pdf] and nothing at [/out.pdf], whatever the
    instance held at these two paths before, and every other file is as
    the instance had it. *)
Theorem engine_finds_fresh_files : forall (gs : GSModule) (inputPdf : bytes),
  let fs := prepared_files gs inputPdf in
  FS_readFile inPath fs = Ok inputPdf
  /\ FS_readFile outPath fs = Throw ENOENT
  /\ (forall p, p <> inPath -> p <> outPath -> fs p = FS_initial gs p).
Proof.
  intros gs inputPdf fs. subst fs.
  destruct (prepared_files_spec gs inputPdf) as [Hi [Ho Hp]].
  unfold FS_readFile. rewrite Hi, Ho. auto.
Qed.

Lemma SFcompare_antisym : forall a b,
  SFcompare b a = option_map CompOpp (SFcompare a b).
Proof.
  intros [sa|sa| |sa ma ea] [sb|sb| |sb mb eb]; cbn;
    try destruct sa; try destruct sb; try reflexivity;
    rewrite (Z.compare_antisym ea eb); destruct (ea ?= eb); cbn; try reflexivity;
    rewrite !Pos.compare_cont_spec, (Pos.compare_antisym ma mb); cbn;
    destruct (ma ?= mb)%positive; reflexivity.
Qed.

Lemma SFltb_asym : forall a b, SFltb a b = true -> SFltb b a = false.
Proof.
  intros a b. unfold SFltb. rewrite (SFcompare_antisym a b).
  destruct (SFcompare a b) as [[]|]; cbn; congruence.
Qed.

Lemma finite_or_floor : forall v lo dflt,
  float_isFinite lo = true -> float_isFinite dflt = true -> SFltb dflt lo = false ->
  SFltb lo lo = false ->
  float_isFinite (finite_or v lo dflt) = true
  /\ SFltb (finite_or v lo dflt) lo = false.
Proof.
  intros v lo dflt Hlo Hd Hdl Hll. unfold finite_or, float_max.
  destruct v as [x|]; [|auto].
  destruct (float_isFinite x) eqn:Hx; [|auto].
  destruct (SFltb lo x) eqn:Hlt; [|auto].
  split; [exact Hx | now apply SFltb_asym].
Qed.

Section JobFiles.

Variable number_toString : spec_float -> jsstring.

(** X14: an engine that returns without writing [/out.pdf] makes the job
    end in an error event with the message of [readFile], also when the
    instance came with a file at [/out.pdf]: a stale output is never
    returned as the result. *)
Theorem missing_output_is_an_error : forall (msg : CompressMsg) (gs : GSModule)
    (g : Globals) (printed : list jsstring) (fs' : FS),
  callMain gs
    (shrink_args number_toString (options msg) (resolved_version (pdfBuffer msg)))
    (prepared_files gs (pdfBuffer msg))
  = (printed, Ok fs') ->
  fs' outPath = prepared_files gs (pdfBuffer msg) outPath ->
  terminal_messages (run_posted (run_job number_toString msg (Ok gs)) g)
  = [MsgError (jobId msg) ENOENT].
Proof.
  intros msg gs g printed fs' Hc Hout.
  destruct (prepared_files_spec gs (pdfBuffer msg)) as [_ [Ho _]].
  rewrite Ho in Hout.
  assert (He : snd (engine_output number_toString gs (pdfBuffer msg) (options msg))
               = Throw ENOENT).
  { unfold engine_output. rewrite Hc. cbn [snd]. unfold FS_readFile. now rewrite Hout. }
  unfold run_job.
  destruct (run_bind (handleJob_begin msg)
              (fun _ => settle_link number_toString msg (Ok gs)) g) as [_ [_ ->]].
  destruct (settle_link_Ok number_toString msg gs (run_globals (handleJob_begin msg) g))
    as [_ ->].
  rewrite He. rewrite !terminal_messages_app.
  rewrite (terminal_messages_progress _ (feed_only_progress _ _)). reflexivity.
Qed.

(** X11: the version given to the engine is always a digit, a dot and a
    digit, the one found in the file or [1.5]; it is the text of the fifth
    argument after [-dCompatibilityLevel=], and the version a result
    reports is the same. *)
Theorem compatibility_level_is_digit_dot_digit : forall (inputPdf : bytes)
    (options : ShrinkOptions),
  exists d1 d2,
    digit d1 = true /\ digit d2 = true
    /\ resolved_version inputPdf = [d1; 46; d2]
    /\ nth_error (shrink_args number_toString options (resolved_version inputPdf)) 4
       = Some (str "-dCompatibilityLevel=" ++ [d1; 46; d2])
    /\ (forall gs g res,
          run_value (shrinkPdfLikeScript number_toString gs inputPdf options) g = Ok res ->
          pdfVersionUsed res = [d1; 46; d2]).
Proof.
  intros inputPdf options.
  destruct (resolved_version_shape inputPdf) as [d1 [d2 [H1 [H2 Hv]]]].
  exists d1, d2. repeat split; auto.
  - rewrite Hv. unfold shrink_args.
    destruct (nullish (grayscale options) false); reflexivity.
  - intros gs g res Hr.
    destruct (shrink_run number_toString gs inputPdf options g) as [_ [_ Hval]].
    rewrite Hr in Hval.
    destruct (snd (engine_output number_toString gs inputPdf options)); [|discriminate].
    injection Hval as ->. cbn. exact Hv.
Qed.

(** X12: whatever the options hold (nothing, NaN, an infinity, zero, a
    negative number), the resolution given to the engine is a finite
    double not below 1 and the threshold a finite double not below 0.1;
    the three resolution arguments carry the one and the three threshold
    arguments the other. *)
Theorem resolution_and_threshold_floors : forall (options : ShrinkOptions)
    (pdfVersion : jsstring),
  let res := finite_or (resolutionDpi options) float_1 float_72 in
  let thr := finite_or (threshold options) float_0_1 float_1_5 in
  let args := shrink_args number_toString options pdfVersion in
  float_isFinite res = true /\ SFltb res float_1 = false
  /\ float_isFinite thr = true /\ SFltb thr float_0_1 = false
  /\ map (fun i => nth_error args i) [10; 13; 16]%nat
     = map (fun flag => Some (str flag ++ number_toString res))
         ["-dColorImageResolution="; "-dGrayImageResolution=";
          "-dMonoImageResolution="]%string
  /\ map (fun i => nth_error args i) [11; 14; 17]%nat
     = map (fun flag => Some (str flag ++ number_toString thr))
         ["-dColorImageDownsampleThreshold="; "-dGrayImageDownsampleThreshold=";
          "-dMonoImageDownsampleThreshold="]%string.
Proof.
  intros options pdfVersion res thr args.
  destruct (@finite_or_floor (resolutionDpi options) float_1 float_72)
    as [H1 H2]; try reflexivity.
  destruct (@finite_or_floor (threshold options) float_0_1 float_1_5)
    as [H3 H4]; try reflexivity.
  repeat split; auto; subst args; unfold shrink_args;
    destruct (nullish (grayscale options) false); reflexivity.
Qed.

End JobFiles.

(** ** The log of one job *)

Lemma feed_job_ids : forall lines g,
  Forall (fun m => Some (message_jobId m) = activeJobId g) (run_posted (feed lines) g).
Proof.
  induction lines as [|l lines IH]; intros g; [constructor|].
  unfold feed in *. destruct (run_forEach_cons parseGsLine l lines g) as [_ ->].
  pose proof (parseGsLine_effect l g) as He.
  apply Forall_app. split.
  - destruct He as [_ | jid m Ha | jid m Ha]; repeat constructor; now rewrite Ha.
  - rewrite <- (line_effect_job He). apply IH.
Qed.

Lemma feed_below_100 : forall lines jobId,
  Forall below_100 (run_posted (feed lines) (job_start jobId)).
Proof.
  intros lines jobId.
  pose proof (feed_posted lines (job_start_ok jobId) eq_refl) as H.
  eapply Forall_impl; [|exact H].
  intros m [c [t [p [-> [Hp Hr]]]]]. cbn. now rewrite Hp.
Qed.

Lemma feed_progress_events : forall lines g,
  progress_events (run_posted (feed lines) g) = run_posted (feed lines) g.
Proof.
  intros lines g. unfold progress_events. apply forallb_filter_id.
  apply feed_only_progress.
Qed.

Lemma feed_empty_job : forall lines t c,
  let g := {| activeJobId := Some []; totalPages := t; currentPage := c |} in
  feed lines g = (tt, g, []).
Proof.
  intros lines t c g. induction lines as [|l lines IH]; [reflexivity|].
  unfold feed in *. cbn [forEach]. unfold bind at 1.
  change (parseGsLine l g) with (tt, g, @nil Message). cbv iota beta zeta.
  rewrite IH. reflexivity.
Qed.

Section JobLog.

Variable number_toString : spec_float -> jsstring.

Lemma run_job_posted : forall msg created g,
  run_posted (run_job number_toString msg created) g
  = MsgStatus (jobId msg) (str "loading") (str "Loading Ghostscript WASM" ++ ellipsis)
    :: run_posted (settle_link number_toString msg created) g.
Proof.
  intros msg created g. unfold run_job.
  destruct (run_bind (handleJob_begin msg)
              (fun _ => settle_link number_toString msg created) g) as [_ [_ ->]].
  reflexivity.
Qed.

(** What a job posts, by the way it ends. *)
Lemma run_job_log : forall msg created g,
  let jid := jobId msg in
  run_posted (run_job number_toString msg created) g
  = MsgStatus jid (str "loading") (str "Loading Ghostscript WASM" ++ ellipsis)
    :: match created with
       | Throw e => [MsgError jid e]
       | Ok gs =>
           let printed := fst (engine_output number_toString gs (pdfBuffer msg) (options msg)) in
           let r := snd (engine_output number_toString gs (pdfBuffer msg) (options msg)) in
           let g1 := run_globals (feed printed) (job_start jid) in
           let larger := fun o : bytes => (List.length (pdfBuffer msg) <? List.length o)%nat in
           [MsgStatus jid (str "ready") (str "Ghostscript ready.");
            MsgProgress jid (Int 0) (Int 0) None;
            MsgStatus jid (str "running") (str "Compressing" ++ ellipsis)]
           ++ run_posted (feed printed) (job_start jid)
           ++ match r with
              | Ok o =>
                  [MsgProgress jid (Int 100)
                     (nullish (totalPages g1) (currentPage g1)) (totalPages g1);
                   MsgStatus jid (str "done")
                     (if larger o then str "Output larger; returned original."
                      else str "Done.");
                   MsgResult jid (if larger o then pdfBuffer msg else o) (larger o)
                     (resolved_version (pdfBuffer msg))]
              | Throw e => [MsgError jid e]
              end
       end.
Proof.
  intros msg created g jid. rewrite run_job_posted. f_equal.
  destruct created as [gs|e]; [|reflexivity].
  now destruct (settle_link_Ok number_toString msg gs g) as [_ ->].
Qed.

Lemma stages_app : forall a b, stages (a ++ b) = stages a ++ stages b.
Proof. intros. unfold stages. now rewrite flat_map_app. Qed.

Lemma stages_progress : forall ms, forallb is_progress ms = true -> stages ms = [].
Proof.
  induction ms as [|m ms IH]; [reflexivity|]. cbn.
  destruct m; try discriminate. exact IH.
Qed.

Lemma run_job_ids : forall msg created g,
  Forall (fun m => message_jobId m = jobId msg)
    (run_posted (run_job number_toString msg created) g).
Proof.
  intros msg created g. rewrite run_job_log.
  constructor; [reflexivity|].
  destruct created as [gs|e]; [|repeat constructor]. cbv zeta.
  repeat (apply Forall_app; split); try (repeat constructor; fail).
  - eapply Forall_impl; [|apply feed_job_ids].
    cbn. intros m H. now injection H.
  - destruct (snd (engine_output _ _ _ _)); repeat constructor.
Qed.

(** A job posts its terminal message last, and none before it. *)
Lemma run_job_split : forall msg created g,
  exists pre,
    run_posted (run_job number_toString msg created) g
    = pre ++ [job_terminal number_toString msg created]
    /\ terminal_messages pre = [].
Proof.
  intros msg created g. rewrite run_job_log. unfold job_terminal.
  destruct created as [gs|e]; [|eexists [_]; split; reflexivity].
  cbv zeta. set (fed := run_posted (feed _) _).
  assert (Hfed : terminal_messages fed = [])
    by apply terminal_messages_progress, feed_only_progress.
  destruct (snd (engine_output _ _ _ _)) as [o|e].
  - eexists (_ :: _ :: _ :: _ :: fed ++ [_; _]). split.
    + cbn [app]. do 4 f_equal. rewrite <- app_assoc. reflexivity.
    + change (?a :: ?b :: ?c :: ?d :: ?l) with ([a; b; c; d] ++ l).
      rewrite !terminal_messages_app, Hfed. reflexivity.
  - eexists (_ :: _ :: _ :: _ :: fed). split.
    + reflexivity.
    + change (?a :: ?b :: ?c :: ?d :: ?l) with ([a; b; c; d] ++ l).
      rewrite !terminal_messages_app, Hfed. reflexivity.
Qed.

Lemma job_terminal_is_terminal : forall msg created,
  is_terminal (job_terminal number_toString msg created) = true
  /\ message_jobId (job_terminal number_toString msg created) = jobId msg.
Proof.
  intros msg [gs|e]; cbn; [|auto].
  destruct (snd (engine_output _ _ _ _)); auto.
Qed.

(** X16: the status events of a job are [loading] alone when the engine
    fails to load, [loading], [ready], [running] when the engine or the
    reading of its output fails, and these three followed by [done] when
    the job succeeds; and the terminal event of the job, its result or
    its error, is the last message it posts. *)
Theorem job_stages : forall (msg : CompressMsg) (created : Outcome GSModule)
    (g : Globals),
  let ms := run_posted (run_job number_toString msg created) g in
  stages ms
  = match created with
    | Throw _ => [str "loading"]
    | Ok gs =>
        match snd (engine_output number_toString gs (pdfBuffer msg) (options msg)) with
        | Throw _ => [str "loading"; str "ready"; str "running"]
        | Ok _ => [str "loading"; str "ready"; str "running"; str "done"]
        end
    end
  /\ exists pre t,
       ms = pre ++ [t] /\ is_terminal t = true /\ terminal_messages pre = [].
Proof.
  intros msg created g ms. split.
  - subst ms. rewrite run_job_log. destruct created as [gs|e]; [|reflexivity].
    cbv zeta. set (fed := run_posted (feed _) _).
    assert (Hfed : forallb is_progress fed = true) by apply feed_only_progress.
    change (?a :: ?l) with ([a] ++ l).
    rewrite !stages_app, (stages_progress _ Hfed).
    destruct (snd (engine_output _ _ _ _)); reflexivity.
  - destruct (run_job_split msg created g) as [pre [Hs Hp]].
    exists pre, (job_terminal number_toString msg created).
    split; [exact Hs|]. split; [apply job_terminal_is_terminal | exact Hp].
Qed.

(** X17: a job whose engine fails to load, or whose engine or output
    file throws, posts the text of what was thrown as its one error event,
    and neither a [done] status nor a progress event of 100 percent. *)
Theorem failure_is_reported_as_error : forall (msg : CompressMsg)
    (created : Outcome GSModule) (g : Globals) (e : JsError),
  created = Throw e
  \/ (exists gs, created = Ok gs
        /\ snd (engine_output number_toString gs (pdfBuffer msg) (options msg)) = Throw e) ->
  let ms := run_posted (run_job number_toString msg created) g in
  terminal_messages ms = [MsgError (jobId msg) e]
  /\ ~ In (str "done") (stages ms)
  /\ Forall below_100 (progress_events ms).
Proof.
  intros msg created g e H ms. subst ms. rewrite run_job_log.
  destruct H as [-> | [gs [-> He]]].
  - repeat split; [|constructor]. cbn. intros [H|[]]. discriminate.
  - cbv zeta. rewrite He.
    set (fed := run_posted (feed _) _).
    assert (Hfed : forallb is_progress fed = true) by apply feed_only_progress.
    change (?a :: [?b; ?c; ?d] ++ ?l) with ([a; b; c; d] ++ l).
    split; [|split].
    + rewrite !terminal_messages_app, (terminal_messages_progress _ Hfed). reflexivity.
    + rewrite !stages_app, (stages_progress _ Hfed). cbn.
      intros [H|[H|[H|[]]]]; discriminate.
    + unfold progress_events. rewrite !filter_app.
      fold (progress_events fed). unfold fed. rewrite feed_progress_events.
      cbn [filter is_progress app].
      constructor; [cbn; lia|]. rewrite app_nil_r. apply feed_below_100.
Qed.

(** X18: the progress events of a job that succeeds are the event
    [0, 0, null] of its start, the events of the parser, each with a
    percent from 0 to 99, and last a single event of 100 percent, whose
    page count is the total when the total is known and [currentPage]
    otherwise. *)
Theorem final_progress_event : forall (msg : CompressMsg) (gs : GSModule)
    (g : Globals) (printed : list jsstring) (o : bytes),
  engine_output number_toString gs (pdfBuffer msg) (options msg) = (printed, Ok o) ->
  let jid := jobId msg in
  let ms := run_posted (run_job number_toString msg (Ok gs)) g in
  let g1 := run_globals (feed printed) (job_start jid) in
  let cur := nullish (totalPages g1) (currentPage g1) in
  progress_events ms
  = MsgProgress jid (Int 0) (Int 0) None
    :: run_posted (feed printed) (job_start jid)
    ++ [MsgProgress jid (Int 100) cur (totalPages g1)]
  /\ Forall below_100 (run_posted (feed printed) (job_start jid))
  /\ (forall t, totalPages g1 = Some t -> cur = t)
  /\ (totalPages g1 = None -> cur = currentPage g1).
Proof.
  intros msg gs g printed o He jid ms g1 cur. subst ms. rewrite run_job_log.
  cbv zeta. rewrite He. cbn [fst snd]. fold jid.
  split; [|split; [|split]].
  - change (?a :: [?b; ?c; ?d] ++ ?l) with ([a; b; c; d] ++ l).
    unfold progress_events. rewrite !filter_app.
    fold (progress_events (run_posted (feed printed) (job_start jid))).
    rewrite feed_progress_events. reflexivity.
  - apply feed_below_100.
  - intros t Ht. subst cur. now rewrite Ht.
  - intros Ht. subst cur. now rewrite Ht.
Qed.

(** X19: with the empty string as its identifier a job is not seen as
    active by [parseGsLine]: whatever the engine prints, the job reports
    no pages, and its progress events are 0 percent at its start and, when
    it succeeds, 100 percent with page count 0 and no total. *)
Theorem empty_job_id_reports_no_pages : forall (msg : CompressMsg) (gs : GSModule)
    (g : Globals),
  jobId msg = [] ->
  run_posted (run_job number_toString msg (Ok gs)) g
  = [MsgStatus [] (str "loading") (str "Loading Ghostscript WASM" ++ ellipsis);
     MsgStatus [] (str "ready") (str "Ghostscript ready.");
     MsgProgress [] (Int 0) (Int 0) None;
     MsgStatus [] (str "running") (str "Compressing" ++ ellipsis)]
    ++ match snd (engine_output number_toString gs (pdfBuffer msg) (options msg)) with
       | Ok o =>
           let larger := (List.length (pdfBuffer msg) <? List.length o)%nat in
           [MsgProgress [] (Int 100) (Int 0) None;
            MsgStatus [] (str "done")
              (if larger then str "Output larger; returned original." else str "Done.");
            MsgResult [] (if larger then pdfBuffer msg else o) larger
              (resolved_version (pdfBuffer msg))]
       | Throw e => [MsgError [] e]
       end.
Proof.
  intros msg gs g Hj. rewrite run_job_log. cbv zeta. rewrite Hj.
  unfold run_posted at 1, run_globals.
  change (job_start []) with
    {| activeJobId := Some []; totalPages := None; currentPage := Int 0 |}.
  rewrite feed_empty_job. cbn [fst snd app nullish totalPages currentPage].
  reflexivity.
Qed.

(** X15: a result is never longer than the input, and when it is flagged
    as the original it is the input: this holds of what
    [shrinkPdfLikeScript] returns and of every result event a job posts. *)
Theorem result_is_never_longer_than_the_input : forall (msg : CompressMsg)
    (created : Outcome GSModule) (g : Globals),
  Forall (result_within_input (pdfBuffer msg))
    (run_posted (run_job number_toString msg created) g)
  /\ (forall gs res,
        run_value (shrinkPdfLikeScript number_toString gs (pdfBuffer msg) (options msg)) g
        = Ok res ->
        (List.length (out res) <= List.length (pdfBuffer msg))%nat
        /\ (usedOriginal res = true -> out res = pdfBuffer msg)).
Proof.
  intros msg created g. split.
  - rewrite run_job_log. constructor; [exact I|].
    destruct created as [gs|e]; [|repeat constructor]. cbv zeta.
    repeat (apply Forall_app; split); try (repeat constructor; fail).
    + pose proof (feed_only_progress
                    (fst (engine_output number_toString gs (pdfBuffer msg) (options msg)))
                    (job_start (jobId msg))) as H.
      rewrite forallb_forall in H. apply Forall_forall. intros m Hm.
      apply H in Hm. destruct m; try discriminate. exact I.
    + destruct (snd (engine_output _ _ _ _)) as [o|e]; repeat constructor.
      * destruct (Nat.ltb_spec (List.length (pdfBuffer msg)) (List.length o)); lia.
      * intros H. now rewrite H.
  - intros gs res Hr.
    destruct (shrink_run number_toString gs (pdfBuffer msg) (options msg) g)
      as [_ [_ Hv]].
    rewrite Hr in Hv. destruct (snd (engine_output _ _ _ _)) as [o|e]; [|discriminate].
    injection Hv as ->. cbn [out usedOriginal]. split.
    + destruct (Nat.ltb_spec (List.length (pdfBuffer msg)) (List.length o)); lia.
    + intros H. now rewrite H.
Qed.

End JobLog.

(** ** The whole log of the worker *)

Section ChainLog.

Variable number_toString : spec_float -> jsstring.

Lemma chain_log_app : forall cs1 q1 cs2 q2,
  List.length cs1 = List.length q1 ->
  chain_log number_toString (cs1 ++ cs2) (q1 ++ q2)
  = chain_log number_toString cs1 q1 ++ chain_log number_toString cs2 q2.
Proof.
  induction cs1 as [|c cs1 IH]; intros [|l q1] cs2 q2 H; try discriminate.
  - reflexivity.
  - cbn in *. rewrite IH by lia. now rewrite app_assoc.
Qed.

Lemma chain_log_queued : forall q cs,
  all_queued q = true -> chain_log number_toString cs q = [].
Proof.
  induction q as [|l q IH]; intros [|c cs] H; try reflexivity.
  cbn in *. apply andb_true_iff in H as [Hl Hq]. rewrite (IH cs Hq).
  destruct l as [m []]; try discriminate. reflexivity.
Qed.

Lemma split_outcomes : forall (cs : list (Outcome GSModule)) (pre : list Link) l post,
  List.length cs = List.length (pre ++ l :: post) ->
  exists cs1 c cs2,
    cs = cs1 ++ c :: cs2 /\ List.length cs1 = List.length pre
    /\ List.length cs2 = List.length post.
Proof.
  intros cs pre. revert cs. induction pre as [|a pre IH]; intros [|c cs] l post H;
    try discriminate.
  - exists [], c, cs. cbn in *. repeat split. lia.
  - cbn in H. injection H as H. destruct (IH cs l post H) as [cs1 [c' [cs2 [-> [H1 H2]]]]].
    exists (c :: cs1), c', cs2. cbn. repeat split; auto.
Qed.

Lemma step_logged : forall rt rt',
  step number_toString rt rt' -> invariant rt ->
  logged number_toString rt -> logged number_toString rt'.
Proof.
  intros rt rt' Hs [Hwf Hg Ht] [cs [Hlen Hlog]].
  destruct Hs as [[msg|] rt | pre msg post rt Hq Hlast
                 | line pre msg post rt Hq | created pre msg post rt Hq].
  - exists (cs ++ [Throw []]). cbn [onmessage queue posted]. split.
    + rewrite !length_app. cbn. lia.
    + rewrite chain_log_app by exact Hlen. cbn. now rewrite app_nil_r.
  - exists cs. auto.
  - rewrite Hq in *.
    destruct (well_formed_split pre _ post Hwf eq_refl (or_introl Hlast))
      as [Hpre Hpost].
    destruct (split_outcomes cs pre _ post Hlen) as [cs1 [c [cs2 [-> [H1 H2]]]]].
    exists (cs1 ++ c :: cs2). cbn [exec_worker queue posted]. split.
    + rewrite !length_app in *. cbn in *. lia.
    + rewrite Hlog, !chain_log_app by exact H1.
      cbn [chain_log]. rewrite (@chain_log_queued post cs2 Hpost).
      unfold link_log. cbn [link_state link_msg mkLink].
      rewrite !app_nil_r, Hg. reflexivity.
  - exists cs. cbn [exec_worker queue posted]. split; [exact Hlen|].
    rewrite Hg. cbn. now rewrite app_nil_r.
  - rewrite Hq in *.
    destruct (well_formed_split pre _ post Hwf eq_refl (or_intror eq_refl))
      as [Hpre Hpost].
    destruct (split_outcomes cs pre _ post Hlen) as [cs1 [c [cs2 [-> [H1 H2]]]]].
    exists (cs1 ++ created :: cs2). cbn [exec_worker queue posted]. split.
    + rewrite !length_app in *. cbn in *. lia.
    + rewrite Hlog, !chain_log_app by exact H1.
      cbn [chain_log]. rewrite (@chain_log_queued post cs2 Hpost).
      unfold link_log. cbn [link_state link_msg mkLink].
      rewrite !app_nil_r, Hg, <- app_assoc. f_equal.
      unfold run_job.
      destruct (run_bind (handleJob_begin msg)
                  (fun _ => settle_link number_toString msg created) initial_globals)
        as [_ [_ ->]].
      reflexivity.
Qed.

Lemma reachable_logged : forall rt,
  reachable number_toString rt -> logged number_toString rt.
Proof.
  intros rt H. unfold reachable in H.
  remember initial_runtime as rt0 eqn:E.
  induction H as [rt | rt1 rt2 rt3 H12 IH Hs]; subst.
  - exists []. split; reflexivity.
  - eapply step_logged; [exact Hs | | now apply IH].
    exact (reachable_invariant H12).
Qed.

Lemma link_log_ids : forall created l,
  Forall (fun m => message_jobId m = jobId (link_msg l))
    (link_log number_toString created l).
Proof.
  intros created [msg []]; unfold link_log; cbn [link_state link_msg].
  - constructor.
  - repeat constructor.
  - apply run_job_ids.
Qed.

Lemma messages_of_own : forall j ms,
  Forall (fun m => message_jobId m = j) ms -> messages_of j ms = ms.
Proof.
  intros j ms H. unfold messages_of. apply forallb_filter_id.
  apply forallb_forall. rewrite Forall_forall in H.
  intros m Hm. apply jsstring_eqb_eq. auto.
Qed.

Lemma messages_of_other : forall j j' ms,
  j' <> j -> Forall (fun m => message_jobId m = j') ms -> messages_of j ms = [].
Proof.
  intros j j' ms Hne. induction 1 as [|m ms Hm _ IH]; [reflexivity|].
  unfold messages_of in *. cbn. rewrite IH.
  destruct (jsstring_eqb (message_jobId m) j) eqn:E; [|reflexivity].
  apply jsstring_eqb_eq in E. congruence.
Qed.

Lemma messages_of_app : forall j a b,
  messages_of j (a ++ b) = messages_of j a ++ messages_of j b.
Proof. intros. apply filter_app. Qed.

Lemma messages_of_absent : forall j q cs,
  ~ In j (job_ids q) -> messages_of j (chain_log number_toString cs q) = [].
Proof.
  intros j q. induction q as [|a q IH]; intros [|c cs] Hj; try reflexivity.
  cbn [chain_log]. rewrite messages_of_app, IH.
  - rewrite app_nil_r. apply (@messages_of_other j (jobId (link_msg a))).
    + intros E. apply Hj. now left.
    + apply link_log_ids.
  - intros Hin. apply Hj. now right.
Qed.

Lemma messages_of_chain_log : forall q cs l,
  List.length cs = List.length q -> NoDup (job_ids q) -> In l q ->
  exists created,
    messages_of (jobId (link_msg l)) (chain_log number_toString cs q)
    = link_log number_toString created l.
Proof.
  induction q as [|a q IH]; intros [|c cs] l Hlen Hnd Hin; try contradiction;
    try discriminate.
  inversion Hnd as [|x xs Ha Hnd']; subst.
  cbn [chain_log]. rewrite messages_of_app. destruct Hin as [->|Hin].
  - exists c. rewrite (@messages_of_absent _ q cs Ha), app_nil_r.
    apply messages_of_own, link_log_ids.
  - destruct (IH cs l) as [created Hc]; auto.
    exists created. rewrite Hc.
    rewrite (@messages_of_other _ (jobId (link_msg a))); [reflexivity| |apply link_log_ids].
    intros E. apply Ha. rewrite E. unfold job_ids. apply in_map_iff. now exists l.
Qed.


(** X21: with distinct job identifiers, the messages that carry the
    identifier of a submitted job, picked out of the whole log, are those
    of that job alone: what it posts when it runs on its own in a fresh
    worker if it has settled, its [loading] status if it is running,
    nothing if it is queued.  No other job adds to them or changes
    them. *)
Theorem job_events_are_those_of_the_job_alone : forall (rt : Runtime) (l : Link),
  reachable number_toString rt -> NoDup (job_ids (queue rt)) -> In l (queue rt) ->
  exists created,
    messages_of (jobId (link_msg l)) (posted rt)
    = link_log number_toString created l.
Proof.
  intros rt l Hr Hnd Hin.
  destruct (reachable_logged Hr) as [cs [Hlen ->]].
  now apply messages_of_chain_log.
Qed.

End ChainLog.

(** ** The caller: [compressWithGS] *)

Section Caller.

Import Client.

Lemma deliver_app : forall jobId h evs1 evs2 c,
  deliver jobId h (evs1 ++ evs2) c = deliver jobId h evs2 (deliver jobId h evs1 c).
Proof. intros. unfold deliver. apply fold_left_app. Qed.

Lemma deliver_cons : forall jobId h ev evs c,
  deliver jobId h (ev :: evs) c = deliver jobId h evs (dispatch jobId h ev c).
Proof. reflexivity. Qed.

Lemma deliver_detached : forall jobId h evs c,
  listening c = false -> deliver jobId h evs c = c.
Proof.
  intros jobId h evs. induction evs as [|ev evs IH]; intros c Hc; [reflexivity|].
  cbn. unfold dispatch at 2. rewrite Hc. now apply IH.
Qed.

Lemma deliver_concerns : forall jobId h evs c,
  deliver jobId h evs c = deliver jobId h (filter (concerns jobId) evs) c.
Proof.
  intros jobId h evs. induction evs as [|ev evs IH]; intros c; [reflexivity|].
  cbn [filter]. destruct (concerns jobId ev) eqn:Hc.
  - cbn. apply IH.
  - cbn. rewrite <- IH. f_equal. unfold dispatch.
    destruct ev as [data|]; [|discriminate]. cbn in Hc.
    unfold onMessage. rewrite Hc. cbn. now destruct (listening c).
Qed.

(** Messages of the job that are not terminal only add callbacks. *)
Lemma deliver_callbacks : forall jobId h ms c,
  listening c = true ->
  Forall (fun m => message_jobId m = jobId) ms ->
  terminal_messages ms = [] ->
  deliver jobId h (map MessageEvent ms) c
  = {| listening := true; promise := promise c;
       calls := calls c ++ flat_map (callback_of h) ms |}.
Proof.
  intros jobId h ms. induction ms as [|m ms IH]; intros c Hc Hid Ht.
  - cbn. rewrite app_nil_r. destruct c. cbn in Hc. now subst.
  - inversion Hid as [|m' ms' Hm Hms]. clear Hid. subst m' ms'.
    assert (He : jsstring_eqb (message_jobId m) jobId = true)
      by now apply jsstring_eqb_eq.
    cbn [map]. rewrite deliver_cons.
    unfold terminal_messages in Ht. cbn [filter] in Ht.
    destruct (is_terminal m) eqn:Htm; [discriminate|].
    unfold dispatch. rewrite Hc. unfold onMessage. rewrite He. cbn [negb].
    destruct m as [j s t | j p cu t | j o u v | j e]; try discriminate;
      cbn [callback_of flat_map]; unfold notify.
    + destruct (onStatus h); rewrite IH; auto; cbn; now rewrite <- ?app_assoc.
    + destruct (onProgress h); rewrite IH; auto; cbn; now rewrite <- ?app_assoc.
Qed.

Lemma deliver_terminal : forall jobId h m c,
  listening c = true -> promise c = Pending ->
  message_jobId m = jobId -> is_terminal m = true ->
  dispatch jobId h (MessageEvent m) c
  = {| listening := false; promise := settlement_of m; calls := calls c |}.
Proof.
  intros jobId h m [l p cs] Hc Hp Hid Ht. cbn in Hc, Hp. subst l p.
  unfold dispatch, onMessage. cbn [listening]. subst jobId.
  replace (jsstring_eqb (message_jobId m) (message_jobId m)) with true
    by (symmetry; now apply jsstring_eqb_eq).
  destruct m; try discriminate; reflexivity.
Qed.

Lemma deliver_pending : forall jobId h evs c,
  listening c = true ->
  forallb (fun ev => negb (settles jobId ev)) evs = true ->
  deliver jobId h evs c
  = {| listening := true; promise := promise c;
       calls := calls c ++ flat_map (callbacks_by jobId h) evs |}.
Proof.
  intros jobId h evs. induction evs as [|ev evs IH]; intros [l p cs] Hc Hs.
  - cbn in *. subst l. now rewrite app_nil_r.
  - cbn in Hc. subst l. cbn [forallb] in Hs. apply andb_true_iff in Hs as [Hev Hs].
    apply negb_true_iff in Hev.
    rewrite deliver_cons. unfold dispatch. cbn [listening].
    destruct ev as [m|r]; [|discriminate]. cbn in Hev.
    unfold onMessage. cbn [flat_map callbacks_by].
    destruct (jsstring_eqb (message_jobId m) jobId) eqn:He; cbn [negb].
    + cbn in Hev.
      destruct m as [j s t | j pc cu t | j o u v | j e]; try discriminate;
        cbn [callback_of]; unfold notify.
      * destruct (onStatus h); rewrite IH; auto; cbn; now rewrite <- ?app_assoc.
      * destruct (onProgress h); rewrite IH; auto; cbn; now rewrite <- ?app_assoc.
    + rewrite IH; auto.
Qed.

Lemma dispatch_settles : forall jobId h ev c,
  listening c = true -> promise c = Pending -> settles jobId ev = true ->
  dispatch jobId h ev c
  = {| listening := false; promise := settlement_by ev; calls := calls c |}.
Proof.
  intros jobId h ev [l p cs] Hc Hp Hs. cbn in Hc, Hp. subst l p.
  unfold dispatch. cbn [listening]. destruct ev as [m|r]; [|reflexivity].
  cbn in Hs. apply andb_true_iff in Hs as [He Ht].
  unfold onMessage. rewrite He. destruct m; try discriminate; reflexivity.
Qed.

Lemma concerns_messages : forall j ms,
  filter (concerns j) (map MessageEvent ms) = map MessageEvent (messages_of j ms).
Proof.
  intros j. induction ms as [|m ms IH]; [reflexivity|].
  unfold messages_of in *. cbn. rewrite IH.
  now destruct (jsstring_eqb (message_jobId m) j).
Qed.

Variables (jobId : jsstring) (pdf : bytes) (options : ShrinkOptions) (h : Handlers).

(** X22: a call of [compressWithGS] skips the messages of other jobs; as
    long as no error of the worker and no terminal message of its own job
    has arrived, its promise is pending and it has called back once for
    each status and progress message of its job, in order; the first such
    event settles the promise (a result resolves it, an error message or
    an error of the worker rejects it) and removes the listeners, so that
    nothing that arrives later calls back or settles again. *)
Theorem first_settling_event_decides : forall (pre post : list WorkerEvent)
    (ev : WorkerEvent),
  let call := fst (compressWithGS jobId pdf options) in
  forallb (fun ev => negb (settles jobId ev)) pre = true ->
  deliver jobId h pre call
  = {| listening := true; promise := Pending;
       calls := flat_map (callbacks_by jobId h) pre |}
  /\ (settles jobId ev = true ->
      deliver jobId h (pre ++ ev :: post) call
      = {| listening := false; promise := settlement_by ev;
           calls := flat_map (callbacks_by jobId h) pre |}).
Proof.
  intros pre post ev call Hpre.
  assert (H1 : deliver jobId h pre call
               = {| listening := true; promise := Pending;
                    calls := flat_map (callbacks_by jobId h) pre |}).
  { unfold call. now rewrite deliver_pending. }
  split; [exact H1|]. intros Hev.
  rewrite deliver_app, H1, deliver_cons, dispatch_settles by auto.
  now apply deliver_detached.
Qed.

End Caller.

Section CallerAndWorker.

Import Client.

Variable number_toString : spec_float -> jsstring.

(** X23: with distinct job identifiers, what the call for a job sees of
    a worker that serves any number of jobs is what it sees of that job
    running alone in a fresh worker: the same callbacks in the same order
    and the same state of its promise.  (Messages posted before the call
    was made carry other identifiers and are skipped like those of the
    other jobs.) *)
Theorem client_sees_its_job_alone : forall (rt : Runtime) (l : Link) (h : Handlers),
  reachable number_toString rt -> NoDup (job_ids (queue rt)) -> In l (queue rt) ->
  let msg := link_msg l in
  let call := fst (compressWithGS (jobId msg) (pdfBuffer msg) (options msg)) in
  exists created,
    deliver (jobId msg) h (map MessageEvent (posted rt)) call
    = deliver (jobId msg) h
        (map MessageEvent (link_log number_toString created l)) call.
Proof.
  intros rt l h Hr Hnd Hin msg call.
  destruct (reachable_logged Hr) as [cs [Hlen Hlog]].
  destruct (@messages_of_chain_log number_toString (queue rt) cs l Hlen Hnd Hin) as [created Hc].
  exists created. rewrite deliver_concerns, concerns_messages, Hlog. fold msg in Hc.
  now rewrite Hc.
Qed.

(** X24: from the messages of its job a call ends with its listeners
    removed and its promise settled: rejected with the text of what the
    engine, its loading or the reading of its output threw, and otherwise
    resolved with the bytes, the flag and the version of the fallback
    policy (the input and [true] when the output is longer than the input,
    else the output and [false]); its callbacks are those of the status
    and progress messages of the job, in order. *)
Theorem client_outcome_of_a_job : forall (msg : CompressMsg)
    (created : Outcome GSModule) (g : Globals) (h : Handlers),
  let call := fst (compressWithGS (jobId msg) (pdfBuffer msg) (options msg)) in
  let ms := run_posted (run_job number_toString msg created) g in
  let larger := fun o : bytes => (List.length (pdfBuffer msg) <? List.length o)%nat in
  deliver (jobId msg) h (map MessageEvent ms) call
  = {| listening := false;
       promise :=
         match created with
         | Throw e => Rejected e
         | Ok gs =>
             match snd (engine_output number_toString gs (pdfBuffer msg) (options msg)) with
             | Throw e => Rejected e
             | Ok o => Resolved (if larger o then pdfBuffer msg else o) (larger o)
                         (resolved_version (pdfBuffer msg))
             end
         end;
       calls := flat_map (callback_of h) ms |}.
Proof.
  intros msg created g h call ms larger. subst ms.
  pose proof (run_job_ids number_toString msg created g) as Hids.
  destruct (run_job_split number_toString msg created g) as [pre [Hsplit Hpre]].
  rewrite Hsplit in *. apply Forall_app in Hids as [Hids _].
  destruct (job_terminal_is_terminal number_toString msg created) as [Ht Hid].
  rewrite map_app, deliver_app.
  rewrite (@deliver_callbacks (jobId msg) h pre call eq_refl Hids Hpre).
  cbn [map]. rewrite deliver_cons, deliver_terminal; auto.
  cbn [deliver fold_left calls fst compressWithGS app].
  rewrite flat_map_app. f_equal.
  - unfold job_terminal. destruct created as [gs|e]; [|reflexivity].
    destruct (snd (engine_output _ _ _ _)); reflexivity.
  - cbn [flat_map]. rewrite app_nil_r.
    replace (callback_of h (job_terminal number_toString msg created)) with (@nil Callback).
    + now rewrite app_nil_r.
    + unfold job_terminal. destruct created as [gs|e]; [|reflexivity].
      destruct (snd (engine_output _ _ _ _)); reflexivity.
Qed.

End CallerAndWorker.

(** ** The page *)

Section PageProperties.

Import Client.
Import App.

Lemma clamp_percent : forall x,
  is_number x = true -> exists z, App.clamp x (Int 0) (Int 100) = Int z /\ 0 <= z <= 100.
Proof.
  intros [|[]|z] H; try discriminate; unfold App.clamp; cbn.
  - exists 0. split; [reflexivity | lia].
  - exists 100. split; [reflexivity | lia].
  - exists (Z.max 0 (Z.min 100 z)). split; [reflexivity | lia].
Qed.

Lemma on_callback_bar : forall cb st q,
  numeric cb -> status st = compressing -> progress st = Int q -> 0 <= q <= 100 ->
  exists st', on_callback (Some st) cb = Some st'
              /\ status st' = compressing
              /\ exists q', progress st' = Int q' /\ q <= q' <= 100.
Proof.
  intros [stage msg | p] st q Hn Hs Hp Hq.
  - eexists. split; [reflexivity|]. cbn. split; [exact Hs|]. exists q. split; [exact Hp | lia].
  - cbn [on_callback progress_updater]. rewrite Hs. cbv zeta. rewrite Hp.
    destruct (clamp_percent _ Hn) as [z [Hz Hr]].
    unfold Math_round. rewrite Hz. cbn [JsNum.max].
    eexists. split; [reflexivity|]. cbn. split; [reflexivity|].
    exists (Z.max q z). split; [reflexivity | lia].
Qed.

Lemma after_callbacks_bar : forall cbs st q,
  Forall numeric cbs -> status st = compressing -> progress st = Int q -> 0 <= q <= 100 ->
  exists st', after_callbacks cbs (Some st) = Some st'
              /\ status st' = compressing
              /\ exists q', progress st' = Int q' /\ q <= q' <= 100.
Proof.
  induction cbs as [|cb cbs IH]; intros st q Hn Hs Hp Hq.
  - exists st. split; [reflexivity|]. split; [exact Hs|]. exists q. split; [exact Hp | lia].
  - inversion Hn as [|cb' cbs' Hcb Hcbs]; subst.
    destruct (@on_callback_bar cb st q Hcb Hs Hp Hq) as [st1 [H1 [Hs1 [q1 [Hp1 Hq1]]]]].
    destruct (IH st1 q1 Hcbs Hs1 Hp1) as [st2 [H2 [Hs2 [q2 [Hp2 Hq2]]]]]; [lia|].
    exists st2. unfold after_callbacks in *. cbn [fold_left]. rewrite H1.
    split; [exact H2|]. split; [exact Hs2|]. exists q2. split; [exact Hp2 | lia].
Qed.

Variable number_toString : spec_float -> jsstring.

Lemma run_job_numeric : forall msg created g h,
  Forall numeric
    (flat_map (callback_of h) (run_posted (run_job number_toString msg created) g)).
Proof.
  intros msg created g h.
  assert (H : forall ms,
            Forall (fun m => match m with
                             | MsgProgress _ p _ _ => is_number p = true
                             | _ => True
                             end) ms ->
            Forall numeric (flat_map (callback_of h) ms)).
  { induction 1 as [|m ms Hm _ IH]; [constructor|]. cbn [flat_map].
    apply Forall_app. split; [|exact IH].
    destruct m; cbn; try constructor.
    - destruct (onStatus h); repeat constructor.
    - destruct (onProgress h); repeat constructor. exact Hm. }
  apply H. rewrite run_job_log. constructor; [exact I|].
  destruct created as [gs|e]; [|repeat constructor]. cbv zeta.
  repeat (apply Forall_app; split); try (repeat constructor; fail).
  - eapply Forall_impl; [|apply feed_below_100].
    intros [j s t | j p c t | j o u v | j e] Hm; try exact I.
    destruct p; try contradiction. reflexivity.
  - destruct (snd (engine_output _ _ _ _)); repeat constructor.
Qed.

(** X25: over the callbacks of a job, whatever its engine prints, the
    progress the page shows never goes back and stays between 0 and 100:
    after any number of the callbacks it is at least what it was before
    them, and after more of them at least what it was after these.  (The
    percent of the worker itself can drop, when a later [Processing pages]
    line gives a larger total.) *)
Theorem progress_bar_never_goes_back : forall (msg : CompressMsg)
    (created : Outcome GSModule) (g : Globals) (h : Handlers)
    (cbs1 cbs2 : list Callback) (st : FileState) (q : Z),
  flat_map (callback_of h) (run_posted (run_job number_toString msg created) g)
  = cbs1 ++ cbs2 ->
  status st = compressing -> progress st = Int q -> 0 <= q <= 100 ->
  exists st1 st2 q1 q2,
    after_callbacks cbs1 (Some st) = Some st1
    /\ after_callbacks (cbs1 ++ cbs2) (Some st) = Some st2
    /\ progress st1 = Int q1 /\ progress st2 = Int q2
    /\ q <= q1 /\ q1 <= q2 /\ q2 <= 100.
Proof.
  intros msg created g h cbs1 cbs2 st q Hcb Hs Hp Hq.
  pose proof (run_job_numeric msg created g h) as Hn. rewrite Hcb in Hn.
  apply Forall_app in Hn as [Hn1 Hn2].
  destruct (@after_callbacks_bar cbs1 st q Hn1 Hs Hp Hq) as [st1 [H1 [Hs1 [q1 [Hp1 Hq1]]]]].
  destruct (@after_callbacks_bar cbs2 st1 q1 Hn2 Hs1 Hp1) as [st2 [H2 [Hs2 [q2 [Hp2 Hq2]]]]];
    [lia|].
  exists st1, st2, q1, q2. unfold after_callbacks in *.
  rewrite fold_left_app, H1. repeat split; auto; lia.
Qed.

(** The percent of the worker drops from 50 to 10 when the total grows
    from 2 to 10. *)
Example worker_percent_can_drop :
  run_posted
    (feed [str "Processing pages 1 through 2."; str "Page 1";
           str "Processing pages 1 through 10."])
    (job_start (str "a"))
  = [MsgProgress (str "a") (Int 0) (Int 0) (Some (Int 2));
     MsgProgress (str "a") (Int 50) (Int 1) (Some (Int 2));
     MsgProgress (str "a") (Int 10) (Int 1) (Some (Int 10))].
Proof. vm_compute. reflexivity. Qed.

Variable toString : number -> jsstring.

(** X26: with a known total [formatProgressLine] shows [Page c / t] where
    [t] is the total raised to at least 1 and [c] the page count brought
    into the range from 0 to [t], so never a page beyond the total; with
    an unknown total it shows [Page c] for a positive page count and
    nothing otherwise. *)
Theorem progress_line_stays_within_total : forall (pc : number) (c t : Z),
  let t' := Z.max 1 t in
  let c' := Z.min t' (Z.max 0 c) in
  formatProgressLine toString
    (Some {| percent := pc; current := Int c; total := Some (Int t) |})
  = Some (str "Page " ++ toString (Int c') ++ str " / " ++ toString (Int t'))
  /\ 0 <= c' <= t' /\ 1 <= t'
  /\ formatProgressLine toString
       (Some {| percent := pc; current := Int c; total := None |})
     = (if 0 <? c then Some (str "Page " ++ toString (Int c)) else None).
Proof.
  intros pc c t t' c'. unfold formatProgressLine, App.clamp. cbn.
  repeat split; try lia.
  - subst c' t'.
    replace (Z.max 0 (Z.min (Z.max 1 t) (Z.max 0 c)))
      with (Z.min (Z.max 1 t) (Z.max 0 c)) by lia.
    reflexivity.
  - destruct (Z.ltb_spec 0 c) as [H|H].
    + replace (0 <? Z.max 0 c) with true by (symmetry; apply Z.ltb_lt; lia).
      replace (Z.max 0 c) with c by lia. reflexivity.
    + replace (0 <? Z.max 0 c) with false by (symmetry; apply Z.ltb_ge; lia).
      reflexivity.
Qed.

(** X27: the options of each of the three compression levels pass the
    checks of the worker unchanged: resolution and threshold are finite and
    above the floors 1 and 0.1, so the engine is given the numbers of the
    level, with the preset of the level, no grayscale arguments, and
    [-sOutputFile=/out.pdf] and [/in.pdf] as the last two of its 21
    arguments. *)
Theorem levels_pass_the_worker_unchanged : forall (level : CompressionLevel)
    (pdfVersion : jsstring),
  let o := optionsFromLevel level in
  finite_or (resolutionDpi o) float_1 float_72 = nullish (resolutionDpi o) float_72
  /\ finite_or (threshold o) float_0_1 float_1_5 = nullish (threshold o) float_1_5
  /\ resolutionDpi o <> None /\ threshold o <> None
  /\ List.length (shrink_args number_toString o pdfVersion) = 21%nat
  /\ lastn 2 (shrink_args number_toString o pdfVersion)
     = [str "-sOutputFile=/out.pdf"; str "/in.pdf"]
  /\ nth_error (shrink_args number_toString o pdfVersion) 5
     = Some (str "-dPDFSETTINGS=/"
             ++ match level with
                | low => str "printer"
                | medium => str "ebook"
                | high => str "screen"
                end).
Proof.
  intros [] pdfVersion; cbv zeta; repeat split; try discriminate.
Qed.

End PageProperties.

(** ** Concrete instances *)

(** C5, as stated, fails: with [grayscale] set, the last two arguments
    are [-dOverrideICC] and the input path. *)
Lemma grayscale_args_follow_output :
  ~ (forall (number_toString : spec_float -> jsstring)
            (options : ShrinkOptions) (pdfVersion : jsstring),
       lastn 2 (shrink_args number_toString options pdfVersion)
       = [str "-sOutputFile=/out.pdf"; str "/in.pdf"]).
Proof.
  intros H.
  specialize (H sample_toString
                {| grayscale := Some true; resolutionDpi := None;
                   threshold := None; pdfSettings := None |}
                (str "1.5")).
  vm_compute in H. discriminate H.
Qed.

Lemma sample_reachable : reachable sample_toString sample_runtime.
Proof.
  apply drain_reachable. unfold reachable, sample_submitted.
  eapply steps_step; [eapply steps_step; [apply steps_refl|]|]; apply step_message.
Qed.

(** The fallback policy on a job whose engine doubles the input, and on
    one whose engine returns three bytes. *)
Lemma fallback_policy_witness :
  terminal_messages
    (run_posted (run_job sample_toString (sample_job "a")
                   (Ok (sample_engine (sample_pdf ++ sample_pdf))))
       initial_globals)
  = [MsgResult (str "a") sample_pdf true (str "1.4")]
  /\ terminal_messages
       (run_posted (run_job sample_toString (sample_job "a")
                      (Ok (sample_engine (list_byte_of_string "pdf"))))
          initial_globals)
     = [MsgResult (str "a") (list_byte_of_string "pdf") false (str "1.4")].
Proof.
  split.
  - exact (proj1 (proj2 (@fallback_policy sample_toString
                    (sample_engine (sample_pdf ++ sample_pdf)) (sample_job "a")
                    _ _ initial_globals eq_refl))).
  - exact (proj1 (proj2 (@fallback_policy sample_toString
                    (sample_engine (list_byte_of_string "pdf")) (sample_job "a")
                    _ _ initial_globals eq_refl))).
Defined.



Lemma progress_state_reset_after_job_witness :
  globals sample_runtime = initial_globals.
Proof.
  exact (proj1 (@progress_state_reset_after_job sample_toString sample_runtime
                  sample_reachable)).
Defined.

(** The sample run in full: the failure of [a] and the result of [b]. *)
Example sample_run_terminal_messages :
  terminal_messages (posted sample_runtime)
  = [MsgError (str "a") (str "wasm failed");
     MsgResult (str "b") (list_byte_of_string "pdf") false (str "1.4")].
Proof. vm_compute. reflexivity. Qed.


(** ** Instances of the further properties *)

(** A page line in lower case with white space around it is not a
    [Processing pages] line. *)
Lemma patterns_exclusive_witness :
  regex_match re_total (str " page  7 ") = None.
Proof.
  apply patterns_exclusive. vm_compute. discriminate.
Defined.

(** [Page 2] after page 5 changes nothing. *)
Lemma stale_page_line_is_ignored_witness :
  let g := {| activeJobId := Some (str "a"); totalPages := Some (Int 9);
              currentPage := Int 5 |} in
  parseGsLine (str "Page 2") g = (tt, g, []).
Proof.
  apply (@stale_page_line_is_ignored (str "Page 2") (str "2") _ 2 5).
  - exists [], (str "Page"), [32], []. repeat split; try reflexivity; discriminate.
  - reflexivity.
  - reflexivity.
  - lia.
Defined.

(** [Page 1] at the start of a job: total 1 for the time being, 99
    percent. *)
Lemma page_line_advances_witness :
  parseGsLine (str "Page 1") (job_start (str "a"))
  = (tt,
     {| activeJobId := Some (str "a"); totalPages := Some (Int 1);
        currentPage := Int 1 |},
     [MsgProgress (str "a") (Int 99) (Int 1) (Some (Int 1))]).
Proof.
  refine (proj1 (@page_line_advances (str "Page 1") (str "1") (job_start (str "a"))
                   97 [] 1 0 _ eq_refl eq_refl eq_refl _)).
  - exists [], (str "Page"), [32], []. repeat split; try reflexivity; discriminate.
  - lia.
Defined.

(** A page number of 310 digits. *)
Lemma huge_page_number_is_ignored_witness :
  Number huge_digits = Infinity false
  /\ parseGsLine (str "Page " ++ huge_digits) (job_start (str "a"))
     = (tt, job_start (str "a"), []).
Proof.
  apply huge_page_number_is_ignored.
  - exists [], (str "Page"), [32], []. repeat split; try reflexivity; discriminate.
  - apply Z.leb_le. vm_compute. reflexivity.
Defined.

(** Pages 3 through 12 are ten pages. *)
Lemma total_line_sets_total_witness :
  parseGsLine (str "Processing pages 3 through 12.") (job_start (str "a"))
  = (tt,
     {| activeJobId := Some (str "a"); totalPages := Some (Int 10);
        currentPage := Int 0 |},
     [MsgProgress (str "a") (Int 0) (Int 0) (Some (Int 10))]).
Proof.
  refine (@total_line_sets_total (str "Processing pages 3 through 12.")
            (str "3") (str "12") (job_start (str "a")) 97 [] _ eq_refl _).
  - apply total_found.
    exists (str "Processing pages"), [32], [32], (str "through"), [32], [].
    repeat split; try reflexivity; discriminate.
  - split; [apply Z.leb_le | apply Z.ltb_lt]; reflexivity.
Defined.

(** Pages 5 through 2. *)
Lemma reversed_range_is_ignored_witness :
  parseGsLine (str "Processing pages 5 through 2.") (job_start (str "a"))
  = (tt, job_start (str "a"), []).
Proof.
  apply (@reversed_range_is_ignored (str "Processing pages 5 through 2.")
           (str "5") (str "2") _ 5 2).
  - apply total_found.
    exists (str "Processing pages"), [32], [32], (str "through"), [32], [].
    repeat split; try reflexivity; discriminate.
  - reflexivity.
  - reflexivity.
  - lia.
Defined.

(** The silent engine finds no output, although its instance came with
    one. *)
Lemma missing_output_is_an_error_witness :
  FS_readFile outPath (FS_initial silent_engine) = Ok (list_byte_of_string "stale")
  /\ terminal_messages
       (run_posted (run_job sample_toString (sample_job "a") (Ok silent_engine))
          initial_globals)
     = [MsgError (str "a") ENOENT].
Proof.
  split; [reflexivity|].
  apply (@missing_output_is_an_error sample_toString (sample_job "a") silent_engine
           initial_globals [] _ eq_refl).
  reflexivity.
Defined.

(** An engine that fails to load. *)
Lemma failure_is_reported_as_error_witness :
  terminal_messages
    (run_posted (run_job sample_toString (sample_job "a") (Throw (str "wasm failed")))
       initial_globals)
  = [MsgError (str "a") (str "wasm failed")].
Proof.
  exact (proj1 (@failure_is_reported_as_error sample_toString (sample_job "a")
                  (Throw (str "wasm failed")) initial_globals (str "wasm failed")
                  (or_introl eq_refl))).
Defined.

(** The progress events of the sample job: two pages, then 100 percent. *)
Lemma final_progress_event_witness :
  progress_events
    (run_posted (run_job sample_toString (sample_job "a")
                   (Ok (sample_engine (list_byte_of_string "pdf"))))
       initial_globals)
  = [MsgProgress (str "a") (Int 0) (Int 0) None;
     MsgProgress (str "a") (Int 0) (Int 0) (Some (Int 2));
     MsgProgress (str "a") (Int 50) (Int 1) (Some (Int 2));
     MsgProgress (str "a") (Int 99) (Int 2) (Some (Int 2));
     MsgProgress (str "a") (Int 100) (Int 2) (Some (Int 2))].
Proof.
  exact (proj1 (@final_progress_event sample_toString (sample_job "a")
                  (sample_engine (list_byte_of_string "pdf")) initial_globals
                  _ _ eq_refl)).
Defined.

(** The same job under the empty identifier. *)
Lemma empty_job_id_reports_no_pages_witness :
  progress_events
    (run_posted (run_job sample_toString (sample_job "")
                   (Ok (sample_engine (list_byte_of_string "pdf"))))
       initial_globals)
  = [MsgProgress [] (Int 0) (Int 0) None; MsgProgress [] (Int 100) (Int 0) None].
Proof.
  rewrite (@empty_job_id_reports_no_pages sample_toString (sample_job "")
             (sample_engine (list_byte_of_string "pdf")) initial_globals eq_refl).
  reflexivity.
Defined.


Lemma job_events_are_those_of_the_job_alone_witness :
  exists created,
    messages_of (str "b") (posted sample_runtime)
    = link_log sample_toString created (mkLink (sample_job "b") Settled).
Proof.
  apply (@job_events_are_those_of_the_job_alone sample_toString sample_runtime
           (mkLink (sample_job "b") Settled) sample_reachable).
  - repeat constructor; simpl; intuition discriminate.
  - right. left. reflexivity.
Defined.

(** A call for job [a]: the status of [b] is skipped, the error of the
    worker rejects, the late result is not seen. *)
Lemma first_settling_event_decides_witness :
  Client.deliver (str "a") sample_handlers
    ([Client.MessageEvent (MsgStatus (str "b") (str "loading") []);
      Client.MessageEvent (MsgStatus (str "a") (str "loading") [])]
     ++ Client.ErrorEvent (str "boom")
     :: [Client.MessageEvent (MsgResult (str "a") [] false [])])
    (fst (Client.compressWithGS (str "a") sample_pdf sample_options))
  = {| Client.listening := false;
       Client.promise := Client.Rejected (str "boom");
       Client.calls := [Client.OnStatus (str "loading") []] |}.
Proof.
  exact (proj2 (@first_settling_event_decides (str "a") sample_pdf sample_options
                  sample_handlers
                  [Client.MessageEvent (MsgStatus (str "b") (str "loading") []);
                   Client.MessageEvent (MsgStatus (str "a") (str "loading") [])]
                  [Client.MessageEvent (MsgResult (str "a") [] false [])]
                  (Client.ErrorEvent (str "boom")) eq_refl)
           eq_refl).
Defined.

Lemma client_sees_its_job_alone_witness :
  let call := fst (Client.compressWithGS (str "b") sample_pdf sample_options) in
  exists created,
    Client.deliver (str "b") sample_handlers
      (map Client.MessageEvent (posted sample_runtime)) call
    = Client.deliver (str "b") sample_handlers
        (map Client.MessageEvent
           (link_log sample_toString created (mkLink (sample_job "b") Settled)))
        call.
Proof.
  apply (@client_sees_its_job_alone sample_toString sample_runtime
           (mkLink (sample_job "b") Settled) sample_handlers sample_reachable).
  - repeat constructor; simpl; intuition discriminate.
  - right. left. reflexivity.
Defined.

(** The bar over the callbacks of the sample job, split after the third. *)
Lemma progress_bar_never_goes_back_witness :
  let cbs :=
    flat_map (callback_of sample_handlers)
      (run_posted (run_job sample_toString (sample_job "a")
                     (Ok (sample_engine (list_byte_of_string "pdf"))))
         initial_globals) in
  exists st1 st2 q1 q2,
    App.after_callbacks (firstn 3 cbs) (Some sample_state) = Some st1
    /\ App.after_callbacks (firstn 3 cbs ++ skipn 3 cbs) (Some sample_state) = Some st2
    /\ App.progress st1 = Int q1 /\ App.progress st2 = Int q2
    /\ 0 <= q1 /\ q1 <= q2 /\ q2 <= 100.
Proof.
  intros cbs.
  apply (@progress_bar_never_goes_back sample_toString (sample_job "a")
           (Ok (sample_engine (list_byte_of_string "pdf"))) initial_globals
           sample_handlers (firstn 3 cbs) (skipn 3 cbs) sample_state 0).
  - symmetry. apply firstn_skipn.
  - reflexivity.
  - reflexivity.
  - lia.
Defined.
